(** * Smith-Waterman local alignment (package [align]): model and properties

    The development follows the two Go files of the alignment engine:
    [smith_waterman.go] (sequential fill and traceback) and
    [parallel_smith_waterman.go] (wave-front fill with goroutines, batch
    alignment with a semaphore channel).
    The code around the engine follows: the helpers of the tests and of
    the benchmark, the sequence utilities of package [data] that do not
    decode runes, and the two helpers of the visualisation command.

    Conventions of the embedding.
    - A Go [string] is a sequence of bytes: [list byte].  Indexing
      [s[i]] is [s !! i]; an index out of range makes the Go program
      panic, which is the [None] of the option monad used throughout.
    - A Go [int] score is a [Z].  A cell of the filled matrix is at most
      twice the smaller of its two indices (lemma [sw_matrix_upper]
      below) and every sum the code forms is within 2 of a cell, far away
      from the 64-bit limits for any sequences a Go program can hold, so
      the additions are written without wrap-around.
    - Loop counters and matrix indices are [nat]: every index the code
      uses is a loop counter that starts at 1 or a stored maximum
      position that starts at 0.
    - The two tracebacks are functions of any matrix and any cell, so
      they are given twice: as the aligners use them, under the two
      conventions above ([traceback]), and with the arithmetic of Go
      ([traceback_int]: sums that wrap around at 64 bits, indices that
      may be negative).  The two agree on every matrix whose cells are
      two away from the limits of [int] (lemma [traceback_int_exact]),
      and the matrices of the two aligners are such under every schedule
      (lemma [aligners_run_traceback_int]).
    - [[][]int] is [list (list Z)], read with [cell] and written with
      [set_cell]; both fail out of range as the Go index expressions do. *)

From Stdlib Require Import ZArith Lia Bool.
From Stdlib Require Import Strings.Byte.
From stdpp Require Import base option list gmap.

Abbreviation gostring := (list byte).
Abbreviation matrix := (list (list Z)).

(** ** Scoring parameters *)

Definition MatchScore : Z := 2.
Definition MismatchScore : Z := -1.
Definition GapPenalty : Z := -2.

(** The marker written by the traceback on the side that is not consumed. *)
Definition gap : byte := "-"%byte.

(** ** Go primitives used by the aligner *)

(** [string(b)] for a byte [b]: Go converts an integer to the UTF-8
    encoding of the code point with that number, so a byte below 0x80
    becomes the one-byte string holding it and a byte from 0x80 to 0xFF
    becomes two bytes. *)
Definition byte_of_N (n : N) : byte := default "000"%byte (Byte.of_N n).

Definition string_of_byte (b : byte) : gostring :=
  let n := Byte.to_N b in
  if (n <? 128)%N then [b]
  else [byte_of_N (192 + n / 64); byte_of_N (128 + n mod 64)].

(** The sum of two Go [int]s wraps around at 64 bits. *)
Definition int_add (a b : Z) : Z := ((a + b + 2 ^ 63) `mod` 2 ^ 64 - 2 ^ 63)%Z.

(** [matrix[i][j]] as an expression. *)
Definition cell (M : matrix) (i j : nat) : option Z :=
  row ← M !! i; row !! j.

(** [matrix[i][j] = v] as a statement. *)
Definition set_cell (M : matrix) (i j : nat) (v : Z) : option matrix :=
  row ← M !! i;
  if decide (j < length row) then Some (<[i := <[j := v]> row]> M) else None.

(** [make([][]int, m+1)] with every row [make([]int, n+1)]. *)
Definition make_matrix (m n : nat) : matrix :=
  replicate (m + 1) (replicate (n + 1) 0%Z).

(** [for i := lo; i < lo + count; i++ { body }] over a state, stopping at
    the first panic. *)
Fixpoint for_loop {St : Type} (body : nat → St → option St)
    (lo count : nat) (s : St) : option St :=
  match count with
  | O => Some s
  | S k => s' ← body lo s; for_loop body (S lo) k s'
  end.

(** [smithMax(values ...int)]: [values[0]] panics on an empty argument list. *)
Definition smithMax (values : list Z) : option Z :=
  match values with
  | [] => None
  | v0 :: rest =>
      Some (fold_left (λ maxVal v, if (v >? maxVal)%Z then v else maxVal) rest v0)
  end.

Arguments smithMax : simpl never.

(** The match or mismatch score of two symbols. *)
Definition match_score (a b : byte) : Z :=
  if Byte.eqb a b then MatchScore else MismatchScore.

(** ** Sequential aligner *)

Record AlignmentResult := {
  ScoreMatrix : matrix;
  MaxScore : Z;
  AlignedQuery : gostring;
  AlignedRef : gostring
}.

(** The variables the fill loop of [SmithWaterman] updates. *)
Record fill_state := {
  fs_matrix : matrix;
  fs_maxScore : Z;
  fs_maxRow : nat;
  fs_maxCol : nat
}.

(** The value stored in cell (i, j): lines 42 to 53 of [SmithWaterman]. *)
Definition cell_score (query reference : gostring) (M : matrix) (i j : nat)
    : option Z :=
  qb ← query !! (i - 1);
  rb ← reference !! (j - 1);
  let match_ := match_score qb rb in
  d ← cell M (i - 1) (j - 1);
  let scoreDiag := (d + match_)%Z in
  u ← cell M (i - 1) j;
  let scoreUp := (u + GapPenalty)%Z in
  l ← cell M i (j - 1);
  let scoreLeft := (l + GapPenalty)%Z in
  smithMax [0%Z; scoreDiag; scoreUp; scoreLeft].

(** One iteration of the inner loop. *)
Definition fill_cell (query reference : gostring) (i j : nat) (s : fill_state)
    : option fill_state :=
  v ← cell_score query reference (fs_matrix s) i j;
  M' ← set_cell (fs_matrix s) i j v;
  v' ← cell M' i j;
  if bool_decide (fs_maxScore s < v')%Z
  then Some {| fs_matrix := M'; fs_maxScore := v'; fs_maxRow := i; fs_maxCol := j |}
  else Some {| fs_matrix := M'; fs_maxScore := fs_maxScore s;
               fs_maxRow := fs_maxRow s; fs_maxCol := fs_maxCol s |}.

(** The nested fill loops, from the freshly allocated matrix. *)
Definition sw_fill (query reference : gostring) : option fill_state :=
  let m := length query in
  let n := length reference in
  for_loop (λ i, for_loop (fill_cell query reference i) 1 n) 1 m
    {| fs_matrix := make_matrix m n; fs_maxScore := 0;
       fs_maxRow := 0; fs_maxCol := 0 |}.

(** The loop of [traceback].  Each iteration lowers [row + col], so
    [row + col] iterations are enough; [fuel] counts them. *)
Fixpoint traceback_loop (fuel : nat) (M : matrix) (query reference : gostring)
    (row col : nat) (alignedQuery alignedRef : gostring)
    : option (gostring * gostring) :=
  match fuel with
  | O => Some (alignedQuery, alignedRef)
  | S fuel' =>
    if bool_decide (0 < row) && bool_decide (0 < col) then
      currentScore ← cell M row col;
      if bool_decide (0 < currentScore)%Z then
        qb ← query !! (row - 1);
        rb ← reference !! (col - 1);
        let match_ := match_score qb rb in
        d ← cell M (row - 1) (col - 1);
        if bool_decide (currentScore = d + match_)%Z then
          traceback_loop fuel' M query reference (row - 1) (col - 1)
            (string_of_byte qb ++ alignedQuery) (string_of_byte rb ++ alignedRef)
        else
          u ← cell M (row - 1) col;
          if bool_decide (currentScore = u + GapPenalty)%Z then
            traceback_loop fuel' M query reference (row - 1) col
              (string_of_byte qb ++ alignedQuery) (gap :: alignedRef)
          else
            l ← cell M row (col - 1);
            if bool_decide (currentScore = l + GapPenalty)%Z then
              traceback_loop fuel' M query reference row (col - 1)
                (gap :: alignedQuery) (string_of_byte rb ++ alignedRef)
            else Some (alignedQuery, alignedRef)
      else Some (alignedQuery, alignedRef)
    else Some (alignedQuery, alignedRef)
  end.

Definition traceback (M : matrix) (query reference : gostring) (row col : nat)
    : option (gostring * gostring) :=
  traceback_loop (row + col) M query reference row col [] [].

Definition SmithWaterman (query reference : gostring) : option AlignmentResult :=
  s ← sw_fill query reference;
  al ← traceback (fs_matrix s) query reference (fs_maxRow s) (fs_maxCol s);
  Some {| ScoreMatrix := fs_matrix s; MaxScore := fs_maxScore s;
          AlignedQuery := al.1; AlignedRef := al.2 |}.

(** ** Goroutines

    The two concurrent functions start goroutines and wait for them.  An
    execution is an interleaving of the atomic actions of the goroutines,
    chosen by the scheduler: the functions below take the schedule as an
    argument, a list of events each naming the goroutine that moves next.
    An action that cannot run at its turn (a goroutine that has ended or
    was never started, a send on a full channel, a receive on an empty
    one) is [Blocked]: the list is then not a schedule of the program.
    A run-time panic is [Panics]. *)

Inductive outcome (A : Type) : Type :=
  | Next (a : A)
  | Blocked
  | Panics.
Arguments Next {A} a.
Arguments Blocked {A}.
Arguments Panics {A}.

Definition of_option {A : Type} (o : option A) : outcome A :=
  match o with Some a => Next a | None => Panics end.

(** Runs the events of a schedule in order, up to the first one that
    blocks or panics. *)
Fixpoint run_schedule {Ev St : Type} (step : Ev → St → outcome St)
    (sched : list Ev) (s : St) : outcome St :=
  match sched with
  | [] => Next s
  | ev :: rest =>
      match step ev s with
      | Next s' => run_schedule step rest s'
      | Blocked => Blocked
      | Panics => Panics
      end
  end.

(** ** Parallel aligner *)

Record ParallelAlignmentResult := {
  par_ScoreMatrix : matrix;
  par_MaxScore : Z;
  par_MaxRow : nat;
  par_MaxCol : nat;
  par_AlignedQuery : gostring;
  par_AlignedRef : gostring
}.

(** Where a wave goroutine stands in the body of its loop; the locals
    computed so far travel with it. *)
Inductive wave_pc : Type :=
  | AtLoopTest
  | AtScoreDiag (match_ : Z)
  | AtScoreUp (scoreDiag : Z)
  | AtScoreLeft (scoreDiag scoreUp : Z)
  | AtStore (scoreDiag scoreUp scoreLeft : Z)
  | AtTrack
  | WaveDone.

(** The goroutine [go func(waveFront int) {...}(wave)]: its argument, its
    loop variable [i] and its position. *)
Record wave_task := {
  wt_waveFront : nat;
  wt_i : nat;
  wt_pc : wave_pc
}.

(** What the goroutines of [ParallelSmithWaterman] share, and the loop
    variable [wave] of the dispatch loop. *)
Record par_state := {
  ps_matrix : matrix;
  ps_maxScore : Z;
  ps_maxRow : nat;
  ps_maxCol : nat;
  ps_wave : nat;
  ps_tasks : list wave_task
}.

Definition set_matrix (s : par_state) (M : matrix) : par_state :=
  {| ps_matrix := M; ps_maxScore := ps_maxScore s; ps_maxRow := ps_maxRow s;
     ps_maxCol := ps_maxCol s; ps_wave := ps_wave s; ps_tasks := ps_tasks s |}.

Definition set_max (s : par_state) (v : Z) (i j : nat) : par_state :=
  {| ps_matrix := ps_matrix s; ps_maxScore := v; ps_maxRow := i;
     ps_maxCol := j; ps_wave := ps_wave s; ps_tasks := ps_tasks s |}.

Definition set_tasks (s : par_state) (ts : list wave_task) : par_state :=
  {| ps_matrix := ps_matrix s; ps_maxScore := ps_maxScore s;
     ps_maxRow := ps_maxRow s; ps_maxCol := ps_maxCol s;
     ps_wave := ps_wave s; ps_tasks := ts |}.

Definition at_pc (t : wave_task) (pc : wave_pc) : wave_task :=
  {| wt_waveFront := wt_waveFront t; wt_i := wt_i t; wt_pc := pc |}.

Definition next_iteration (t : wave_task) : wave_task :=
  {| wt_waveFront := wt_waveFront t; wt_i := S (wt_i t); wt_pc := AtLoopTest |}.

(** One atomic action of a wave goroutine: the loop test with the
    [continue] and the symbol comparison, each of the three reads of the
    shared matrix, the store, and the maximum test, whose compare and
    update run under the mutex. *)
Definition wave_step (query reference : gostring) (s : par_state) (t : wave_task)
    : outcome (par_state * wave_task) :=
  let m := length query in
  let n := length reference in
  let i := wt_i t in
  let j := wt_waveFront t - i in
  match wt_pc t with
  | AtLoopTest =>
      if bool_decide (i ≤ m) && bool_decide (i < wt_waveFront t) then
        if bool_decide (j < 1) || bool_decide (n < j) then
          Next (s, next_iteration t)
        else
          of_option (
            qb ← query !! (i - 1);
            rb ← reference !! (j - 1);
            Some (s, at_pc t (AtScoreDiag (match_score qb rb))))
      else Next (s, at_pc t WaveDone)
  | AtScoreDiag match_ =>
      of_option (
        d ← cell (ps_matrix s) (i - 1) (j - 1);
        Some (s, at_pc t (AtScoreUp (d + match_))))
  | AtScoreUp scoreDiag =>
      of_option (
        u ← cell (ps_matrix s) (i - 1) j;
        Some (s, at_pc t (AtScoreLeft scoreDiag (u + GapPenalty))))
  | AtScoreLeft scoreDiag scoreUp =>
      of_option (
        l ← cell (ps_matrix s) i (j - 1);
        Some (s, at_pc t (AtStore scoreDiag scoreUp (l + GapPenalty))))
  | AtStore scoreDiag scoreUp scoreLeft =>
      of_option (
        v ← smithMax [0%Z; scoreDiag; scoreUp; scoreLeft];
        M' ← set_cell (ps_matrix s) i j v;
        Some (set_matrix s M', at_pc t AtTrack))
  | AtTrack =>
      of_option (
        v ← cell (ps_matrix s) i j;
        if bool_decide (0 < v)%Z then
          if bool_decide (ps_maxScore s < v)%Z
          then Some (set_max s v i j, next_iteration t)
          else Some (s, next_iteration t)
        else Some (s, next_iteration t))
  | WaveDone => Blocked
  end.

(** The scheduler either lets the calling goroutine run one iteration of
    the dispatch loop, which starts the goroutine of the next wave, or
    lets the goroutine started [k]-th (that of wave [k + 2]) run one
    action. *)
Inductive par_event : Type :=
  | Dispatch
  | Wave (k : nat).

Definition par_step (query reference : gostring) (ev : par_event) (s : par_state)
    : outcome par_state :=
  match ev with
  | Dispatch =>
      if bool_decide (ps_wave s ≤ length query + length reference) then
        Next {| ps_matrix := ps_matrix s; ps_maxScore := ps_maxScore s;
                ps_maxRow := ps_maxRow s; ps_maxCol := ps_maxCol s;
                ps_wave := S (ps_wave s);
                ps_tasks := ps_tasks s ++
                  [{| wt_waveFront := ps_wave s; wt_i := 1;
                      wt_pc := AtLoopTest |}] |}
      else Blocked
  | Wave k =>
      match ps_tasks s !! k with
      | None => Blocked
      | Some t =>
          match wave_step query reference s t with
          | Next (s', t') => Next (set_tasks s' (<[k := t']> (ps_tasks s')))
          | Blocked => Blocked
          | Panics => Panics
          end
      end
  end.

Definition par_init (m n : nat) : par_state :=
  {| ps_matrix := make_matrix m n; ps_maxScore := 0; ps_maxRow := 0;
     ps_maxCol := 0; ps_wave := 2; ps_tasks := [] |}.

(** [wg.Wait()] returns: the dispatch loop is over and every goroutine
    it started has ended (each [wg.Add(1)] is paired with the deferred
    [wg.Done()] of the goroutine it announces, so the counter is the
    number of goroutines that have not ended). *)
Definition par_joined (query reference : gostring) (s : par_state) : bool :=
  bool_decide (length query + length reference < ps_wave s) &&
  forallb (λ t, match wt_pc t with WaveDone => true | _ => false end) (ps_tasks s).

(** [parallelTraceback] has, statement for statement, the body of
    [traceback]. *)
Definition parallelTraceback (M : matrix) (query reference : gostring)
    (row col : nat) : option (gostring * gostring) :=
  traceback_loop (row + col) M query reference row col [] [].

(** [gomaxprocs] is the value of [runtime.GOMAXPROCS(0)].  Below the
    threshold no goroutine is started and the schedule is not looked at.
    Above it the call returns after a schedule that lets [wg.Wait()]
    return; a schedule that stops earlier leaves the caller blocked. *)
Definition ParallelSmithWaterman (gomaxprocs : Z) (query reference : gostring)
    (numWorkers : Z) (sched : list par_event) : outcome ParallelAlignmentResult :=
  let m := length query in
  let n := length reference in
  let numWorkers :=
    if bool_decide (numWorkers ≤ 0)%Z then gomaxprocs else numWorkers in
  if bool_decide (m < 50) || bool_decide (n < 50) then
    of_option (
      result ← SmithWaterman query reference;
      Some {| par_ScoreMatrix := ScoreMatrix result;
              par_MaxScore := MaxScore result;
              par_MaxRow := 0;
              par_MaxCol := 0;
              par_AlignedQuery := AlignedQuery result;
              par_AlignedRef := AlignedRef result |})
  else
    match run_schedule (par_step query reference) sched (par_init m n) with
    | Next s =>
        if par_joined query reference s then
          of_option (
            al ← parallelTraceback (ps_matrix s) query reference
                   (ps_maxRow s) (ps_maxCol s);
            Some {| par_ScoreMatrix := ps_matrix s;
                    par_MaxScore := ps_maxScore s;
                    par_MaxRow := ps_maxRow s;
                    par_MaxCol := ps_maxCol s;
                    par_AlignedQuery := al.1;
                    par_AlignedRef := al.2 |})
        else Blocked
    | Blocked => Blocked
    | Panics => Panics
    end.

(** ** The traceback on any matrix

    [traceback] and [parallelTraceback] take whatever matrix and starting
    cell they are given, so for them the convention of the header does not
    hold: a cell may lie next to the limits of [int], where the three sums
    of the loop wrap around, and [row] and [col] may be negative.  This is
    the loop with the arithmetic of Go: the sums are [int_add], [row] and
    [col] are integers, and an index is the natural number of a positive
    integer.  Lemma [traceback_int_exact] below shows that it is
    [traceback] on every matrix whose cells are two away from the limits. *)
Fixpoint traceback_int_loop (fuel : nat) (M : matrix) (query reference : gostring)
    (row col : Z) (alignedQuery alignedRef : gostring)
    : option (gostring * gostring) :=
  match fuel with
  | O => Some (alignedQuery, alignedRef)
  | S fuel' =>
    if bool_decide (0 < row)%Z && bool_decide (0 < col)%Z then
      currentScore ← cell M (Z.to_nat row) (Z.to_nat col);
      if bool_decide (0 < currentScore)%Z then
        qb ← query !! Z.to_nat (row - 1);
        rb ← reference !! Z.to_nat (col - 1);
        let match_ := match_score qb rb in
        d ← cell M (Z.to_nat (row - 1)) (Z.to_nat (col - 1));
        if bool_decide (currentScore = int_add d match_) then
          traceback_int_loop fuel' M query reference (row - 1) (col - 1)
            (string_of_byte qb ++ alignedQuery) (string_of_byte rb ++ alignedRef)
        else
          u ← cell M (Z.to_nat (row - 1)) (Z.to_nat col);
          if bool_decide (currentScore = int_add u GapPenalty) then
            traceback_int_loop fuel' M query reference (row - 1) col
              (string_of_byte qb ++ alignedQuery) (gap :: alignedRef)
          else
            l ← cell M (Z.to_nat row) (Z.to_nat (col - 1));
            if bool_decide (currentScore = int_add l GapPenalty) then
              traceback_int_loop fuel' M query reference row (col - 1)
                (gap :: alignedQuery) (string_of_byte rb ++ alignedRef)
            else Some (alignedQuery, alignedRef)
      else Some (alignedQuery, alignedRef)
    else Some (alignedQuery, alignedRef)
  end.

(** Each iteration lowers [row] or [col] and the loop ends when one of
    them is not positive, so as many iterations as the two count together
    are enough. *)
Definition traceback_int (M : matrix) (query reference : gostring) (row col : Z)
    : option (gostring * gostring) :=
  traceback_int_loop (Z.to_nat row + Z.to_nat col) M query reference row col [] [].

(** [parallelTraceback], whose body is the same. *)
Definition parallelTraceback_int (M : matrix) (query reference : gostring)
    (row col : Z) : option (gostring * gostring) :=
  traceback_int_loop (Z.to_nat row + Z.to_nat col) M query reference row col [] [].

(** ** Batch aligner *)

(** Where a batch goroutine stands: before the alignment and the store
    into [results[index]], before the deferred receive from the
    semaphore, before the deferred [wg.Done()], or ended. *)
Inductive batch_pc : Type :=
  | AtAlign
  | AtRelease
  | AtWgDone
  | BatchDone.

(** The goroutine [go func(index int, reference string) {...}(i, ref)]. *)
Record batch_task := {
  bt_index : nat;
  bt_reference : gostring;
  bt_pc : batch_pc
}.

(** The pre-sized [results] slice, the position of the range loop, the
    number of tokens in the semaphore channel, the WaitGroup counter and
    the goroutines started so far. *)
Record batch_state := {
  bs_results : list AlignmentResult;
  bs_next : nat;
  bs_semaphore : nat;
  bs_wg : nat;
  bs_tasks : list batch_task
}.

(** The zero value of [AlignmentResult]. *)
Definition zero_result : AlignmentResult :=
  {| ScoreMatrix := []; MaxScore := 0; AlignedQuery := []; AlignedRef := [] |}.

Definition batch_at (t : batch_task) (pc : batch_pc) : batch_task :=
  {| bt_index := bt_index t; bt_reference := bt_reference t; bt_pc := pc |}.

(** One action of a batch goroutine.  The alignment works on a matrix of
    its own and ends with the store into [results[index]], which panics
    on an index outside [results]; the receive blocks on an empty channel;
    [wg.Done()] panics on a counter that is already zero. *)
Definition batch_task_step (query : gostring) (s : batch_state) (t : batch_task)
    : outcome (batch_state * batch_task) :=
  match bt_pc t with
  | AtAlign =>
      of_option (
        result ← SmithWaterman query (bt_reference t);
        if bool_decide (bt_index t < length (bs_results s)) then
          Some ({| bs_results := <[bt_index t := result]> (bs_results s);
                   bs_next := bs_next s; bs_semaphore := bs_semaphore s;
                   bs_wg := bs_wg s; bs_tasks := bs_tasks s |},
                batch_at t AtRelease)
        else None)
  | AtRelease =>
      match bs_semaphore s with
      | O => Blocked
      | S tokens =>
          Next ({| bs_results := bs_results s; bs_next := bs_next s;
                   bs_semaphore := tokens; bs_wg := bs_wg s;
                   bs_tasks := bs_tasks s |},
                batch_at t AtWgDone)
      end
  | AtWgDone =>
      match bs_wg s with
      | O => Panics
      | S count =>
          Next ({| bs_results := bs_results s; bs_next := bs_next s;
                   bs_semaphore := bs_semaphore s; bs_wg := count;
                   bs_tasks := bs_tasks s |},
                batch_at t BatchDone)
      end
  | BatchDone => Blocked
  end.

(** The scheduler either lets the calling goroutine run one iteration of
    the range loop ([wg.Add(1)], the send on the semaphore, which blocks
    while the channel holds [capacity] tokens, and the [go] statement), or
    lets the goroutine started [k]-th run one action. *)
Inductive batch_event : Type :=
  | Launch
  | Worker (k : nat).

Definition batch_step (query : gostring) (references : list gostring)
    (capacity : nat) (ev : batch_event) (s : batch_state) : outcome batch_state :=
  match ev with
  | Launch =>
      match references !! bs_next s with
      | None => Blocked
      | Some ref =>
          if bool_decide (bs_semaphore s < capacity) then
            Next {| bs_results := bs_results s;
                    bs_next := S (bs_next s);
                    bs_semaphore := S (bs_semaphore s);
                    bs_wg := S (bs_wg s);
                    bs_tasks := bs_tasks s ++
                      [{| bt_index := bs_next s; bt_reference := ref;
                          bt_pc := AtAlign |}] |}
          else Blocked
      end
  | Worker k =>
      match bs_tasks s !! k with
      | None => Blocked
      | Some t =>
          match batch_task_step query s t with
          | Next (s', t') =>
              Next {| bs_results := bs_results s'; bs_next := bs_next s';
                      bs_semaphore := bs_semaphore s'; bs_wg := bs_wg s';
                      bs_tasks := <[k := t']> (bs_tasks s') |}
          | Blocked => Blocked
          | Panics => Panics
          end
      end
  end.

Definition batch_init (references : list gostring) : batch_state :=
  {| bs_results := replicate (length references) zero_result;
     bs_next := 0; bs_semaphore := 0; bs_wg := 0; bs_tasks := [] |}.

(** The range loop is over and [wg.Wait()] returns. *)
Definition batch_joined (references : list gostring) (s : batch_state) : bool :=
  bool_decide (bs_next s = length references) && bool_decide (bs_wg s = 0).

(** The size of the semaphore channel: [numWorkers] after the two
    adjustments at the top of [ConcurrentSmithWatermanBatch]. *)
Definition batch_workers (gomaxprocs : Z) (references : list gostring)
    (numWorkers : Z) : Z :=
  let numWorkers :=
    if bool_decide (numWorkers ≤ 0)%Z then gomaxprocs else numWorkers in
  if bool_decide (Z.of_nat (length references) < numWorkers)%Z
  then Z.of_nat (length references) else numWorkers.

(** [make(chan struct{}, numWorkers)] panics on a negative size.  The
    call returns [results] after a schedule that lets [wg.Wait()] return. *)
Definition ConcurrentSmithWatermanBatch (gomaxprocs : Z) (query : gostring)
    (references : list gostring) (numWorkers : Z) (sched : list batch_event)
    : outcome (list AlignmentResult) :=
  let numWorkers := batch_workers gomaxprocs references numWorkers in
  if bool_decide (numWorkers < 0)%Z then Panics else
  match run_schedule (batch_step query references (Z.to_nat numWorkers)) sched
          (batch_init references) with
  | Next s => if batch_joined references s then Next (bs_results s) else Blocked
  | Blocked => Blocked
  | Panics => Panics
  end.

(** * Vocabulary of the specification

    The predicates, measures and sample inputs the statements below are
    written with. *)

(** ** Sample inputs *)

Definition GATTACA : gostring := ["G"; "A"; "T"; "T"; "A"; "C"; "A"]%byte.

Definition GATACA : gostring := ["G"; "A"; "T"; "A"; "C"; "A"]%byte.

Definition three_references : list gostring :=
  [GATTACA; GATACA; ["G"; "A"; "T"; "T"; "T"; "C"; "A"]%byte].

Definition fifty_A : gostring := replicate 50 "A"%byte.

(** The least and the largest [int]. *)
Definition MinInt64 : Z := (- 2 ^ 63)%Z.
Definition MaxInt64 : Z := (2 ^ 63 - 1)%Z.

(** ** The score matrix *)

(** A matrix of [m + 1] rows of [n + 1] cells. *)
Definition dims (m n : nat) (M : matrix) : Prop :=
  length M = m + 1 ∧ Forall (λ row, length row = n + 1) M.

(** Row-major order on cells. *)
Definition lex_lt (a b i j : nat) : Prop := a < i ∨ (a = i ∧ b < j).

(** The interior cells the scan has written when it is about to write (i, j). *)
Definition processed (n i j a b : nat) : Prop :=
  1 ≤ a ∧ 1 ≤ b ≤ n ∧ lex_lt a b i j.

(** [maxScore] is the largest value of [M], and ([maxRow], [maxCol]) is the
    first cell in row-major order that holds it. *)
Definition first_max (M : matrix) (maxScore : Z) (maxRow maxCol : nat) : Prop :=
  cell M maxRow maxCol = Some maxScore ∧
  (∀ a b v, cell M a b = Some v → (v ≤ maxScore)%Z) ∧
  (∀ a b v, cell M a b = Some v → lex_lt a b maxRow maxCol → (v < maxScore)%Z).

(** [M] is the Smith-Waterman matrix of the two sequences: the border is
    zero and every interior cell holds the value the code computes for it
    from its three neighbours. *)
Definition sw_matrix (query reference : gostring) (M : matrix) : Prop :=
  dims (length query) (length reference) M ∧
  (∀ a b, a ≤ length query → b ≤ length reference → a = 0 ∨ b = 0 →
     cell M a b = Some 0%Z) ∧
  (∀ a b, 1 ≤ a ≤ length query → 1 ≤ b ≤ length reference →
     ∃ v, cell_score query reference M a b = Some v ∧ cell M a b = Some v).

(** Goals about the scan order are linear arithmetic once unfolded. *)
Ltac row_major := unfold processed, lex_lt in *; lia.

(** The invariant of the scan when it is about to write cell (i, j). *)
Definition fill_inv (query reference : gostring) (i j : nat)
    (s : fill_state) : Prop :=
  dims (length query) (length reference) (fs_matrix s) ∧
  (∀ a b, a ≤ length query → b ≤ length reference →
     ¬ processed (length reference) i j a b →
     cell (fs_matrix s) a b = Some 0%Z) ∧
  (∀ a b, processed (length reference) i j a b →
     ∃ v, cell_score query reference (fs_matrix s) a b = Some v ∧
          cell (fs_matrix s) a b = Some v) ∧
  first_max (fs_matrix s) (fs_maxScore s) (fs_maxRow s) (fs_maxCol s) ∧
  lex_lt (fs_maxRow s) (fs_maxCol s) i j.

(** The three recurrence terms of cell (row, col), as the traceback
    recomputes them. *)
Definition diag_term (M : matrix) (query reference : gostring) (row col : nat)
    : option Z :=
  qb ← query !! (row - 1);
  rb ← reference !! (col - 1);
  d ← cell M (row - 1) (col - 1);
  Some (d + match_score qb rb)%Z.

Definition up_term (M : matrix) (row col : nat) : option Z :=
  u ← cell M (row - 1) col; Some (u + GapPenalty)%Z.

Definition left_term (M : matrix) (row col : nat) : option Z :=
  l ← cell M row (col - 1); Some (l + GapPenalty)%Z.

(** ** The traceback *)

(** One column of the alignment: the symbol consumed on the query side and
    on the reference side; [None] is the side that gets the gap marker. *)
Abbreviation column := (option byte * option byte)%type.

Definition render_symbol (o : option byte) : gostring :=
  match o with Some b => string_of_byte b | None => [gap] end.

(** The aligned string of one side, left to right. *)
Definition render (side : column → option byte) (cols : list column) : gostring :=
  cols ≫= (λ c, render_symbol (side c)).

(** Where the loop of [traceback] ends: at the border, at a cell that is
    not positive, or in the safeguard branch, where none of the three
    terms gives back the value of the cell. *)
Definition tb_stops (M : matrix) (query reference : gostring) (row col : nat)
    : Prop :=
  row = 0 ∨ col = 0 ∨
  ∃ v, cell M row col = Some v ∧
    ((v ≤ 0)%Z ∨
     ∃ td tu tl,
       diag_term M query reference row col = Some td ∧
       up_term M row col = Some tu ∧
       left_term M row col = Some tl ∧
       td ≠ v ∧ tu ≠ v ∧ tl ≠ v).

(** The stop condition in the words of the specification: the value of
    the current cell is 0 or the border of the matrix is reached. *)
Definition tb_stops_spec (M : matrix) (row col : nat) : Prop :=
  row = 0 ∨ col = 0 ∨ cell M row col = Some 0%Z.

(** The walk the specification describes, for a given stop condition: at
    a positive interior cell take the first of the diagonal, up and left
    terms that equals the value of the cell and emit the pair of symbols,
    or a symbol and a gap on the side that stays.  The columns are listed
    left to right, so the column of the starting cell is the last one. *)
Inductive tb_walk (stop : nat → nat → Prop) (M : matrix)
    (query reference : gostring) : nat → nat → list column → Prop :=
  | walk_stop row col :
      stop row col → tb_walk stop M query reference row col []
  | walk_diag row col v qb rb cols :
      0 < row → 0 < col → cell M row col = Some v → (0 < v)%Z →
      query !! (row - 1) = Some qb → reference !! (col - 1) = Some rb →
      diag_term M query reference row col = Some v →
      tb_walk stop M query reference (row - 1) (col - 1) cols →
      tb_walk stop M query reference row col (cols ++ [(Some qb, Some rb)])
  | walk_up row col v qb td cols :
      0 < row → 0 < col → cell M row col = Some v → (0 < v)%Z →
      query !! (row - 1) = Some qb →
      diag_term M query reference row col = Some td → td ≠ v →
      up_term M row col = Some v →
      tb_walk stop M query reference (row - 1) col cols →
      tb_walk stop M query reference row col (cols ++ [(Some qb, None)])
  | walk_left row col v rb td tu cols :
      0 < row → 0 < col → cell M row col = Some v → (0 < v)%Z →
      reference !! (col - 1) = Some rb →
      diag_term M query reference row col = Some td → td ≠ v →
      up_term M row col = Some tu → tu ≠ v →
      left_term M row col = Some v →
      tb_walk stop M query reference row (col - 1) cols →
      tb_walk stop M query reference row col (cols ++ [(None, Some rb)]).

(** ** The traceback on any matrix *)

(** The three terms with the sums of Go, at a cell given by two integers. *)
Definition diag_term_int (M : matrix) (query reference : gostring) (row col : Z)
    : option Z :=
  qb ← query !! Z.to_nat (row - 1);
  rb ← reference !! Z.to_nat (col - 1);
  d ← cell M (Z.to_nat (row - 1)) (Z.to_nat (col - 1));
  Some (int_add d (match_score qb rb)).

Definition up_term_int (M : matrix) (row col : Z) : option Z :=
  u ← cell M (Z.to_nat (row - 1)) (Z.to_nat col); Some (int_add u GapPenalty).

Definition left_term_int (M : matrix) (row col : Z) : option Z :=
  l ← cell M (Z.to_nat row) (Z.to_nat (col - 1)); Some (int_add l GapPenalty).

(** Where the loop ends: [row] or [col] is not positive, the cell is not
    positive, or none of the three terms gives back its value. *)
Definition tb_stops_int (M : matrix) (query reference : gostring) (row col : Z)
    : Prop :=
  (row ≤ 0)%Z ∨ (col ≤ 0)%Z ∨
  ∃ v, cell M (Z.to_nat row) (Z.to_nat col) = Some v ∧
    ((v ≤ 0)%Z ∨
     ∃ td tu tl,
       diag_term_int M query reference row col = Some td ∧
       up_term_int M row col = Some tu ∧
       left_term_int M row col = Some tl ∧
       td ≠ v ∧ tu ≠ v ∧ tl ≠ v).

(** The stop condition in the words of the specification, for a starting
    cell that may lie before row 0 or column 0. *)
Definition tb_stops_spec_int (M : matrix) (row col : Z) : Prop :=
  (row ≤ 0)%Z ∨ (col ≤ 0)%Z ∨ cell M (Z.to_nat row) (Z.to_nat col) = Some 0%Z.

(** The walk of the specification with the sums of Go. *)
Inductive tb_walk_int (stop : Z → Z → Prop) (M : matrix)
    (query reference : gostring) : Z → Z → list column → Prop :=
  | walk_int_stop row col :
      stop row col → tb_walk_int stop M query reference row col []
  | walk_int_diag row col v qb rb cols :
      (0 < row)%Z → (0 < col)%Z →
      cell M (Z.to_nat row) (Z.to_nat col) = Some v → (0 < v)%Z →
      query !! Z.to_nat (row - 1) = Some qb →
      reference !! Z.to_nat (col - 1) = Some rb →
      diag_term_int M query reference row col = Some v →
      tb_walk_int stop M query reference (row - 1) (col - 1) cols →
      tb_walk_int stop M query reference row col (cols ++ [(Some qb, Some rb)])
  | walk_int_up row col v qb td cols :
      (0 < row)%Z → (0 < col)%Z →
      cell M (Z.to_nat row) (Z.to_nat col) = Some v → (0 < v)%Z →
      query !! Z.to_nat (row - 1) = Some qb →
      diag_term_int M query reference row col = Some td → td ≠ v →
      up_term_int M row col = Some v →
      tb_walk_int stop M query reference (row - 1) col cols →
      tb_walk_int stop M query reference row col (cols ++ [(Some qb, None)])
  | walk_int_left row col v rb td tu cols :
      (0 < row)%Z → (0 < col)%Z →
      cell M (Z.to_nat row) (Z.to_nat col) = Some v → (0 < v)%Z →
      reference !! Z.to_nat (col - 1) = Some rb →
      diag_term_int M query reference row col = Some td → td ≠ v →
      up_term_int M row col = Some tu → tu ≠ v →
      left_term_int M row col = Some v →
      tb_walk_int stop M query reference row (col - 1) cols →
      tb_walk_int stop M query reference row col (cols ++ [(None, Some rb)]).

(** The cells whose three sums Go computes without wrap-around: those at
    least two away from both limits of [int]. *)
Definition exact_sums (M : matrix) : Prop :=
  ∀ i j v, cell M i j = Some v → (- 2 ^ 63 + 2 ≤ v ≤ 2 ^ 63 - 3)%Z.

(** ** Aligned strings *)

#[global] Instance byte_eq_decision : EqDecision byte := Byte.byte_eq_dec.

(** [stripGaps] of the test suite: [strings.ReplaceAll(seq, "-", "")]. *)
Definition stripGaps (seq : gostring) : gostring :=
  filter (λ b, b ≠ gap) seq.

(** [x] occurs in [s] as a contiguous run ([strings.Contains]). *)
Definition substring_of (x s : gostring) : Prop :=
  ∃ pre post, s = pre ++ x ++ post.

(** A symbol that [string(b)] leaves as it is and that is not the gap
    marker: an ASCII byte other than '-'. *)
Definition plain_symbol (b : byte) : Prop :=
  (Byte.to_N b < 128)%N ∧ b ≠ gap.

Definition plain (s : gostring) : Prop := Forall plain_symbol s.

(** [string(b)] over every byte of a sequence, as the traceback emits
    the symbols it consumes. *)
Definition symbols_as_strings (s : gostring) : gostring := s ≫= string_of_byte.

Definition is_ascii (s : gostring) : Prop :=
  Forall (λ b, (Byte.to_N b < 128)%N) s.

(** ** The parallel aligner *)

(** A goroutine that is inside the body of its loop stands on a cell of
    the matrix. *)
Definition wave_task_ok (m n : nat) (t : wave_task) : Prop :=
  1 ≤ wt_i t ∧
  match wt_pc t with
  | AtLoopTest | WaveDone => True
  | _ => wt_i t ≤ m ∧ 1 ≤ wt_waveFront t - wt_i t ≤ n
  end.

(** The matrix keeps its size, its border stays zero and it holds no
    negative value, and the recorded maximum position lies inside it. *)
Definition shared_ok (m n : nat) (s : par_state) : Prop :=
  dims m n (ps_matrix s) ∧
  (∀ i j v, cell (ps_matrix s) i j = Some v →
     (0 ≤ v)%Z ∧ (i = 0 ∨ j = 0 → v = 0%Z)) ∧
  ps_maxRow s ≤ m ∧ ps_maxCol s ≤ n.

Definition par_inv (m n : nat) (s : par_state) : Prop :=
  shared_ok m n s ∧ Forall (wave_task_ok m n) (ps_tasks s).

(** A cell is at most twice the smaller of its two indices. *)
Definition cells_bounded (M : matrix) : Prop :=
  ∀ i j v, cell M i j = Some v → (v ≤ 2 * Z.of_nat (i `min` j))%Z.

(** So are the sums a goroutine has computed for its cell. *)
Definition locals_bounded (t : wave_task) : Prop :=
  let bound := (2 * Z.of_nat (wt_i t `min` (wt_waveFront t - wt_i t)))%Z in
  match wt_pc t with
  | AtScoreDiag match_ => (match_ ≤ MatchScore)%Z
  | AtScoreUp scoreDiag => (scoreDiag ≤ bound)%Z
  | AtScoreLeft scoreDiag scoreUp => (scoreDiag ≤ bound)%Z ∧ (scoreUp ≤ bound)%Z
  | AtStore scoreDiag scoreUp scoreLeft =>
      (scoreDiag ≤ bound)%Z ∧ (scoreUp ≤ bound)%Z ∧ (scoreLeft ≤ bound)%Z
  | _ => True
  end.

Definition bounded_inv (m n : nat) (s : par_state) : Prop :=
  par_inv m n s ∧ cells_bounded (ps_matrix s) ∧
  Forall locals_bounded (ps_tasks s).

(** A bound on the number of actions a wave goroutine has left: seven for
    each iteration still to come, and what remains of the current one. *)
Definition wave_left (m : nat) (t : wave_task) : nat :=
  match wt_pc t with
  | AtLoopTest => 7 + 7 * (m + 1 - wt_i t)
  | AtScoreDiag _ => 6 + 7 * (m + 1 - wt_i t)
  | AtScoreUp _ => 5 + 7 * (m + 1 - wt_i t)
  | AtScoreLeft _ _ => 4 + 7 * (m + 1 - wt_i t)
  | AtStore _ _ _ => 3 + 7 * (m + 1 - wt_i t)
  | AtTrack => 2 + 7 * (m + 1 - wt_i t)
  | WaveDone => 0
  end.

(** A bound on the number of actions between a state and the return of
    [wg.Wait()]. *)
Definition par_measure (m n : nat) (s : par_state) : nat :=
  (m + n + 1 - ps_wave s) * (7 * m + 8) + sum_list (wave_left m <$> ps_tasks s).

(** The number of actions the goroutine of [wave] takes from its start to
    its end: six for each cell of its diagonal, one for each [continue],
    one for the loop test that fails. *)
Definition wave_actions (m n wave : nat) : nat :=
  S (sum_list ((λ i, if bool_decide (n < wave - i) then 1 else 6)
                 <$> seq 1 (m `min` (wave - 1)))).

(** The schedule that first runs the whole dispatch loop and then lets the
    goroutines run to their end one after the other, in the given order. *)
Definition run_to_end (m n : nat) (order : list nat) : list par_event :=
  replicate (m + n - 1) Dispatch ++
  (order ≫= λ k, replicate (wave_actions m n (k + 2)) (Wave k)).

(** ** The batch aligner *)

(** The tokens a goroutine holds in the semaphore, its share of the
    WaitGroup counter, and the number of actions it still has to take. *)
Definition holds_token (t : batch_task) : nat :=
  match bt_pc t with AtAlign | AtRelease => 1 | _ => 0 end.

Definition counted (t : batch_task) : nat :=
  match bt_pc t with BatchDone => 0 | _ => 1 end.

Definition actions_left (t : batch_task) : nat :=
  match bt_pc t with
  | AtAlign => 3 | AtRelease => 2 | AtWgDone => 1 | BatchDone => 0
  end.

(** The number of actions between a state and the end of the call. *)
Definition batch_measure (references : list gostring) (s : batch_state) : nat :=
  4 * (length references - bs_next s) + sum_list (actions_left <$> bs_tasks s).

(** The goroutine started [k]-th works on reference [k] and, once past
    its alignment, has stored the sequential result in slot [k]; the
    semaphore and the WaitGroup count the goroutines they should. *)
Definition batch_inv (query : gostring) (references : list gostring)
    (s : batch_state) : Prop :=
  length (bs_results s) = length references ∧
  length (bs_tasks s) = bs_next s ∧
  bs_next s ≤ length references ∧
  (∀ k t, bs_tasks s !! k = Some t →
     bt_index t = k ∧ references !! k = Some (bt_reference t) ∧
     (bt_pc t ≠ AtAlign →
      bs_results s !! k = SmithWaterman query (bt_reference t))) ∧
  bs_semaphore s = sum_list (holds_token <$> bs_tasks s) ∧
  bs_wg s = sum_list (counted <$> bs_tasks s).

#[global] Instance batch_pc_eq_decision : EqDecision batch_pc.
Proof. solve_decision. Defined.

(** * The code around the engine

    The helpers of the test suite and of the benchmark, the sequence
    utilities of package [data] and the helpers of the visualisation
    command. *)

(** ** Helpers of the tests *)

(** The loop of [isValidAlignment], from index [i] with [count] iterations
    to go. *)
Fixpoint isValidAlignment_loop (query reference : gostring) (i count : nat)
    : option bool :=
  match count with
  | O => Some true
  | S k =>
      qb ← query !! i;
      if Byte.eqb qb gap then
        rb ← reference !! i;
        if Byte.eqb rb gap then Some false
        else isValidAlignment_loop query reference (S i) k
      else isValidAlignment_loop query reference (S i) k
  end.

Definition isValidAlignment (query reference : gostring) : option bool :=
  if bool_decide (length query ≠ length reference) then Some false
  else isValidAlignment_loop query reference 0 (length query).

(** [calculateAlignmentScore] of the benchmark tests.  [reference[i]] is
    read only when [query[i]] is not the gap marker. *)
Definition calculateAlignmentScore (query reference : gostring) : option Z :=
  for_loop (λ i score,
    qb ← query !! i;
    if Byte.eqb qb gap then Some (score + GapPenalty)%Z
    else
      rb ← reference !! i;
      if Byte.eqb rb gap then Some (score + GapPenalty)%Z
      else if Byte.eqb qb rb then Some (score + MatchScore)%Z
      else Some (score + MismatchScore)%Z)
    0 (length query) 0%Z.

Definition areAlignmentsEquivalent (query1 ref1 query2 ref2 : gostring)
    : option bool :=
  if bool_decide (query1 = query2) && bool_decide (ref1 = ref2) then Some true
  else if bool_decide (length query1 ≠ length query2)
          || bool_decide (length ref1 ≠ length ref2) then Some false
  else
    score1 ← calculateAlignmentScore query1 ref1;
    score2 ← calculateAlignmentScore query2 ref2;
    Some (bool_decide (score1 = score2)).

(** [generateRandomDNA] of the benchmark tests: [make([]byte, length)]
    panics on a negative length. *)
Definition generateRandomDNA (length_ : Z) : option gostring :=
  let bases : list byte := ["A"; "C"; "G"; "T"]%byte in
  if bool_decide (length_ < 0)%Z then None
  else
    for_loop (λ i sequence,
      b ← bases !! (i `mod` 4);
      if decide (i < length sequence) then Some (<[i := b]> sequence) else None)
      0 (Z.to_nat length_) (replicate (Z.to_nat length_) "000"%byte).

(** ** Sequence utilities (package [data]) *)

(** [len(s)] as a Go [int]. *)
Definition len (s : gostring) : Z := Z.of_nat (length s).

(** [s[lo:hi]]: panics unless [0 <= lo <= hi <= len(s)]. *)
Definition slice (s : gostring) (lo hi : Z) : option gostring :=
  if bool_decide (0 ≤ lo ∧ lo ≤ hi ∧ hi ≤ len s)%Z
  then Some (drop (Z.to_nat lo) (take (Z.to_nat hi) s))
  else None.

Definition CreateInsertion (original : gostring) (position : Z)
    (inserted : gostring) : option gostring :=
  if bool_decide (position < 0)%Z || bool_decide (len original < position)%Z
  then Some original
  else
    head ← slice original 0 position;
    tail ← slice original position (len original);
    Some (head ++ inserted ++ tail).

Definition CreateDeletion (original : gostring) (position length_ : Z)
    : option gostring :=
  if bool_decide (position < 0)%Z || bool_decide (len original ≤ position)%Z
  then Some original
  else
    let length_ :=
      if bool_decide (len original < int_add position length_)%Z
      then (len original - position)%Z else length_ in
    head ← slice original 0 position;
    tail ← slice original (int_add position length_) (len original);
    Some (head ++ tail).

(** ** Generated and consensus sequences (package [data]) *)

(** A rune is a code point, a Go [int32].  [bases] is the package
    variable [[]rune{'A', 'T', 'C', 'G'}]. *)
Definition bases : list Z := [65; 84; 67; 71]%Z.

Definition byte_of_Z (z : Z) : byte := byte_of_N (Z.to_N z).

(** [rune(b)] for a byte [b]. *)
Definition rune_of_byte (b : byte) : Z := Z.of_N (Byte.to_N b).

(** The UTF-8 encoding of a rune, as [string(r)], [string(runes)] and
    [WriteRune] produce it: a rune that is no valid code point is encoded
    as U+FFFD. *)
Definition utf8_of_rune (r : Z) : gostring :=
  if bool_decide (r < 0 ∨ 1114111 < r ∨ 55296 ≤ r ≤ 57343)%Z then
    ["239"; "191"; "189"]%byte
  else if bool_decide (r < 128)%Z then [byte_of_Z r]
  else if bool_decide (r < 2048)%Z then
    [byte_of_Z (192 + r / 64); byte_of_Z (128 + r `mod` 64)]
  else if bool_decide (r < 65536)%Z then
    [byte_of_Z (224 + r / 4096); byte_of_Z (128 + r / 64 `mod` 64);
     byte_of_Z (128 + r `mod` 64)]
  else
    [byte_of_Z (240 + r / 262144); byte_of_Z (128 + r / 4096 `mod` 64);
     byte_of_Z (128 + r / 64 `mod` 64); byte_of_Z (128 + r `mod` 64)].

(** [GenerateDNASequence].  [intn k] is what the [k]-th call of
    [globalRand.Intn(len(bases))] returns and [calls] the number of calls
    made before; the function returns the sequence and the new number. *)
Definition GenerateDNASequence (intn : nat → Z) (calls : nat) (length_ : Z)
    : option (gostring * nat) :=
  if bool_decide (length_ < 0)%Z then None
  else
    st ← for_loop (λ i (st : list Z * nat),
            let r := intn st.2 in
            base ← (if bool_decide (0 ≤ r)%Z then bases !! Z.to_nat r else None);
            if decide (i < length st.1)
            then Some (<[i := base]> st.1, S st.2) else None)
          0 (Z.to_nat length_) (replicate (Z.to_nat length_) 0%Z, calls);
    Some (st.1 ≫= utf8_of_rune, st.2).

(** The inner loop of [GenerateConsensusSequence] that counts the bases
    at position [i]. *)
Fixpoint count_bases (sequences : list gostring) (i : nat) (counts : gmap Z Z)
    : option (gmap Z Z) :=
  match sequences with
  | [] => Some counts
  | seq :: rest =>
      b ← seq !! i;
      let base := rune_of_byte b in
      count_bases rest i (<[base := (default 0 (counts !! base) + 1)%Z]> counts)
  end.

(** The loop that looks for the most common base, over the entries of the
    map in the order the [range] statement yields them. *)
Definition most_common (entries : list (Z * Z)) : Z * Z :=
  fold_left (λ (acc : Z * Z) (entry : Z * Z),
    if bool_decide (acc.2 < entry.2)%Z then entry else acc) entries (0, 0)%Z.

(** [GenerateConsensusSequence].  The order in which [range] yields the
    entries of a map is not specified: [range_order i counts] is the order
    taken at position [i]. *)
Definition GenerateConsensusSequence
    (range_order : nat → gmap Z Z → list (Z * Z)) (sequences : list gostring)
    : option gostring :=
  match sequences with
  | [] => Some []
  | first :: _ =>
      let minLength :=
        fold_left (λ minLength seq,
          if bool_decide (length seq < minLength) then length seq else minLength)
          sequences (length first) in
      for_loop (λ i consensus,
        counts ← count_bases sequences i ∅;
        let mostCommonBase := (most_common (range_order i counts)).1 in
        Some (consensus ++ utf8_of_rune mostCommonBase))
        0 minLength []
  end.

(** ** Helpers of the visualisation command *)

(** [s[i] = c] as a statement on a byte slice. *)
Definition set_byte (s : list byte) (i : nat) (c : byte) : option (list byte) :=
  if decide (i < length s) then Some (<[i := c]> s) else None.

(** [generateMatchLine]: the loop stops at the end of the shorter string,
    the line has the length of the first. *)
Definition generateMatchLine (seq1 seq2 : gostring) : option gostring :=
  for_loop (λ i matchLine,
    b1 ← seq1 !! i;
    if Byte.eqb b1 gap then set_byte matchLine i " "%byte
    else
      b2 ← seq2 !! i;
      if Byte.eqb b2 gap then set_byte matchLine i " "%byte
      else if Byte.eqb b1 b2 then set_byte matchLine i "|"%byte
      else set_byte matchLine i "."%byte)
    0 (length seq1 `min` length seq2) (replicate (length seq1) "000"%byte).

(** The three values the field [Type] of a [Mutation] takes: the strings
    "deletion", "insertion" and "snp". *)
Inductive mutation_type : Type :=
  | deletion
  | insertion
  | snp.

Record Mutation := {
  Type_ : mutation_type;
  Position : nat;
  Length : nat;
  Original : gostring;
  Mutated : gostring
}.

(** The variables of the loop of [detectMutations]; [currentMutation] is
    a pointer to a copy of the mutation started last, or nil. *)
Record detect_state := {
  ds_mutations : list Mutation;
  ds_queryPos : nat;
  ds_refPos : nat;
  ds_currentMutation : option Mutation
}.

(** [currentMutation == nil || currentMutation.Type != t]. *)
Definition starts_new (currentMutation : option Mutation) (t : mutation_type)
    : bool :=
  match currentMutation with
  | None => true
  | Some m =>
      match Type_ m, t with
      | deletion, deletion | insertion, insertion | snp, snp => false
      | _, _ => true
      end
  end.

(** One iteration of the loop of [detectMutations]. *)
Definition detect_step (alignedQuery alignedRef : gostring) (i : nat)
    (s : detect_state) : option detect_state :=
  qb ← alignedQuery !! i;
  if Byte.eqb qb gap then
    rb ← alignedRef !! i;
    if starts_new (ds_currentMutation s) deletion then
      let m := {| Type_ := deletion; Position := ds_refPos s; Length := 1;
                  Original := string_of_byte rb; Mutated := [gap] |} in
      Some {| ds_mutations := ds_mutations s ++ [m];
              ds_queryPos := ds_queryPos s; ds_refPos := S (ds_refPos s);
              ds_currentMutation := Some m |}
    else
      let lastIdx := length (ds_mutations s) - 1 in
      last ← ds_mutations s !! lastIdx;
      Some {| ds_mutations :=
                <[lastIdx := {| Type_ := Type_ last; Position := Position last;
                                Length := S (Length last);
                                Original := Original last ++ string_of_byte rb;
                                Mutated := Mutated last |}]> (ds_mutations s);
              ds_queryPos := ds_queryPos s; ds_refPos := S (ds_refPos s);
              ds_currentMutation := ds_currentMutation s |}
  else
    rb ← alignedRef !! i;
    if Byte.eqb rb gap then
      if starts_new (ds_currentMutation s) insertion then
        let m := {| Type_ := insertion; Position := ds_queryPos s; Length := 1;
                    Original := [gap]; Mutated := string_of_byte qb |} in
        Some {| ds_mutations := ds_mutations s ++ [m];
                ds_queryPos := S (ds_queryPos s); ds_refPos := ds_refPos s;
                ds_currentMutation := Some m |}
      else
        let lastIdx := length (ds_mutations s) - 1 in
        last ← ds_mutations s !! lastIdx;
        Some {| ds_mutations :=
                  <[lastIdx := {| Type_ := Type_ last; Position := Position last;
                                  Length := S (Length last);
                                  Original := Original last;
                                  Mutated := Mutated last ++ string_of_byte qb |}]>
                    (ds_mutations s);
                ds_queryPos := S (ds_queryPos s); ds_refPos := ds_refPos s;
                ds_currentMutation := ds_currentMutation s |}
    else if negb (Byte.eqb qb rb) then
      Some {| ds_mutations := ds_mutations s ++
                [{| Type_ := snp; Position := ds_queryPos s; Length := 1;
                    Original := string_of_byte rb;
                    Mutated := string_of_byte qb |}];
              ds_queryPos := S (ds_queryPos s); ds_refPos := S (ds_refPos s);
              ds_currentMutation := None |}
    else
      Some {| ds_mutations := ds_mutations s;
              ds_queryPos := S (ds_queryPos s); ds_refPos := S (ds_refPos s);
              ds_currentMutation := None |}.

Definition detectMutations (alignedQuery alignedRef : gostring)
    : option (list Mutation) :=
  s ← for_loop (detect_step alignedQuery alignedRef) 0
        (length alignedQuery `min` length alignedRef)
        {| ds_mutations := []; ds_queryPos := 0; ds_refPos := 0;
           ds_currentMutation := None |};
  Some (ds_mutations s).

(** * Vocabulary of the properties of the code around the engine, and
    of the further properties of the engine *)

(** ** Alignments and their scores *)

Definition sum_Z (l : list Z) : Z := foldr Z.add 0%Z l.

(** The score of one column of an alignment. *)
Definition column_score (c : column) : Z :=
  match c with
  | (Some a, Some b) => match_score a b
  | _ => GapPenalty
  end.

Definition columns_score (cols : list column) : Z :=
  sum_Z (column_score <$> cols).

(** What [calculateAlignmentScore] adds for one pair of bytes. *)
Definition pair_score (qb rb : byte) : Z :=
  if Byte.eqb qb gap || Byte.eqb rb gap then GapPenalty
  else if Byte.eqb qb rb then MatchScore else MismatchScore.

(** The side of a column a byte of an aligned string stands for. *)
Definition symbol_of (b : byte) : option byte :=
  if decide (b = gap) then None else Some b.

Arguments symbol_of : simpl never.

(** The columns of two aligned strings. *)
Definition columns_of (alignedQuery alignedRef : gostring) : list column :=
  zip_with (λ a b, (symbol_of a, symbol_of b)) alignedQuery alignedRef.

(** The values of a Go [int]. *)
Definition is_int (z : Z) : Prop := (- 2 ^ 63 ≤ z < 2 ^ 63)%Z.

(** ** The match line and the mutation list *)

#[global] Instance mutation_type_eq_decision : EqDecision mutation_type.
Proof. solve_decision. Defined.

(** The symbol of the match line for one column. *)
Definition match_symbol (b1 b2 : byte) : byte :=
  if Byte.eqb b1 gap || Byte.eqb b2 gap then " "%byte
  else if Byte.eqb b1 b2 then "|"%byte else "."%byte.

(** The number of occurrences of a byte. *)
Definition count_byte (c : byte) (s : gostring) : nat :=
  length (filter (λ b, b = c) s).

(** The columns the mutations of a list cover, by kind. *)
Definition gap_columns (ms : list Mutation) : nat :=
  sum_list ((λ m, match Type_ m with snp => 0 | _ => Length m end) <$> ms).

Definition snp_columns (ms : list Mutation) : nat :=
  sum_list ((λ m, match Type_ m with snp => Length m | _ => 0 end) <$> ms).

(** The invariant of the loop of [detectMutations] after [k] columns
    against the first [k] symbols of the match line. *)
Definition detect_inv (line : gostring) (s : detect_state) : Prop :=
  gap_columns (ds_mutations s) = count_byte " " line ∧
  snp_columns (ds_mutations s) = count_byte "." line ∧
  Forall (λ m, 1 ≤ Length m ∧ (Type_ m = snp → Length m = 1)) (ds_mutations s) ∧
  (∀ m, ds_currentMutation s = Some m →
     Type_ m ≠ snp ∧
     ∃ ms last, ds_mutations s = ms ++ [last] ∧ Type_ last = Type_ m).

(** What a mutation says about the two sequences without their gap
    markers: a deletion names the run of the reference that the query
    lacks, an insertion the run of the query that the reference lacks, a
    SNP the symbol of the query and a symbol of the reference that
    differs from it. *)
Definition locates (query reference : gostring) (m : Mutation) : Prop :=
  match Type_ m with
  | deletion =>
      Mutated m = [gap] ∧
      Original m
      = symbols_as_strings (take (Length m) (drop (Position m) reference)) ∧
      Position m + Length m ≤ length reference
  | insertion =>
      Original m = [gap] ∧
      Mutated m
      = symbols_as_strings (take (Length m) (drop (Position m) query)) ∧
      Position m + Length m ≤ length query
  | snp =>
      Length m = 1 ∧
      (∃ qb, query !! Position m = Some qb ∧ Mutated m = string_of_byte qb ∧
             ∃ rb, rb ∈ reference ∧ rb ≠ qb ∧ Original m = string_of_byte rb)
  end.

(** The invariant of the loop of [detectMutations] against the symbols
    consumed so far on each side. *)
Definition locate_inv (query reference : gostring) (s : detect_state) : Prop :=
  ds_queryPos s = length query ∧
  ds_refPos s = length reference ∧
  Forall (locates query reference) (ds_mutations s) ∧
  (∀ c, ds_currentMutation s = Some c →
     ∃ ms last, ds_mutations s = ms ++ [last] ∧ Type_ last = Type_ c ∧
       match Type_ c with
       | deletion => Position last + Length last = length reference
       | insertion => Position last + Length last = length query
       | snp => False
       end).

(** ** Consensus *)

(** The number of sequences that have byte [b] at position [i]. *)
Definition occurrences (sequences : list gostring) (i : nat) (b : byte) : nat :=
  length (filter (λ seq, seq !! i = Some b) sequences).

(** [range] yields every entry of the map once. *)
Definition yields_entries (range_order : nat → gmap Z Z → list (Z * Z)) : Prop :=
  ∀ i counts, range_order i counts ≡ₚ map_to_list counts.

(** ** The maximum the wave goroutines track *)

(** The goroutine started [k]-th is that of wave [k + 2]; the recorded
    maximum is the value of the cell at the recorded position, which its
    goroutine has left behind; and every cell is at most the recorded
    maximum, except for a cell that is stored and not yet compared. *)
Definition max_inv (s : par_state) : Prop :=
  length (ps_tasks s) + 2 = ps_wave s ∧
  (∀ k t, ps_tasks s !! k = Some t → wt_waveFront t = k + 2) ∧
  (0 ≤ ps_maxScore s)%Z ∧
  (∀ i j v, cell (ps_matrix s) i j = Some v →
     (v ≤ ps_maxScore s)%Z ∨
     ∃ t, ps_tasks s !! (i + j - 2) = Some t ∧ 1 ≤ j ∧
          wt_i t = i ∧ wt_pc t = AtTrack) ∧
  cell (ps_matrix s) (ps_maxRow s) (ps_maxCol s) = Some (ps_maxScore s) ∧
  ((ps_maxRow s = 0 ∧ ps_maxCol s = 0) ∨
   ∃ t, ps_tasks s !! (ps_maxRow s + ps_maxCol s - 2) = Some t ∧
        1 ≤ ps_maxCol s ∧ ps_maxRow s < wt_i t).

(** ** The waves one after the other *)

(** The goroutine of cell (i, j) has stored the cell. *)
Definition stored (s : par_state) (i j : nat) : Prop :=
  ∃ t, ps_tasks s !! (i + j - 2) = Some t ∧
       (i < wt_i t ∨ (i = wt_i t ∧ wt_pc t = AtTrack)).

(** The locals of a goroutine are the terms of its cell in the matrix as
    it is now. *)
Definition locals_ok (query reference : gostring) (M : matrix) (t : wave_task)
    : Prop :=
  let i := wt_i t in
  let j := wt_waveFront t - wt_i t in
  match wt_pc t with
  | AtScoreDiag match_ =>
      ∃ qb rb, query !! (i - 1) = Some qb ∧ reference !! (j - 1) = Some rb ∧
               match_ = match_score qb rb
  | AtScoreUp scoreDiag => diag_term M query reference i j = Some scoreDiag
  | AtScoreLeft scoreDiag scoreUp =>
      diag_term M query reference i j = Some scoreDiag ∧
      up_term M i j = Some scoreUp
  | AtStore scoreDiag scoreUp scoreLeft =>
      diag_term M query reference i j = Some scoreDiag ∧
      up_term M i j = Some scoreUp ∧
      left_term M i j = Some scoreLeft
  | _ => True
  end.

(** The invariant of the executions in which a goroutine is started only
    when the one before has ended: only the goroutine started last may
    still run, and every cell stored so far holds the value of the
    recurrence. *)
Definition wave_order_inv (query reference : gostring) (s : par_state) : Prop :=
  (∀ k t, ps_tasks s !! k = Some t →
     (S k < length (ps_tasks s) → wt_pc t = WaveDone) ∧
     (wt_pc t = WaveDone →
      length query < wt_i t ∨ wt_waveFront t ≤ wt_i t) ∧
     (S k = length (ps_tasks s) →
      locals_ok query reference (ps_matrix s) t)) ∧
  (∀ i j, 1 ≤ i ≤ length query → 1 ≤ j ≤ length reference → stored s i j →
     ∃ v, cell_score query reference (ps_matrix s) i j = Some v ∧
          cell (ps_matrix s) i j = Some v).

(** * Properties and proofs *)

(** ** The four scenarios of the specification *)

Example scenario_perfect_match :
  MaxScore <$> SmithWaterman GATTACA GATTACA = Some 14%Z.
Proof. reflexivity. Qed.

Example scenario_one_mismatch :
  MaxScore <$> SmithWaterman GATTACA ["G"; "A"; "T"; "T"; "T"; "C"; "A"]%byte
  = Some 11%Z.
Proof. reflexivity. Qed.

Example scenario_one_gap :
  (λ r, (MaxScore r, AlignedQuery r, AlignedRef r))
    <$> SmithWaterman GATTACA GATACA
  = Some (10%Z, GATTACA, ["G"; "A"; "-"; "T"; "A"; "C"; "A"]%byte).
Proof. reflexivity. Qed.

Example scenario_local_alignment :
  (λ r, (MaxScore r, stripGaps (AlignedRef r)))
    <$> SmithWaterman GATTACA
          (replicate 6 "X" ++ GATTACA ++ replicate 6 "Y")%byte
  = Some (14%Z, GATTACA).
Proof. vm_compute. reflexivity. Qed.

(** ** Facts on the primitives *)

Lemma dims_row m n (M : matrix) i row :
  dims m n M → M !! i = Some row → length row = n + 1.
Proof.
  intros [_ Hrows] Hi. rewrite Forall_lookup in Hrows. by eapply Hrows.
Qed.

Lemma cell_is_Some m n (M : matrix) i j :
  dims m n M → i ≤ m → j ≤ n → is_Some (cell M i j).
Proof.
  intros HM Hi Hj. unfold cell.
  destruct (lookup_lt_is_Some_2 M i) as [row Hrow]; [destruct HM; lia|].
  rewrite Hrow. simpl. apply lookup_lt_is_Some_2.
  rewrite (dims_row _ _ _ _ _ HM Hrow). lia.
Qed.

Lemma cell_Some_inv m n (M : matrix) i j v :
  dims m n M → cell M i j = Some v → i ≤ m ∧ j ≤ n.
Proof.
  intros HM. unfold cell. destruct (M !! i) as [row|] eqn:Hrow; [|done].
  simpl. intros Hj.
  pose proof (dims_row _ _ _ _ _ HM Hrow) as Hlen.
  apply lookup_lt_Some in Hrow, Hj. destruct HM. lia.
Qed.

Lemma set_cell_is_Some m n (M : matrix) i j v :
  dims m n M → i ≤ m → j ≤ n → is_Some (set_cell M i j v).
Proof.
  intros HM Hi Hj. unfold set_cell.
  destruct (lookup_lt_is_Some_2 M i) as [row Hrow]; [destruct HM; lia|].
  rewrite Hrow. simpl. rewrite (dims_row _ _ _ _ _ HM Hrow).
  case_decide; [eauto|lia].
Qed.

Lemma set_cell_dims m n (M M' : matrix) i j v :
  dims m n M → set_cell M i j v = Some M' → dims m n M'.
Proof.
  intros HM. unfold set_cell. destruct (M !! i) as [row|] eqn:Hrow; [|done].
  simpl. case_decide; [|done]. intros [= <-].
  pose proof (dims_row _ _ _ _ _ HM Hrow) as Hlen.
  destruct HM as [HlenM Hrows]. split.
  - by rewrite length_insert.
  - rewrite Forall_lookup in Hrows. apply Forall_lookup. intros k r Hk.
    destruct (decide (k = i)) as [->|Hne].
    + rewrite list_lookup_insert_eq in Hk by (by eapply lookup_lt_Some).
      injection Hk as <-. by rewrite length_insert.
    + rewrite list_lookup_insert_ne in Hk by done. by eapply Hrows.
Qed.

Lemma cell_set_cell_eq (M M' : matrix) i j v :
  set_cell M i j v = Some M' → cell M' i j = Some v.
Proof.
  unfold set_cell, cell. destruct (M !! i) as [row|] eqn:Hrow; [|done].
  simpl. case_decide; [|done]. intros [= <-].
  rewrite list_lookup_insert_eq by (by eapply lookup_lt_Some).
  simpl. by rewrite list_lookup_insert_eq.
Qed.

Lemma cell_set_cell_ne (M M' : matrix) i j v a b :
  set_cell M i j v = Some M' → (a, b) ≠ (i, j) → cell M' a b = cell M a b.
Proof.
  unfold set_cell, cell. destruct (M !! i) as [row|] eqn:Hrow; [|done].
  simpl. case_decide; [|done]. intros [= <-] Hne.
  destruct (decide (a = i)) as [->|Hai].
  - rewrite list_lookup_insert_eq by (by eapply lookup_lt_Some).
    rewrite Hrow. simpl. rewrite list_lookup_insert_ne; [done|congruence].
  - by rewrite list_lookup_insert_ne.
Qed.

Lemma make_matrix_dims m n : dims m n (make_matrix m n).
Proof.
  split.
  - unfold make_matrix. by rewrite length_replicate.
  - apply Forall_forall. intros row Hrow.
    apply elem_of_replicate in Hrow as [-> _]. by rewrite length_replicate.
Qed.

Lemma cell_make_matrix m n i j :
  i ≤ m → j ≤ n → cell (make_matrix m n) i j = Some 0%Z.
Proof.
  intros Hi Hj. unfold cell, make_matrix.
  rewrite lookup_replicate_2 by lia. simpl. by rewrite lookup_replicate_2 by lia.
Qed.

(** [smithMax(0, a, b, c)] is the largest of its four arguments. *)
Lemma smithMax_four (a b c : Z) :
  smithMax [0%Z; a; b; c] = Some (Z.max (Z.max (Z.max 0 a) b) c).
Proof.
  unfold smithMax. cbn [fold_left]. f_equal.
  destruct (Z.gtb_spec a 0);
    match goal with |- context [(b >? ?y)%Z] => destruct (Z.gtb_spec b y) end;
    match goal with |- context [(c >? ?y)%Z] => destruct (Z.gtb_spec c y) end;
    lia.
Qed.

(** The loop rule for [for_loop]: an invariant kept by every iteration
    holds at the end, and the loop does not panic. *)
Lemma for_loop_inv {St : Type} (P : nat → St → Prop)
    (body : nat → St → option St) lo count s :
  P lo s →
  (∀ k t, lo ≤ k < lo + count → P k t →
     ∃ t', body k t = Some t' ∧ P (S k) t') →
  ∃ s', for_loop body lo count s = Some s' ∧ P (lo + count) s'.
Proof.
  revert lo s. induction count as [|count IH]; intros lo s Hs Hbody.
  - exists s. rewrite Nat.add_0_r. done.
  - destruct (Hbody lo s) as (t & Ht & HPt); [lia|done|].
    destruct (IH (S lo) t) as (s' & Hs' & HP'); [done| |].
    + intros k u Hk. apply Hbody. lia.
    + exists s'. simpl. rewrite Ht. simpl. split; [done|].
      by replace (lo + S count) with (S lo + count) by lia.
Qed.

(** ** The fill loop establishes the recurrence and the first maximum *)

Section sequential_fill.
Context (query reference : gostring).
Abbreviation m := (length query).
Abbreviation n := (length reference).

Lemma cell_score_ext (M M' : matrix) i j :
  cell M' (i - 1) (j - 1) = cell M (i - 1) (j - 1) →
  cell M' (i - 1) j = cell M (i - 1) j →
  cell M' i (j - 1) = cell M i (j - 1) →
  cell_score query reference M' i j = cell_score query reference M i j.
Proof. unfold cell_score. by intros -> -> ->. Qed.

Lemma cell_score_is_Some (M : matrix) i j :
  dims m n M → 1 ≤ i ≤ m → 1 ≤ j ≤ n →
  is_Some (cell_score query reference M i j).
Proof.
  intros HM Hi Hj. unfold cell_score.
  destruct (lookup_lt_is_Some_2 query (i - 1)) as [qb ->]; [lia|].
  destruct (lookup_lt_is_Some_2 reference (j - 1)) as [rb ->]; [lia|].
  destruct (cell_is_Some _ _ M (i - 1) (j - 1) HM) as [d ->]; [lia..|].
  destruct (cell_is_Some _ _ M (i - 1) j HM) as [u ->]; [lia..|].
  destruct (cell_is_Some _ _ M i (j - 1) HM) as [l ->]; [lia..|].
  simpl. rewrite smithMax_four. eauto.
Qed.

Lemma fill_cell_inv i j s :
  1 ≤ i ≤ m → 1 ≤ j ≤ n → fill_inv query reference i j s →
  ∃ s', fill_cell query reference i j s = Some s' ∧
        fill_inv query reference i (S j) s'.
Proof.
  intros Hi Hj (HM & Hzero & Hrec & (Hmc & Hmall & Hmfirst) & Hmpos).
  destruct (cell_score_is_Some _ i j HM Hi Hj) as [v Hv].
  destruct (set_cell_is_Some _ _ (fs_matrix s) i j v HM) as [M' HM'];
    [lia..|].
  pose proof (cell_set_cell_eq _ _ _ _ _ HM') as Hnew.
  pose proof (set_cell_dims _ _ _ _ _ _ _ HM HM') as Hdims.
  assert (∀ a b, (a, b) ≠ (i, j) → cell M' a b = cell (fs_matrix s) a b)
    as Hframe by (intros; by eapply cell_set_cell_ne).
  assert (∀ a b, lex_lt a b i j → (a, b) ≠ (i, j)) as Hbefore.
  { intros a b Hlt [= ? ?]. row_major. }
  assert (∀ a b, a ≤ m → b ≤ n → ¬ processed n i (S j) a b →
            cell M' a b = Some 0%Z) as Hzero'.
  { intros a b Ha Hb Hnp. rewrite Hframe.
    - apply Hzero; [done..|]. row_major.
    - intros [= ? ?]. row_major. }
  assert (∀ a b, processed n i (S j) a b →
            ∃ w, cell_score query reference M' a b = Some w ∧
                 cell M' a b = Some w) as Hrec'.
  { intros a b Hp.
    assert (cell_score query reference M' a b
            = cell_score query reference (fs_matrix s) a b) as ->.
    { apply cell_score_ext; apply Hframe; intros [= ? ?]; row_major. }
    destruct (decide ((a, b) = (i, j))) as [[= ? ?]|Hne]; [subst a b|].
    + exists v. by rewrite Hnew.
    + rewrite Hframe by done. apply Hrec.
      assert (a ≠ i ∨ b ≠ j) by (destruct (decide (a = i)); [right|left];
        congruence).
      row_major. }
  unfold fill_cell. rewrite Hv. simpl. rewrite HM'. simpl. rewrite Hnew. simpl.
  case_bool_decide as Hgt; eexists; (split; [done|]);
    unfold fill_inv; simpl; (split_and!; [done..| |]).
  - split_and!; [done| |].
    + intros a b w Hw.
      destruct (decide ((a, b) = (i, j))) as [[= ? ?]|Hne]; [subst a b|].
      -- rewrite Hnew in Hw. injection Hw as <-. lia.
      -- rewrite Hframe in Hw by done. apply Hmall in Hw. lia.
    + intros a b w Hw Hlt. rewrite Hframe in Hw by (by apply Hbefore).
      apply Hmall in Hw. lia.
  - row_major.
  - split_and!.
    + rewrite Hframe by (by apply Hbefore). done.
    + intros a b w Hw.
      destruct (decide ((a, b) = (i, j))) as [[= ? ?]|Hne]; [subst a b|].
      -- rewrite Hnew in Hw. injection Hw as <-. lia.
      -- rewrite Hframe in Hw by done. by eapply Hmall.
    + intros a b w Hw Hlt. rewrite Hframe in Hw.
      * by eapply Hmfirst.
      * apply Hbefore. row_major.
  - row_major.
Qed.

Lemma fill_inv_next_row i s :
  fill_inv query reference i (1 + n) s → fill_inv query reference (S i) 1 s.
Proof.
  intros (HM & Hzero & Hrec & Hmax & Hmpos). split_and!; [done| | |done|].
  - intros a b Ha Hb Hnp. apply Hzero; [done..|]. row_major.
  - intros a b Hp. apply Hrec. row_major.
  - row_major.
Qed.

Lemma fill_row_inv i s :
  1 ≤ i ≤ m → fill_inv query reference i 1 s →
  ∃ s', for_loop (fill_cell query reference i) 1 n s = Some s' ∧
        fill_inv query reference (S i) 1 s'.
Proof.
  intros Hi Hs.
  destruct (for_loop_inv (fill_inv query reference i)
              (fill_cell query reference i) 1 n s Hs)
    as (s' & Hs' & Hinv).
  - intros k t Hk Ht. apply fill_cell_inv; [done|lia|done].
  - exists s'. split; [done|]. by apply fill_inv_next_row.
Qed.

Lemma fill_inv_init :
  fill_inv query reference 1 1
    {| fs_matrix := make_matrix m n; fs_maxScore := 0;
       fs_maxRow := 0; fs_maxCol := 0 |}.
Proof.
  assert (∀ a b v, cell (make_matrix m n) a b = Some v → v = 0%Z) as Hall.
  { intros a b v Hv.
    destruct (cell_Some_inv _ _ _ _ _ _ (make_matrix_dims m n) Hv).
    rewrite cell_make_matrix in Hv by done. congruence. }
  unfold fill_inv. simpl. split_and!.
  - apply make_matrix_dims.
  - intros. by apply cell_make_matrix.
  - intros a b Hp. row_major.
  - split_and!.
    + apply cell_make_matrix; lia.
    + intros a b v Hv. apply Hall in Hv. lia.
    + intros a b v _ Hlt. row_major.
  - row_major.
Qed.

(** The fill never panics and ends with every interior cell written. *)
Lemma sw_fill_inv :
  ∃ s, sw_fill query reference = Some s ∧ fill_inv query reference (S m) 1 s.
Proof.
  destruct (for_loop_inv (λ i, fill_inv query reference i 1)
              (λ i, for_loop (fill_cell query reference i) 1 n) 1 m _
              fill_inv_init) as (s & Hs & Hinv).
  - intros k t Hk Ht. apply fill_row_inv; [lia|done].
  - exists s. split; [done|]. by replace (S m) with (1 + m) by lia.
Qed.

Lemma sw_fill_spec :
  ∃ s, sw_fill query reference = Some s ∧
       sw_matrix query reference (fs_matrix s) ∧
       first_max (fs_matrix s) (fs_maxScore s) (fs_maxRow s) (fs_maxCol s).
Proof.
  destruct sw_fill_inv as (s & Hs & HM & Hzero & Hrec & Hmax & _).
  exists s. split_and!; [done| |done]. split_and!; [done| |].
  - intros a b Ha Hb H0. apply Hzero; [done..|]. row_major.
  - intros a b Ha Hb. apply Hrec. row_major.
Qed.
End sequential_fill.

(** ** Consequences of the recurrence *)

Lemma match_score_cases a b :
  match_score a b = MatchScore ∨ match_score a b = MismatchScore.
Proof. unfold match_score. destruct (Byte.eqb a b); auto. Qed.

Lemma match_score_refl a : match_score a a = MatchScore.
Proof. unfold match_score. by rewrite (byte_dec_lb (eq_refl a)). Qed.

(** The stored value is the largest of zero and the three terms. *)
Lemma cell_score_Some query reference (M : matrix) i j v :
  cell_score query reference M i j = Some v →
  ∃ td tu tl,
    diag_term M query reference i j = Some td ∧
    up_term M i j = Some tu ∧
    left_term M i j = Some tl ∧
    v = Z.max (Z.max (Z.max 0 td) tu) tl.
Proof.
  unfold cell_score, diag_term, up_term, left_term. intros Hv.
  destruct (query !! (i - 1)) as [qb|]; [|done].
  destruct (reference !! (j - 1)) as [rb|]; [|done].
  destruct (cell M (i - 1) (j - 1)) as [d|]; [|done].
  destruct (cell M (i - 1) j) as [u|]; [|done].
  destruct (cell M i (j - 1)) as [l|]; [|done].
  simpl in *. rewrite smithMax_four in Hv. injection Hv as <-. eauto 10.
Qed.

Section recurrence_facts.
Context (query reference : gostring) (M : matrix).
Context (HM : sw_matrix query reference M).

Lemma sw_matrix_cell i j v :
  cell M i j = Some v →
  i ≤ length query ∧ j ≤ length reference ∧
  ((i = 0 ∨ j = 0) ∧ v = 0%Z ∨
   1 ≤ i ∧ 1 ≤ j ∧ cell_score query reference M i j = Some v).
Proof.
  intros Hv. destruct HM as (Hdims & Hzero & Hrec).
  destruct (cell_Some_inv _ _ _ _ _ _ Hdims Hv) as [Hi Hj].
  split_and!; [done..|].
  destruct (decide (i = 0 ∨ j = 0)) as [H0|Hpos].
  - left. split; [done|]. rewrite Hzero in Hv by done. congruence.
  - right. destruct (Hrec i j) as (w & Hw & Hc); [lia..|].
    split_and!; [lia..|]. congruence.
Qed.

(** No cell is negative. *)
Lemma sw_matrix_nonneg i j v : cell M i j = Some v → (0 ≤ v)%Z.
Proof.
  intros Hv. destruct (sw_matrix_cell _ _ _ Hv) as (_ & _ & [[_ ->]|(_ & _ & Hs)]);
    [done|].
  apply cell_score_Some in Hs as (td & tu & tl & _ & _ & _ & ->). lia.
Qed.

(** A cell is at most twice the smaller of its two indices. *)
Lemma sw_matrix_upper i j v :
  cell M i j = Some v → (v ≤ 2 * Z.of_nat (i `min` j))%Z.
Proof.
  remember (i + j) as k eqn:Hk. revert i j v Hk.
  induction (lt_wf k) as [k _ IH]. intros i j v -> Hv.
  destruct (sw_matrix_cell _ _ _ Hv) as (_ & _ & [[_ ->]|(Hi & Hj & Hs)]);
    [lia|].
  apply cell_score_Some in Hs as (td & tu & tl & Hd & Hu & Hl & ->).
  unfold diag_term, up_term, left_term in *.
  destruct (query !! (i - 1)) as [qb|]; [|done].
  destruct (reference !! (j - 1)) as [rb|]; [|done].
  destruct (cell M (i - 1) (j - 1)) as [d|] eqn:Ed; [|done].
  destruct (cell M (i - 1) j) as [u|] eqn:Eu; [|done].
  destruct (cell M i (j - 1)) as [l|] eqn:El; [|done].
  simpl in *. injection Hd as <-. injection Hu as <-. injection Hl as <-.
  apply (IH (i - 1 + (j - 1))) in Ed; [|lia|done].
  apply (IH (i - 1 + j)) in Eu; [|lia|done].
  apply (IH (i + (j - 1))) in El; [|lia|done].
  destruct (match_score_cases qb rb) as [-> | ->];
    unfold MatchScore, MismatchScore, GapPenalty; lia.
Qed.

(** A positive interior cell equals one of its three terms. *)
Lemma sw_matrix_term i j v :
  1 ≤ i → 1 ≤ j → cell M i j = Some v → (0 < v)%Z →
  diag_term M query reference i j = Some v ∨
  up_term M i j = Some v ∨
  left_term M i j = Some v.
Proof.
  intros Hi Hj Hv Hpos.
  destruct (sw_matrix_cell _ _ _ Hv) as (_ & _ & [[_ ->]|(_ & _ & Hs)]);
    [lia|].
  apply cell_score_Some in Hs as (td & tu & tl & Hd & Hu & Hl & ->).
  rewrite Hd, Hu, Hl.
  destruct (decide (td = Z.max (Z.max (Z.max 0 td) tu) tl)) as [<-|?]; [auto|].
  destruct (decide (tu = Z.max (Z.max (Z.max 0 td) tu) tl)) as [<-|?]; [auto|].
  right. right. f_equal. lia.
Qed.
End recurrence_facts.

(** ** The traceback as a backward walk *)

Lemma render_snoc side cols c :
  render side (cols ++ [c]) = render side cols ++ render_symbol (side c).
Proof. unfold render. rewrite bind_app. simpl. by rewrite app_nil_r. Qed.

Section traceback_walk.
Context (M : matrix) (query reference : gostring).

(** Every result of the loop is the rendering of a walk that ends where
    the code stops. *)
Lemma traceback_loop_walk fuel row col aq ar res :
  row + col ≤ fuel →
  traceback_loop fuel M query reference row col aq ar = Some res →
  ∃ cols, tb_walk (tb_stops M query reference) M query reference row col cols ∧
          res = (render fst cols ++ aq, render snd cols ++ ar).
Proof.
  revert row col aq ar. induction fuel as [|fuel IH]; intros row col aq ar Hf.
  - simpl. intros [= <-]. exists []. split; [|done].
    apply walk_stop. left. lia.
  - simpl. destruct (bool_decide (0 < row)) eqn:Hrow; simpl; cycle 1.
    { intros [= <-]. exists []. split; [|done]. apply walk_stop. left.
      apply bool_decide_eq_false in Hrow. lia. }
    destruct (bool_decide (0 < col)) eqn:Hcol; simpl; cycle 1.
    { intros [= <-]. exists []. split; [|done]. apply walk_stop. right. left.
      apply bool_decide_eq_false in Hcol. lia. }
    apply bool_decide_eq_true in Hrow, Hcol.
    destruct (cell M row col) as [v|] eqn:Hv; [simpl|done].
    case_bool_decide as Hpos; cycle 1.
    { intros [= <-]. exists []. split; [|done]. apply walk_stop.
      right. right. exists v. split; [done|]. left. lia. }
    destruct (query !! (row - 1)) as [qb|] eqn:Hqb; [simpl|done].
    destruct (reference !! (col - 1)) as [rb|] eqn:Hrb; [simpl|done].
    destruct (cell M (row - 1) (col - 1)) as [d|] eqn:Hd; [simpl|done].
    assert (diag_term M query reference row col = Some (d + match_score qb rb)%Z)
      as Hdt by (unfold diag_term; by rewrite Hqb, Hrb, Hd).
    case_bool_decide as Hdiag.
    { intros Hres. apply IH in Hres as (cols & Hw & ->); [|lia].
      exists (cols ++ [(Some qb, Some rb)]). split.
      - eapply walk_diag; eauto. by rewrite Hdt, Hdiag.
      - rewrite !render_snoc. simpl. by rewrite <- !app_assoc. }
    destruct (cell M (row - 1) col) as [u|] eqn:Hu; [simpl|done].
    assert (up_term M row col = Some (u + GapPenalty)%Z)
      as Hut by (unfold up_term; by rewrite Hu).
    case_bool_decide as Hup.
    { intros Hres. apply IH in Hres as (cols & Hw & ->); [|lia].
      exists (cols ++ [(Some qb, None)]). split.
      - eapply walk_up; eauto. by rewrite Hut, Hup.
      - rewrite !render_snoc. simpl. by rewrite <- !app_assoc. }
    destruct (cell M row (col - 1)) as [l|] eqn:Hl; [simpl|done].
    assert (left_term M row col = Some (l + GapPenalty)%Z)
      as Hlt by (unfold left_term; by rewrite Hl).
    case_bool_decide as Hleft.
    { intros Hres. apply IH in Hres as (cols & Hw & ->); [|lia].
      exists (cols ++ [(None, Some rb)]). split.
      - eapply walk_left; eauto. by rewrite Hlt, Hleft.
      - rewrite !render_snoc. simpl. by rewrite <- !app_assoc. }
    intros [= <-]. exists []. split; [|done]. apply walk_stop.
    right. right. exists v. split; [done|]. right.
    eexists _, _, _. split_and!; eauto.
Qed.

Lemma diag_term_Some row col td :
  diag_term M query reference row col = Some td →
  ∃ qb rb d, query !! (row - 1) = Some qb ∧ reference !! (col - 1) = Some rb ∧
             cell M (row - 1) (col - 1) = Some d ∧
             td = (d + match_score qb rb)%Z.
Proof.
  unfold diag_term. intros H.
  destruct (query !! (row - 1)) as [qb|]; [|done].
  destruct (reference !! (col - 1)) as [rb|]; [|done].
  destruct (cell M (row - 1) (col - 1)) as [d|]; [|done].
  simpl in H. injection H as <-. eauto 10.
Qed.

Lemma up_term_Some row col tu :
  up_term M row col = Some tu →
  ∃ u, cell M (row - 1) col = Some u ∧ tu = (u + GapPenalty)%Z.
Proof.
  unfold up_term. intros H. destruct (cell M (row - 1) col) as [u|]; [|done].
  simpl in H. injection H as <-. eauto.
Qed.

Lemma left_term_Some row col tl :
  left_term M row col = Some tl →
  ∃ l, cell M row (col - 1) = Some l ∧ tl = (l + GapPenalty)%Z.
Proof.
  unfold left_term. intros H. destruct (cell M row (col - 1)) as [l|]; [|done].
  simpl in H. injection H as <-. eauto.
Qed.

(** Conversely the loop follows the walk, whatever fuel above
    [row + col] it is given. *)
Lemma tb_walk_traceback_loop row col cols :
  tb_walk (tb_stops M query reference) M query reference row col cols →
  ∀ fuel aq ar, row + col ≤ fuel →
    traceback_loop fuel M query reference row col aq ar
    = Some (render fst cols ++ aq, render snd cols ++ ar).
Proof.
  induction 1 as
    [row col Hstop
    |row col v qb rb cols Hrow Hcol Hv Hpos Hqb Hrb Hdt _ IH
    |row col v qb td cols Hrow Hcol Hv Hpos Hqb Hdt Hne Hut _ IH
    |row col v rb td tu cols Hrow Hcol Hv Hpos Hrb Hdt Hne Hut Hne' Hlt _ IH];
    intros fuel aq ar Hf.
  - destruct fuel as [|fuel]; [done|]. simpl.
    destruct Hstop as [->|[->|(v & Hv & Hstop)]]; [done| |].
    { by rewrite andb_false_r. }
    destruct (bool_decide (0 < row) && bool_decide (0 < col)); [|done].
    rewrite Hv. simpl. case_bool_decide as Hpos; [|done].
    destruct Hstop as [?|(td & tu & tl & Hdt & Hut & Hlt & ? & ? & ?)]; [lia|].
    apply diag_term_Some in Hdt as (qb & rb & d & -> & -> & -> & ->).
    apply up_term_Some in Hut as (u & -> & ->).
    apply left_term_Some in Hlt as (l & -> & ->).
    simpl. by rewrite !bool_decide_eq_false_2 by done.
  - destruct fuel as [|fuel]; [lia|]. simpl.
    rewrite !bool_decide_eq_true_2 by done. simpl. rewrite Hv. simpl.
    rewrite bool_decide_eq_true_2 by done. rewrite Hqb, Hrb. simpl.
    apply diag_term_Some in Hdt as (qb' & rb' & d & Hqb' & Hrb' & -> & ->).
    simplify_eq. simpl. rewrite bool_decide_eq_true_2 by done.
    rewrite IH by lia. rewrite !render_snoc. simpl. by rewrite <- !app_assoc.
  - destruct fuel as [|fuel]; [lia|]. simpl.
    rewrite !bool_decide_eq_true_2 by done. simpl. rewrite Hv. simpl.
    rewrite bool_decide_eq_true_2 by done.
    apply diag_term_Some in Hdt as (qb' & rb' & d & Hqb' & -> & -> & ->).
    apply up_term_Some in Hut as (u & -> & ->).
    simplify_eq. rewrite Hqb. simpl. rewrite bool_decide_eq_false_2 by done.
    rewrite bool_decide_eq_true_2 by done.
    rewrite IH by lia. rewrite !render_snoc. simpl. by rewrite <- !app_assoc.
  - destruct fuel as [|fuel]; [lia|]. simpl.
    rewrite !bool_decide_eq_true_2 by done. simpl. rewrite Hv. simpl.
    rewrite bool_decide_eq_true_2 by done.
    apply diag_term_Some in Hdt as (qb' & rb' & d & -> & Hrb' & -> & ->).
    apply up_term_Some in Hut as (u & -> & ->).
    apply left_term_Some in Hlt as (l & -> & ->).
    simplify_eq. rewrite Hrb. simpl. rewrite !bool_decide_eq_false_2 by done.
    rewrite bool_decide_eq_true_2 by done.
    rewrite IH by lia. rewrite !render_snoc. simpl. by rewrite <- !app_assoc.
Qed.

(** [traceback] returns exactly the renderings of the walk from its
    starting cell. *)
Lemma traceback_walk row col aq ar :
  traceback M query reference row col = Some (aq, ar) ↔
  ∃ cols, tb_walk (tb_stops M query reference) M query reference row col cols ∧
          aq = render fst cols ∧ ar = render snd cols.
Proof.
  unfold traceback. split.
  - intros H. apply traceback_loop_walk in H as (cols & Hw & Hres); [|done].
    rewrite !app_nil_r in Hres. injection Hres as -> ->. eauto.
  - intros (cols & Hw & -> & ->).
    rewrite (tb_walk_traceback_loop _ _ _ Hw) by done. by rewrite !app_nil_r.
Qed.

(** More fuel than [row + col] changes nothing. *)
Lemma traceback_loop_fuel fuel row col aq ar :
  row + col ≤ fuel →
  is_Some (traceback_loop (row + col) M query reference row col aq ar) →
  traceback_loop fuel M query reference row col aq ar
  = traceback_loop (row + col) M query reference row col aq ar.
Proof.
  intros Hf [res Hres]. rewrite Hres.
  apply traceback_loop_walk in Hres as (cols & Hw & ->); [|done].
  by apply tb_walk_traceback_loop.
Qed.

(** On a matrix of the right size the traceback does not panic. *)
Lemma traceback_loop_is_Some fuel row col aq ar :
  dims (length query) (length reference) M →
  row ≤ length query → col ≤ length reference →
  is_Some (traceback_loop fuel M query reference row col aq ar).
Proof.
  intros HM. revert row col aq ar.
  induction fuel as [|fuel IH]; intros row col aq ar Hr Hc; [by eexists|].
  simpl. destruct (bool_decide (0 < row)) eqn:Hrow; simpl; [|by eexists].
  destruct (bool_decide (0 < col)) eqn:Hcol; simpl; [|by eexists].
  apply bool_decide_eq_true in Hrow, Hcol.
  destruct (cell_is_Some _ _ M row col HM) as [v ->]; [done..|]. simpl.
  case_bool_decide; [|by eexists].
  destruct (lookup_lt_is_Some_2 query (row - 1)) as [qb ->]; [lia|].
  destruct (lookup_lt_is_Some_2 reference (col - 1)) as [rb ->]; [lia|].
  destruct (cell_is_Some _ _ M (row - 1) (col - 1) HM) as [d ->]; [lia..|].
  destruct (cell_is_Some _ _ M (row - 1) col HM) as [u ->]; [lia..|].
  destruct (cell_is_Some _ _ M row (col - 1) HM) as [l ->]; [lia..|].
  simpl. repeat case_bool_decide; try (apply IH; lia). by eexists.
Qed.
End traceback_walk.

(** ** The sequential aligner as a whole *)

Lemma first_max_in_range m n (M : matrix) maxScore maxRow maxCol :
  dims m n M → first_max M maxScore maxRow maxCol →
  maxRow ≤ m ∧ maxCol ≤ n.
Proof. intros HM (Hc & _). by eapply cell_Some_inv. Qed.

(** [SmithWaterman] never panics; its matrix satisfies the recurrence and
    its traceback starts from the first maximum. *)
Lemma SmithWaterman_total query reference :
  ∃ s aq ar,
    sw_fill query reference = Some s ∧
    sw_matrix query reference (fs_matrix s) ∧
    first_max (fs_matrix s) (fs_maxScore s) (fs_maxRow s) (fs_maxCol s) ∧
    traceback (fs_matrix s) query reference (fs_maxRow s) (fs_maxCol s)
      = Some (aq, ar) ∧
    SmithWaterman query reference
      = Some {| ScoreMatrix := fs_matrix s; MaxScore := fs_maxScore s;
                AlignedQuery := aq; AlignedRef := ar |}.
Proof.
  destruct (sw_fill_spec query reference) as (s & Hs & HM & Hmax).
  destruct (first_max_in_range _ _ _ _ _ _ (proj1 HM) Hmax) as [Hr Hc].
  destruct (traceback_loop_is_Some (fs_matrix s) query reference
              (fs_maxRow s + fs_maxCol s) (fs_maxRow s) (fs_maxCol s) [] []
              (proj1 HM) Hr Hc) as [[aq ar] Htb].
  exists s, aq, ar. split_and!; [done..|].
  unfold SmithWaterman. rewrite Hs. simpl. unfold traceback in *.
  by rewrite Htb.
Qed.

(** The running maximum moves only to a cell that holds a strictly larger
    value. *)
Lemma fill_cell_max_update query reference i j st st' :
  fill_cell query reference i j st = Some st' →
  (fs_maxScore st' = fs_maxScore st ∧ fs_maxRow st' = fs_maxRow st ∧
   fs_maxCol st' = fs_maxCol st) ∨
  ((fs_maxScore st < fs_maxScore st')%Z ∧
   cell (fs_matrix st') i j = Some (fs_maxScore st') ∧
   fs_maxRow st' = i ∧ fs_maxCol st' = j).
Proof.
  unfold fill_cell. intros H.
  destruct (cell_score query reference (fs_matrix st) i j) as [v|]; [|done].
  simpl in H. destruct (set_cell (fs_matrix st) i j v) as [M'|]; [|done].
  simpl in H. destruct (cell M' i j) as [v'|] eqn:Hv'; [|done].
  simpl in H. case_bool_decide; injection H as <-; simpl; auto.
Qed.

(** ** What a walk consumes and what it renders *)

Lemma string_of_byte_ascii b : (Byte.to_N b < 128)%N → string_of_byte b = [b].
Proof.
  intros Hb. unfold string_of_byte.
  destruct (N.ltb_spec (Byte.to_N b) 128); [done|lia].
Qed.

Lemma slice_substring (s : gostring) lo hi :
  lo ≤ hi → substring_of (drop lo (take hi s)) s.
Proof.
  intros Hle. exists (take lo s), (drop hi s).
  rewrite drop_take_drop by done. by rewrite take_drop.
Qed.

Section walk_facts.
Context (stop : nat → nat → Prop) (M : matrix) (query reference : gostring).

(** A walk consumes a contiguous slice of each sequence, and none of its
    columns is empty on both sides. *)
Lemma tb_walk_slices row col cols :
  tb_walk stop M query reference row col cols →
  ∃ row' col', row' ≤ row ∧ col' ≤ col ∧
    omap fst cols = drop row' (take row query) ∧
    omap snd cols = drop col' (take col reference) ∧
    Forall (λ c : column, c.1 ≠ None ∨ c.2 ≠ None) cols.
Proof.
  assert (∀ (s : gostring) k k' b (l : gostring),
            0 < k → s !! (k - 1) = Some b → k' ≤ k - 1 →
            l = drop k' (take (k - 1) s) → l ++ [b] = drop k' (take k s))
    as Hsnoc.
  { intros s k k' b l Hk Hb Hk' ->.
    replace k with (S (k - 1)) at 2 by lia. rewrite (take_S_r _ _ _ Hb).
    rewrite drop_app_le; [done|]. rewrite length_take.
    apply lookup_lt_Some in Hb. lia. }
  induction 1 as
    [row col Hstop
    |row col v qb rb cols Hrow Hcol Hv Hpos Hqb Hrb Hdt _ IH
    |row col v qb td cols Hrow Hcol Hv Hpos Hqb Hdt Hne Hut _ IH
    |row col v rb td tu cols Hrow Hcol Hv Hpos Hrb Hdt Hne Hut Hne' Hlt _ IH].
  - exists row, col. split_and!; [done..| | |done];
      (rewrite drop_ge; [done|rewrite length_take; lia]).
  - destruct IH as (row' & col' & Hr & Hc & Hq & Href & Hall).
    exists row', col'. rewrite !omap_app. simpl. split_and!; [lia..| | |].
    + by apply Hsnoc.
    + by apply Hsnoc.
    + apply Forall_app. split; [done|]. apply Forall_singleton. by left.
  - destruct IH as (row' & col' & Hr & Hc & Hq & Href & Hall).
    exists row', col'. rewrite !omap_app. simpl. split_and!; [lia..| | |].
    + by apply Hsnoc.
    + by rewrite app_nil_r.
    + apply Forall_app. split; [done|]. apply Forall_singleton. by left.
  - destruct IH as (row' & col' & Hr & Hc & Hq & Href & Hall).
    exists row', col'. rewrite !omap_app. simpl. split_and!; [lia..| | |].
    + by rewrite app_nil_r.
    + by apply Hsnoc.
    + apply Forall_app. split; [done|]. apply Forall_singleton. by right.
Qed.

(** A walk only looks at stop conditions of cells between its start and
    the origin. *)
Lemma tb_walk_stop_ext (stop' : nat → nat → Prop) row col cols :
  tb_walk stop M query reference row col cols →
  (∀ a b, a ≤ row → b ≤ col → stop a b → stop' a b) →
  tb_walk stop' M query reference row col cols.
Proof.
  induction 1 as
    [row col Hstop
    |row col v qb rb cols Hrow Hcol Hv Hpos Hqb Hrb Hdt _ IH
    |row col v qb td cols Hrow Hcol Hv Hpos Hqb Hdt Hne Hut _ IH
    |row col v rb td tu cols Hrow Hcol Hv Hpos Hrb Hdt Hne Hut Hne' Hlt _ IH];
    intros Hext.
  - apply walk_stop. by apply Hext.
  - eapply walk_diag; eauto. apply IH. intros a b ? ?. apply Hext; lia.
  - eapply walk_up; eauto. apply IH. intros a b ? ?. apply Hext; lia.
  - eapply walk_left; eauto. apply IH. intros a b ? ?. apply Hext; lia.
Qed.
End walk_facts.

Section render_facts.
Context (side : column → option byte) (cols : list column).
Context (Hplain : plain (omap side cols)).

(** Over plain symbols every column renders as one byte. *)
Lemma render_plain : render side cols = (λ c, default gap (side c)) <$> cols.
Proof using Hplain.
  revert Hplain. unfold render. induction cols as [|c cs IH]; [done|].
  simpl. destruct (side c) as [b|] eqn:Hb; simpl; intros Hp.
  - apply Forall_cons in Hp as [[Hascii _] Hp].
    rewrite string_of_byte_ascii by done. simpl. f_equal. by apply IH.
  - f_equal. by apply IH.
Qed.

Lemma render_plain_length : length (render side cols) = length cols.
Proof using Hplain. rewrite render_plain. by rewrite length_fmap. Qed.

(** A gap marker in the rendering stands for a side that was not consumed. *)
Lemma render_plain_gap k :
  render side cols !! k = Some gap → ∃ c, cols !! k = Some c ∧ side c = None.
Proof using Hplain.
  rewrite render_plain, list_lookup_fmap.
  destruct (cols !! k) as [c|] eqn:Hc; [simpl|done]. intros [= Hgap].
  exists c. split; [done|]. destruct (side c) as [b|] eqn:Hb; [|done].
  exfalso. unfold plain in Hplain. rewrite Forall_forall in Hplain.
  destruct (Hplain b) as [_ Hne]; [|by simpl in Hgap].
  apply list_elem_of_omap. exists c. split; [|done].
  by eapply list_elem_of_lookup_2.
Qed.

(** Stripping the gap markers gives back the consumed symbols. *)
Lemma stripGaps_render_plain : stripGaps (render side cols) = omap side cols.
Proof using Hplain.
  rewrite render_plain. revert Hplain. unfold stripGaps.
  induction cols as [|c cs IH]; [done|].
  simpl. destruct (side c) as [b|] eqn:Hb; simpl; intros Hp.
  - apply Forall_cons in Hp as [[_ Hne] Hp].
    rewrite filter_cons_True by done. f_equal. by apply IH.
  - rewrite filter_cons_False by (intros Hne; by apply Hne). by apply IH.
Qed.
End render_facts.

(** ** Properties of the sequential aligner *)

(** C7. For every pair of sequences the sequential aligner does not
    panic, and the cell ([maxRow], [maxCol]) it hands to [traceback] is the
    first cell in row-major order that holds the largest value of the
    matrix: it holds [MaxScore], no cell holds more, and every cell before
    it (a lower row, or the same row and a lower column) holds strictly
    less.  The reason is in the scan: an iteration leaves the running
    maximum and its position alone unless the cell it has just written is
    strictly larger. *)
Theorem traceback_origin_is_first_maximum (query reference : gostring) :
  ∃ s res,
    sw_fill query reference = Some s ∧
    SmithWaterman query reference = Some res ∧
    ScoreMatrix res = fs_matrix s ∧
    MaxScore res = fs_maxScore s ∧
    traceback (ScoreMatrix res) query reference (fs_maxRow s) (fs_maxCol s)
      = Some (AlignedQuery res, AlignedRef res) ∧
    cell (ScoreMatrix res) (fs_maxRow s) (fs_maxCol s) = Some (MaxScore res) ∧
    (∀ a b v, cell (ScoreMatrix res) a b = Some v → (v ≤ MaxScore res)%Z) ∧
    (∀ a b v, cell (ScoreMatrix res) a b = Some v →
       a < fs_maxRow s ∨ (a = fs_maxRow s ∧ b < fs_maxCol s) →
       (v < MaxScore res)%Z) ∧
    (∀ i j st st', fill_cell query reference i j st = Some st' →
       (fs_maxScore st' = fs_maxScore st ∧ fs_maxRow st' = fs_maxRow st ∧
        fs_maxCol st' = fs_maxCol st) ∨
       ((fs_maxScore st < fs_maxScore st')%Z ∧
        cell (fs_matrix st') i j = Some (fs_maxScore st') ∧
        fs_maxRow st' = i ∧ fs_maxCol st' = j)).
Proof.
  destruct (SmithWaterman_total query reference)
    as (s & aq & ar & Hs & HM & (Hc & Hall & Hfirst) & Htb & Hsw).
  eexists s, _. split_and!; [done|exact Hsw|done..| | | |]; simpl.
  - done.
  - done.
  - intros a b v Hv Hlt. by eapply Hfirst.
  - intros i j st st'. apply fill_cell_max_update.
Qed.

(** On a matrix that satisfies the recurrence the loop ends exactly where
    the specification says. *)
Lemma sw_matrix_stops query reference (M : matrix) row col :
  sw_matrix query reference M →
  tb_stops M query reference row col ↔ tb_stops_spec M row col.
Proof.
  intros HM. unfold tb_stops, tb_stops_spec. split.
  - intros [?|[?|(v & Hv & Hstop)]]; [auto..|].
    destruct (decide (row = 0)); [auto|]. destruct (decide (col = 0)); [auto|].
    right. right. pose proof (sw_matrix_nonneg _ _ _ HM _ _ _ Hv) as Hnn.
    destruct (decide (v = 0%Z)) as [->|Hpos]; [done|].
    destruct Hstop as [?|(td & tu & tl & Hd & Hu & Hl & ? & ? & ?)]; [lia|].
    destruct (sw_matrix_term _ _ _ HM row col v) as [Ht|[Ht|Ht]];
      [lia|lia|done|lia|..]; congruence.
  - intros [?|[?|Hv]]; [auto..|]. right. right. exists 0%Z. split; [done|].
    left. lia.
Qed.

(** C9. In the matrix the sequential fill produces, every interior cell
    with a positive value equals its diagonal term, its up term or its
    left term, so wherever the traceback stands on a positive interior
    cell one of its three tests succeeds and the safeguard branch is not
    taken: every run of the traceback on that matrix is a walk that ends
    at row 0, at column 0 or at a cell of value 0. *)
Theorem safeguard_unreachable (query reference : gostring) :
  ∃ s,
    sw_fill query reference = Some s ∧
    (∀ row col v,
       1 ≤ row → 1 ≤ col →
       cell (fs_matrix s) row col = Some v → (0 < v)%Z →
       diag_term (fs_matrix s) query reference row col = Some v ∨
       up_term (fs_matrix s) row col = Some v ∨
       left_term (fs_matrix s) row col = Some v) ∧
    (∀ row col aq ar,
       traceback (fs_matrix s) query reference row col = Some (aq, ar) →
       ∃ cols,
         tb_walk (tb_stops_spec (fs_matrix s)) (fs_matrix s) query reference
           row col cols ∧
         aq = render fst cols ∧ ar = render snd cols).
Proof.
  destruct (sw_fill_spec query reference) as (s & Hs & HM & _).
  exists s. split_and!; [done| |].
  - intros row col v. by apply sw_matrix_term.
  - intros row col aq ar Htb.
    apply traceback_walk in Htb as (cols & Hw & Haq & Har).
    exists cols. split; [|done]. eapply tb_walk_stop_ext; [exact Hw|].
    intros a b _ _. by apply sw_matrix_stops.
Qed.

(** ** The traceback on any matrix *)

Lemma int_add_exact a b :
  (- 2 ^ 63 ≤ a + b < 2 ^ 63)%Z → int_add a b = (a + b)%Z.
Proof. intros H. unfold int_add. rewrite Z.mod_small; lia. Qed.

Section traceback_int_walk.
Context (M : matrix) (query reference : gostring).

Lemma diag_term_int_Some row col td :
  diag_term_int M query reference row col = Some td →
  ∃ qb rb d, query !! Z.to_nat (row - 1) = Some qb ∧
             reference !! Z.to_nat (col - 1) = Some rb ∧
             cell M (Z.to_nat (row - 1)) (Z.to_nat (col - 1)) = Some d ∧
             td = int_add d (match_score qb rb).
Proof.
  unfold diag_term_int. intros H.
  destruct (query !! _) as [qb|]; [|done].
  destruct (reference !! _) as [rb|]; [|done].
  destruct (cell M _ _) as [d|]; [|done].
  simpl in H. injection H as <-. eauto 10.
Qed.

Lemma up_term_int_Some row col tu :
  up_term_int M row col = Some tu →
  ∃ u, cell M (Z.to_nat (row - 1)) (Z.to_nat col) = Some u ∧
       tu = int_add u GapPenalty.
Proof.
  unfold up_term_int. intros H. destruct (cell M _ _) as [u|]; [|done].
  simpl in H. injection H as <-. eauto.
Qed.

Lemma left_term_int_Some row col tl :
  left_term_int M row col = Some tl →
  ∃ l, cell M (Z.to_nat row) (Z.to_nat (col - 1)) = Some l ∧
       tl = int_add l GapPenalty.
Proof.
  unfold left_term_int. intros H. destruct (cell M _ _) as [l|]; [|done].
  simpl in H. injection H as <-. eauto.
Qed.

(** The loop stops at once exactly where [tb_stops_int] says. *)
Lemma traceback_int_loop_stop fuel row col aq ar :
  tb_stops_int M query reference row col →
  traceback_int_loop fuel M query reference row col aq ar = Some (aq, ar).
Proof.
  intros Hstop. destruct fuel as [|fuel]; [done|]. simpl.
  destruct Hstop as [?|[?|(v & Hv & Hstop)]].
  { by rewrite (bool_decide_eq_false_2 (0 < row)%Z) by lia. }
  { rewrite (bool_decide_eq_false_2 (0 < col)%Z) by lia.
    by rewrite andb_false_r. }
  destruct (bool_decide (0 < row)%Z && bool_decide (0 < col)%Z); [|done].
  rewrite Hv. simpl. case_bool_decide as Hpos; [|done].
  destruct Hstop as [?|(td & tu & tl & Hdt & Hut & Hlt & ? & ? & ?)]; [lia|].
  apply diag_term_int_Some in Hdt as (qb & rb & d & -> & -> & -> & ->).
  apply up_term_int_Some in Hut as (u & -> & ->).
  apply left_term_int_Some in Hlt as (l & -> & ->).
  simpl. by rewrite !bool_decide_eq_false_2 by done.
Qed.

(** Every result of the loop is the rendering of a walk that ends where
    the code stops. *)
Lemma traceback_int_loop_walk fuel row col aq ar res :
  Z.to_nat row + Z.to_nat col ≤ fuel →
  traceback_int_loop fuel M query reference row col aq ar = Some res →
  ∃ cols,
    tb_walk_int (tb_stops_int M query reference) M query reference row col cols ∧
    res = (render fst cols ++ aq, render snd cols ++ ar).
Proof.
  revert row col aq ar.
  induction fuel as [|fuel IH]; intros row col aq ar Hfuel.
  - simpl. intros [= <-]. exists []. split; [|done].
    apply walk_int_stop. left. lia.
  - simpl. destruct (bool_decide (0 < row)%Z) eqn:Hrow; simpl; cycle 1.
    { intros [= <-]. exists []. split; [|done]. apply walk_int_stop. left.
      apply bool_decide_eq_false in Hrow. lia. }
    destruct (bool_decide (0 < col)%Z) eqn:Hcol; simpl; cycle 1.
    { intros [= <-]. exists []. split; [|done]. apply walk_int_stop.
      right. left. apply bool_decide_eq_false in Hcol. lia. }
    apply bool_decide_eq_true in Hrow, Hcol.
    destruct (cell M (Z.to_nat row) (Z.to_nat col)) as [v|] eqn:Hv;
      [simpl|done].
    case_bool_decide as Hpos; cycle 1.
    { intros [= <-]. exists []. split; [|done]. apply walk_int_stop.
      right. right. exists v. split; [done|]. left. lia. }
    destruct (query !! Z.to_nat (row - 1)) as [qb|] eqn:Hqb; [simpl|done].
    destruct (reference !! Z.to_nat (col - 1)) as [rb|] eqn:Hrb; [simpl|done].
    destruct (cell M (Z.to_nat (row - 1)) (Z.to_nat (col - 1))) as [d|] eqn:Hd;
      [simpl|done].
    assert (diag_term_int M query reference row col
            = Some (int_add d (match_score qb rb)))
      as Hdt by (unfold diag_term_int; by rewrite Hqb, Hrb, Hd).
    case_bool_decide as Hdiag.
    { intros Hres. apply IH in Hres as (cols & Hw & ->); [|lia].
      exists (cols ++ [(Some qb, Some rb)]). split.
      - eapply walk_int_diag; eauto. by rewrite Hdt, Hdiag.
      - rewrite !render_snoc. simpl. by rewrite <- !app_assoc. }
    destruct (cell M (Z.to_nat (row - 1)) (Z.to_nat col)) as [u|] eqn:Hu;
      [simpl|done].
    assert (up_term_int M row col = Some (int_add u GapPenalty))
      as Hut by (unfold up_term_int; by rewrite Hu).
    case_bool_decide as Hup.
    { intros Hres. apply IH in Hres as (cols & Hw & ->); [|lia].
      exists (cols ++ [(Some qb, None)]). split.
      - eapply walk_int_up; eauto. by rewrite Hut, Hup.
      - rewrite !render_snoc. simpl. by rewrite <- !app_assoc. }
    destruct (cell M (Z.to_nat row) (Z.to_nat (col - 1))) as [l|] eqn:Hl;
      [simpl|done].
    assert (left_term_int M row col = Some (int_add l GapPenalty))
      as Hlt by (unfold left_term_int; by rewrite Hl).
    case_bool_decide as Hleft.
    { intros Hres. apply IH in Hres as (cols & Hw & ->); [|lia].
      exists (cols ++ [(None, Some rb)]). split.
      - eapply walk_int_left; eauto. by rewrite Hlt, Hleft.
      - rewrite !render_snoc. simpl. by rewrite <- !app_assoc. }
    intros [= <-]. exists []. split; [|done]. apply walk_int_stop.
    right. right. exists v. split; [done|]. right.
    eexists _, _, _. split_and!; eauto.
Qed.

(** Conversely the loop follows the walk, whatever fuel above the two
    indices it is given. *)
Lemma tb_walk_int_loop row col cols :
  tb_walk_int (tb_stops_int M query reference) M query reference row col cols →
  ∀ fuel aq ar, Z.to_nat row + Z.to_nat col ≤ fuel →
    traceback_int_loop fuel M query reference row col aq ar
    = Some (render fst cols ++ aq, render snd cols ++ ar).
Proof.
  induction 1 as
    [row col Hstop
    |row col v qb rb cols Hrow Hcol Hv Hpos Hqb Hrb Hdt _ IH
    |row col v qb td cols Hrow Hcol Hv Hpos Hqb Hdt Hne Hut _ IH
    |row col v rb td tu cols Hrow Hcol Hv Hpos Hrb Hdt Hne Hut Hne' Hlt _ IH];
    intros fuel aq ar Hf.
  - by apply traceback_int_loop_stop.
  - destruct fuel as [|fuel]; [lia|]. simpl.
    rewrite !bool_decide_eq_true_2 by done. simpl. rewrite Hv. simpl.
    rewrite bool_decide_eq_true_2 by done. rewrite Hqb, Hrb. simpl.
    apply diag_term_int_Some in Hdt as (qb' & rb' & d & Hqb' & Hrb' & -> & ->).
    simplify_eq. simpl. rewrite bool_decide_eq_true_2 by done.
    rewrite IH by lia. rewrite !render_snoc. simpl. by rewrite <- !app_assoc.
  - destruct fuel as [|fuel]; [lia|]. simpl.
    rewrite !bool_decide_eq_true_2 by done. simpl. rewrite Hv. simpl.
    rewrite bool_decide_eq_true_2 by done.
    apply diag_term_int_Some in Hdt as (qb' & rb' & d & Hqb' & -> & -> & ->).
    apply up_term_int_Some in Hut as (u & -> & ->).
    simplify_eq. rewrite Hqb. simpl. rewrite bool_decide_eq_false_2 by done.
    rewrite bool_decide_eq_true_2 by done.
    rewrite IH by lia. rewrite !render_snoc. simpl. by rewrite <- !app_assoc.
  - destruct fuel as [|fuel]; [lia|]. simpl.
    rewrite !bool_decide_eq_true_2 by done. simpl. rewrite Hv. simpl.
    rewrite bool_decide_eq_true_2 by done.
    apply diag_term_int_Some in Hdt as (qb' & rb' & d & -> & Hrb' & -> & ->).
    apply up_term_int_Some in Hut as (u & -> & ->).
    apply left_term_int_Some in Hlt as (l & -> & ->).
    simplify_eq. rewrite Hrb. simpl. rewrite !bool_decide_eq_false_2 by done.
    rewrite bool_decide_eq_true_2 by done.
    rewrite IH by lia. rewrite !render_snoc. simpl. by rewrite <- !app_assoc.
Qed.

(** [traceback_int] returns exactly the renderings of the walk from its
    starting cell. *)
Lemma traceback_int_walk row col aq ar :
  traceback_int M query reference row col = Some (aq, ar) ↔
  ∃ cols,
    tb_walk_int (tb_stops_int M query reference) M query reference row col cols ∧
    aq = render fst cols ∧ ar = render snd cols.
Proof.
  unfold traceback_int. split.
  - intros H. apply traceback_int_loop_walk in H as (cols & Hw & Hres); [|done].
    rewrite !app_nil_r in Hres. injection Hres as -> ->. eauto.
  - intros (cols & Hw & -> & ->).
    rewrite (tb_walk_int_loop _ _ _ Hw) by done. by rewrite !app_nil_r.
Qed.

(** On a matrix of the size of the two sequences and from a cell that
    is not beyond it the loop does not panic. *)
Lemma traceback_int_loop_is_Some fuel row col aq ar :
  dims (length query) (length reference) M →
  (row ≤ Z.of_nat (length query))%Z → (col ≤ Z.of_nat (length reference))%Z →
  is_Some (traceback_int_loop fuel M query reference row col aq ar).
Proof.
  intros HM. revert row col aq ar.
  induction fuel as [|fuel IH]; intros row col aq ar Hr Hc; [by eexists|].
  simpl. destruct (bool_decide (0 < row)%Z) eqn:Hrow; simpl; [|by eexists].
  destruct (bool_decide (0 < col)%Z) eqn:Hcol; simpl; [|by eexists].
  apply bool_decide_eq_true in Hrow, Hcol.
  destruct (cell_is_Some _ _ M (Z.to_nat row) (Z.to_nat col) HM) as [v ->];
    [lia..|]. simpl.
  case_bool_decide; [|by eexists].
  destruct (lookup_lt_is_Some_2 query (Z.to_nat (row - 1))) as [qb ->]; [lia|].
  destruct (lookup_lt_is_Some_2 reference (Z.to_nat (col - 1))) as [rb ->];
    [lia|].
  destruct (cell_is_Some _ _ M (Z.to_nat (row - 1)) (Z.to_nat (col - 1)) HM)
    as [d ->]; [lia..|].
  destruct (cell_is_Some _ _ M (Z.to_nat (row - 1)) (Z.to_nat col) HM)
    as [u ->]; [lia..|].
  destruct (cell_is_Some _ _ M (Z.to_nat row) (Z.to_nat (col - 1)) HM)
    as [l ->]; [lia..|].
  simpl. repeat case_bool_decide; try (apply IH; lia). by eexists.
Qed.

(** The stop condition a walk is given matters only at the cells between
    its start and the origin. *)
Lemma tb_walk_int_stop_ext (stop stop' : Z → Z → Prop) row col cols :
  tb_walk_int stop M query reference row col cols →
  (∀ a b, (a ≤ row)%Z → (b ≤ col)%Z → stop a b → stop' a b) →
  tb_walk_int stop' M query reference row col cols.
Proof.
  induction 1 as
    [row col Hstop
    |row col v qb rb cols Hrow Hcol Hv Hpos Hqb Hrb Hdt _ IH
    |row col v qb td cols Hrow Hcol Hv Hpos Hqb Hdt Hne Hut _ IH
    |row col v rb td tu cols Hrow Hcol Hv Hpos Hrb Hdt Hne Hut Hne' Hlt _ IH];
    intros Hext.
  - apply walk_int_stop. apply Hext; [lia..|done].
  - eapply walk_int_diag; eauto. apply IH. intros a b ? ?. apply Hext; lia.
  - eapply walk_int_up; eauto. apply IH. intros a b ? ?. apply Hext; lia.
  - eapply walk_int_left; eauto. apply IH. intros a b ? ?. apply Hext; lia.
Qed.

(** *** Matrices whose sums do not wrap around *)

Context (Hexact : exact_sums M).

Lemma exact_sums_match d qb rb i j :
  cell M i j = Some d → int_add d (match_score qb rb) = (d + match_score qb rb)%Z.
Proof.
  intros Hd. apply Hexact in Hd. apply int_add_exact.
  destruct (match_score_cases qb rb) as [-> | ->];
    unfold MatchScore, MismatchScore; lia.
Qed.

Lemma exact_sums_gap d i j :
  cell M i j = Some d → int_add d GapPenalty = (d + GapPenalty)%Z.
Proof.
  intros Hd. apply Hexact in Hd. apply int_add_exact.
  unfold GapPenalty. lia.
Qed.

(** On such a matrix the loop with the sums of Go is the loop of
    [traceback]. *)
Lemma traceback_int_loop_exact fuel (row col : nat) aq ar :
  traceback_int_loop fuel M query reference (Z.of_nat row) (Z.of_nat col) aq ar
  = traceback_loop fuel M query reference row col aq ar.
Proof.
  revert row col aq ar.
  induction fuel as [|fuel IH]; intros row col aq ar; [done|]. simpl.
  rewrite (bool_decide_ext (0 < Z.of_nat row)%Z (0 < row)) by lia.
  rewrite (bool_decide_ext (0 < Z.of_nat col)%Z (0 < col)) by lia.
  destruct (bool_decide (0 < row)) eqn:Hrow; simpl; [|done].
  destruct (bool_decide (0 < col)) eqn:Hcol; simpl; [|done].
  apply bool_decide_eq_true in Hrow, Hcol.
  replace (Z.to_nat (Z.of_nat row - 1)) with (row - 1) by lia.
  replace (Z.to_nat (Z.of_nat col - 1)) with (col - 1) by lia.
  rewrite !Nat2Z.id.
  replace (Z.of_nat row - 1)%Z with (Z.of_nat (row - 1)) by lia.
  replace (Z.of_nat col - 1)%Z with (Z.of_nat (col - 1)) by lia.
  destruct (cell M row col) as [v|]; [simpl|done].
  case_bool_decide; [|done].
  destruct (query !! (row - 1)) as [qb|]; [simpl|done].
  destruct (reference !! (col - 1)) as [rb|]; [simpl|done].
  destruct (cell M (row - 1) (col - 1)) as [d|] eqn:Hd; [simpl|done].
  rewrite (exact_sums_match _ _ _ _ _ Hd), IH.
  case_bool_decide; [done|].
  destruct (cell M (row - 1) col) as [u|] eqn:Hu; [simpl|done].
  rewrite (exact_sums_gap _ _ _ Hu), IH.
  case_bool_decide; [done|].
  destruct (cell M row (col - 1)) as [l|] eqn:Hl; [simpl|done].
  by rewrite (exact_sums_gap _ _ _ Hl), IH.
Qed.

Lemma traceback_int_exact (row col : Z) :
  traceback_int M query reference row col
  = traceback M query reference (Z.to_nat row) (Z.to_nat col).
Proof.
  unfold traceback_int, traceback.
  destruct (decide (0 < row)%Z) as [Hrow|Hrow];
    [destruct (decide (0 < col)%Z) as [Hcol|Hcol]|].
  - rewrite <- traceback_int_loop_exact. by rewrite !Z2Nat.id by lia.
  - rewrite traceback_int_loop_stop by (right; left; lia).
    replace (Z.to_nat col) with 0 by lia.
    destruct (Z.to_nat row + 0) as [|fuel]; [done|]. simpl.
    by rewrite andb_false_r.
  - rewrite traceback_int_loop_stop by (left; lia).
    replace (Z.to_nat row) with 0 by lia.
    by destruct (0 + Z.to_nat col) as [|fuel].
Qed.

Lemma diag_term_int_exact row col :
  diag_term_int M query reference row col
  = diag_term M query reference (Z.to_nat row) (Z.to_nat col).
Proof.
  unfold diag_term_int, diag_term.
  replace (Z.to_nat (row - 1)) with (Z.to_nat row - 1) by lia.
  replace (Z.to_nat (col - 1)) with (Z.to_nat col - 1) by lia.
  destruct (query !! _) as [qb|]; [simpl|done].
  destruct (reference !! _) as [rb|]; [simpl|done].
  destruct (cell M _ _) as [d|] eqn:Hd; [simpl|done].
  by rewrite (exact_sums_match _ _ _ _ _ Hd).
Qed.

Lemma up_term_int_exact row col :
  up_term_int M row col = up_term M (Z.to_nat row) (Z.to_nat col).
Proof.
  unfold up_term_int, up_term.
  replace (Z.to_nat (row - 1)) with (Z.to_nat row - 1) by lia.
  destruct (cell M _ _) as [u|] eqn:Hu; [simpl|done].
  by rewrite (exact_sums_gap _ _ _ Hu).
Qed.

Lemma left_term_int_exact row col :
  left_term_int M row col = left_term M (Z.to_nat row) (Z.to_nat col).
Proof.
  unfold left_term_int, left_term.
  replace (Z.to_nat (col - 1)) with (Z.to_nat col - 1) by lia.
  destruct (cell M _ _) as [l|] eqn:Hl; [simpl|done].
  by rewrite (exact_sums_gap _ _ _ Hl).
Qed.

(** If [M] moreover satisfies the recurrence, the loop ends exactly where
    the specification says. *)
Lemma sw_matrix_stops_int row col :
  sw_matrix query reference M →
  tb_stops_int M query reference row col ↔ tb_stops_spec_int M row col.
Proof.
  intros HM. unfold tb_stops_int, tb_stops_spec_int. split.
  - intros [?|[?|(v & Hv & Hstop)]]; [auto..|].
    destruct (decide (row ≤ 0)%Z); [auto|].
    destruct (decide (col ≤ 0)%Z); [auto|].
    right. right. pose proof (sw_matrix_nonneg _ _ _ HM _ _ _ Hv) as Hnn.
    destruct (decide (v = 0%Z)) as [->|Hpos]; [done|].
    destruct Hstop as [?|(td & tu & tl & Hd & Hu & Hl & ? & ? & ?)]; [lia|].
    rewrite diag_term_int_exact in Hd. rewrite up_term_int_exact in Hu.
    rewrite left_term_int_exact in Hl.
    destruct (sw_matrix_term _ _ _ HM (Z.to_nat row) (Z.to_nat col) v)
      as [Ht|[Ht|Ht]]; [lia|lia|done|lia|..]; congruence.
  - intros [?|[?|Hv]]; [auto..|]. right. right. exists 0%Z. split; [done|].
    left. lia.
Qed.
End traceback_int_walk.

(** The matrix of two sequences has such cells unless the shorter of the
    two has 2^61 symbols or more, which no Go program can hold together
    with the matrix. *)
Lemma sw_matrix_exact_sums query reference (M : matrix) :
  sw_matrix query reference M →
  (Z.of_nat (length query `min` length reference) < 2 ^ 61)%Z →
  exact_sums M.
Proof.
  intros HM Hlen i j v Hv.
  pose proof (sw_matrix_nonneg _ _ _ HM _ _ _ Hv) as Hnn.
  pose proof (sw_matrix_upper _ _ _ HM _ _ _ Hv) as Hup.
  destruct (sw_matrix_cell _ _ _ HM _ _ _ Hv) as (Hi & Hj & _).
  lia.
Qed.

(** At the limits of [int] the two loops differ.  On the matrix
    [[MinInt64 0] [0 MaxInt64]] with "A" and "B" from cell (1, 1), Go
    computes the diagonal term [MinInt64 + (-1)] as [MaxInt64], the value
    of the cell, and takes the diagonal step; without the wrap-around no
    term equals the cell. *)
Lemma traceback_int_wraps_around :
  traceback_int [[MinInt64; 0]; [0; MaxInt64]]%Z ["A"%byte] ["B"%byte] 1 1
  = Some (["A"%byte], ["B"%byte]) ∧
  traceback [[MinInt64; 0]; [0; MaxInt64]]%Z ["A"%byte] ["B"%byte] 1 1
  = Some ([], []).
Proof. split; vm_compute; reflexivity. Qed.

(** C6, as the code has it.  For every matrix, pair of sequences and
    starting cell, negative indices and cells at the limits of [int]
    included, [traceback] (and [parallelTraceback], which is the same
    function) returns exactly the two renderings of the backward walk from
    that cell: at a positive interior cell the walk takes the first of the
    diagonal, up and left terms that equals the value of the cell, the
    terms being the sums Go computes, and emits the two symbols, or a
    symbol and a gap marker on the side that is not consumed; it ends
    where [row] or [col] is not positive, at a cell whose value is not
    positive, or, by the safeguard, at a cell none of whose three terms
    equals its value.  On a matrix of the size of the two sequences and
    from a cell that is not beyond it the traceback does not panic.  On a
    matrix whose cells are two away from the limits of [int] the result
    is that of the loop written without wrap-around, which the two
    aligners are modelled with.  On a matrix that satisfies the
    Smith-Waterman recurrence (for sequences the shorter of which has
    fewer than 2^61 symbols) the safeguard and the negative case do not
    arise: the walk ends exactly at row 0, at column 0 or at a cell whose
    value is 0. *)
Theorem traceback_follows_walk (M : matrix) (query reference : gostring)
    (row col : Z) (aq ar : gostring) :
  (traceback_int M query reference row col = Some (aq, ar) ↔
   ∃ cols,
     tb_walk_int (tb_stops_int M query reference) M query reference row col cols ∧
     aq = render fst cols ∧ ar = render snd cols) ∧
  parallelTraceback_int M query reference row col
    = traceback_int M query reference row col ∧
  (dims (length query) (length reference) M →
   (row ≤ Z.of_nat (length query))%Z → (col ≤ Z.of_nat (length reference))%Z →
   is_Some (traceback_int M query reference row col)) ∧
  (exact_sums M →
   traceback_int M query reference row col
     = traceback M query reference (Z.to_nat row) (Z.to_nat col) ∧
   parallelTraceback_int M query reference row col
     = parallelTraceback M query reference (Z.to_nat row) (Z.to_nat col)) ∧
  (sw_matrix query reference M →
   (Z.of_nat (length query `min` length reference) < 2 ^ 61)%Z →
   (traceback_int M query reference row col = Some (aq, ar) ↔
    ∃ cols, tb_walk_int (tb_stops_spec_int M) M query reference row col cols ∧
            aq = render fst cols ∧ ar = render snd cols)).
Proof.
  split_and!.
  - apply traceback_int_walk.
  - done.
  - intros HM Hr Hc. by apply traceback_int_loop_is_Some.
  - intros Hexact. split; by apply traceback_int_exact.
  - intros HM Hlen. rewrite traceback_int_walk.
    pose proof (sw_matrix_exact_sums _ _ _ HM Hlen) as Hexact.
    split; intros (cols & Hw & Haq & Har); exists cols; (split; [|done]);
      eapply tb_walk_int_stop_ext; eauto; intros a b _ _;
      by apply sw_matrix_stops_int.
Qed.

(** C6, as it is stated, fails: on the matrix [[0 0] [0 5]] and the
    sequences "A" and "A" the traceback started at cell (1, 1) returns two
    empty strings, that is, it stops at once, although the cell holds 5
    and lies on neither border; no walk that ends only at a border or at
    a cell of value 0 starts there. *)
Lemma traceback_stops_at_safeguard :
  traceback_int [[0; 0]; [0; 5]]%Z ["A"%byte] ["A"%byte] 1 1 = Some ([], []) ∧
  cell [[0; 0]; [0; 5]]%Z 1 1 = Some 5%Z ∧
  ∀ cols, ¬ tb_walk_int (tb_stops_spec_int [[0; 0]; [0; 5]]%Z)
              [[0; 0]; [0; 5]]%Z ["A"%byte] ["A"%byte] 1 1 cols.
Proof.
  split_and!; [done..|]. intros cols Hw. inversion Hw; subst.
  - match goal with H : tb_stops_spec_int _ _ _ |- _ =>
      destruct H as [?|[?|?]]; done end.
  - match goal with H : diag_term_int _ _ _ 1 1 = Some _ |- _ =>
      vm_compute in H end. simplify_eq.
  - match goal with H : up_term_int _ 1 1 = Some _ |- _ =>
      vm_compute in H end. simplify_eq.
  - match goal with H : left_term_int _ 1 1 = Some _ |- _ =>
      vm_compute in H end. simplify_eq.
Qed.

(** The theorem on the matrix of GATTACA and GATACA, from its last cell:
    the matrix satisfies the recurrence, so the result of the traceback,
    GATTACA over GA-TACA, is the rendering of a walk that ends only at a
    border or at a cell of value 0. *)
Lemma traceback_follows_walk_witness :
  ∃ s cols,
    sw_fill GATTACA GATACA = Some s ∧
    sw_matrix GATTACA GATACA (fs_matrix s) ∧
    tb_walk_int (tb_stops_spec_int (fs_matrix s)) (fs_matrix s) GATTACA GATACA
      7 6 cols ∧
    render fst cols = GATTACA ∧
    render snd cols = ["G"; "A"; "-"; "T"; "A"; "C"; "A"]%byte.
Proof.
  destruct (sw_fill_spec GATTACA GATACA) as (s & Hs & HM & _).
  destruct (traceback_follows_walk (fs_matrix s) GATTACA GATACA 7 6
              GATTACA ["G"; "A"; "-"; "T"; "A"; "C"; "A"]%byte)
    as (_ & _ & _ & _ & Hspec).
  destruct (Hspec HM) as [Hwalk _]; [vm_compute; reflexivity|].
  destruct Hwalk as (cols & Hw & Haq & Har).
  { vm_compute in Hs. injection Hs as <-. vm_compute. reflexivity. }
  exists s, cols. split_and!; done.
Defined.

(** C4, as the code has it.  For every pair of sequences made of ASCII
    bytes other than the gap marker '-', the sequential aligner returns a
    result whose two aligned strings have the same length, never hold the
    gap marker at the same position, and, once their gap markers are
    removed, are contiguous substrings of the query and of the reference. *)
Theorem alignment_well_formed (query reference : gostring) :
  plain query → plain reference →
  ∃ res,
    SmithWaterman query reference = Some res ∧
    length (AlignedQuery res) = length (AlignedRef res) ∧
    (∀ k, ¬ (AlignedQuery res !! k = Some gap ∧
             AlignedRef res !! k = Some gap)) ∧
    substring_of (stripGaps (AlignedQuery res)) query ∧
    substring_of (stripGaps (AlignedRef res)) reference.
Proof.
  intros Hq Hr.
  destruct (SmithWaterman_total query reference)
    as (s & aq & ar & _ & _ & _ & Htb & Hsw).
  eexists. split; [exact Hsw|]. simpl.
  apply traceback_walk in Htb as (cols & Hw & -> & ->).
  apply tb_walk_slices in Hw as (row' & col' & Hrow & Hcol & Hfst & Hsnd & Hne).
  assert (plain (omap fst cols)) as Hpq.
  { rewrite Hfst. by apply Forall_drop, Forall_take. }
  assert (plain (omap snd cols)) as Hpr.
  { rewrite Hsnd. by apply Forall_drop, Forall_take. }
  split_and!.
  - by rewrite !render_plain_length.
  - intros k [Hkq Hkr].
    apply render_plain_gap in Hkq as (c & Hc & Hcq); [|done].
    apply render_plain_gap in Hkr as (c' & Hc' & Hcr); [|done].
    simplify_eq. rewrite Forall_lookup in Hne.
    destruct (Hne _ _ Hc) as [?|?]; done.
  - rewrite stripGaps_render_plain by done. rewrite Hfst.
    by apply slice_substring.
  - rewrite stripGaps_render_plain by done. rewrite Hsnd.
    by apply slice_substring.
Qed.

(** The theorem at the two sequences of the third scenario of the tests. *)
Lemma alignment_well_formed_witness :
  plain GATTACA ∧ plain GATACA ∧
  ∃ res,
    SmithWaterman GATTACA GATACA = Some res ∧
    length (AlignedQuery res) = length (AlignedRef res) ∧
    (∀ k, ¬ (AlignedQuery res !! k = Some gap ∧
             AlignedRef res !! k = Some gap)) ∧
    substring_of (stripGaps (AlignedQuery res)) GATTACA ∧
    substring_of (stripGaps (AlignedRef res)) GATACA.
Proof.
  assert (plain GATTACA) as Hq by (repeat constructor; done).
  assert (plain GATACA) as Hr by (repeat constructor; done).
  split_and!; [exact Hq|exact Hr|].
  exact (alignment_well_formed GATTACA GATACA Hq Hr).
Defined.

(** C4, as it is stated, fails on the query "-" 0xC3 "-" and the
    reference "-X-": the aligned query has four bytes and the aligned
    reference three, both hold the gap marker at position 0, and the
    aligned query without its gap markers is the two bytes 0xC3 0x83,
    which do not occur in the query. *)
Lemma alignment_ill_formed :
  ∃ res,
    SmithWaterman ["-"; "195"; "-"]%byte ["-"; "X"; "-"]%byte = Some res ∧
    AlignedQuery res = ["-"; "195"; "131"; "-"]%byte ∧
    AlignedRef res = ["-"; "X"; "-"]%byte ∧
    length (AlignedQuery res) ≠ length (AlignedRef res) ∧
    (AlignedQuery res !! 0 = Some gap ∧ AlignedRef res !! 0 = Some gap) ∧
    stripGaps (AlignedQuery res) = ["195"; "131"]%byte ∧
    ¬ substring_of (stripGaps (AlignedQuery res)) ["-"; "195"; "-"]%byte.
Proof.
  eexists. split; [vm_compute; reflexivity|].
  split_and!; try (vm_compute; reflexivity).
  { vm_compute. discriminate. }
  intros (pre & post & Heq). apply (f_equal (fmap Byte.to_N)) in Heq.
  rewrite !fmap_app in Heq.
  destruct pre as [|? [|? [|? [|? pre]]]]; vm_compute in Heq; discriminate.
Qed.

(** ** A sequence against itself *)

Lemma symbols_as_strings_ascii s : is_ascii s → symbols_as_strings s = s.
Proof.
  unfold symbols_as_strings. induction 1 as [|b s Hb _ IH]; [done|].
  simpl. rewrite string_of_byte_ascii by done. simpl. by f_equal.
Qed.

Section self_alignment.
Context (sq : gostring) (M : matrix).
Context (HM : sw_matrix sq sq M).

(** The main diagonal counts the matches. *)
Lemma self_diagonal i : i ≤ length sq → cell M i i = Some (2 * Z.of_nat i)%Z.
Proof using HM.
  induction i as [|i IH]; intros Hi.
  - destruct HM as (_ & Hzero & _). apply Hzero; [lia..|by left].
  - destruct HM as (Hdims & _ & Hrec).
    destruct (Hrec (S i) (S i)) as (v & Hs & ->); [lia..|].
    f_equal.
    apply cell_score_Some in Hs as (td & tu & tl & Hd & Hu & Hl & ->).
    apply diag_term_Some in Hd as (qb & rb & d & Hqb & Hrb & Hd & ->).
    apply up_term_Some in Hu as (u & Hu & ->).
    apply left_term_Some in Hl as (l & Hl & ->).
    rewrite Nat.sub_succ, Nat.sub_0_r in *. rewrite IH in Hd by lia.
    simplify_eq. rewrite match_score_refl.
    apply (sw_matrix_upper _ _ _ HM) in Hu, Hl.
    unfold MatchScore, GapPenalty. lia.
Qed.

(** From a cell of the diagonal the walk takes the diagonal move all the
    way to the origin. *)
Lemma self_walk i :
  i ≤ length sq →
  tb_walk (tb_stops M sq sq) M sq sq i i ((λ b, (Some b, Some b)) <$> take i sq).
Proof using HM.
  induction i as [|i IH]; intros Hi.
  - rewrite take_0. apply walk_stop. by left.
  - destruct (lookup_lt_is_Some_2 sq i) as [b Hb]; [lia|].
    rewrite (take_S_r _ _ _ Hb), fmap_app.
    apply (walk_diag _ _ _ _ (S i) (S i) (2 * Z.of_nat (S i))%Z b b);
      rewrite ?Nat.sub_succ, ?Nat.sub_0_r; [lia|lia| |lia|done|done| |].
    + by apply self_diagonal.
    + unfold diag_term. rewrite Nat.sub_succ, Nat.sub_0_r, Hb. simpl.
      rewrite self_diagonal by lia. simpl. rewrite match_score_refl.
      f_equal. unfold MatchScore. lia.
    + apply IH. lia.
Qed.

(** The first maximum is the last cell of the diagonal. *)
Lemma self_first_max maxScore maxRow maxCol :
  first_max M maxScore maxRow maxCol →
  maxScore = (2 * Z.of_nat (length sq))%Z ∧
  maxRow = length sq ∧ maxCol = length sq.
Proof using HM.
  intros (Hc & Hall & _).
  destruct (cell_Some_inv _ _ _ _ _ _ (proj1 HM) Hc) as [Hr Hcol].
  pose proof (sw_matrix_upper _ _ _ HM _ _ _ Hc) as Hup.
  pose proof (Hall _ _ _ (self_diagonal (length sq) (le_n _))) as Hlow.
  lia.
Qed.
End self_alignment.

Lemma render_matched_pairs (l : gostring) :
  render fst ((λ b, (Some b, Some b)) <$> l) = symbols_as_strings l ∧
  render snd ((λ b, (Some b, Some b)) <$> l) = symbols_as_strings l.
Proof.
  unfold render, symbols_as_strings.
  induction l as [|b l [IH1 IH2]]; [done|].
  rewrite fmap_cons, !bind_cons, IH1, IH2. done.
Qed.

(** C8, as the code has it.  For every sequence [sq], aligning [sq]
    against itself gives [MaxScore = len(sq) * MatchScore], that is
    [2 * len(sq)], and two aligned strings that both are the concatenation
    of [string(b)] over the bytes [b] of [sq]; they are [sq] itself when
    every byte of [sq] is below 0x80. *)
Theorem self_alignment_identity (sq : gostring) :
  ∃ res,
    SmithWaterman sq sq = Some res ∧
    MaxScore res = (Z.of_nat (length sq) * MatchScore)%Z ∧
    MaxScore res = (Z.of_nat (length sq) * 2)%Z ∧
    AlignedQuery res = symbols_as_strings sq ∧
    AlignedRef res = symbols_as_strings sq ∧
    (is_ascii sq → AlignedQuery res = sq ∧ AlignedRef res = sq).
Proof.
  destruct (SmithWaterman_total sq sq)
    as (s & aq & ar & _ & HM & Hmax & Htb & Hsw).
  destruct (self_first_max _ _ HM _ _ _ Hmax) as (Hscore & Hrow & Hcol).
  rewrite Hrow, Hcol in Htb.
  pose proof (self_walk _ _ HM (length sq) (le_n _)) as Hw.
  rewrite firstn_all in Hw.
  assert (traceback (fs_matrix s) sq sq (length sq) (length sq)
          = Some (symbols_as_strings sq, symbols_as_strings sq)) as Hres.
  { apply traceback_walk. eexists. split; [exact Hw|].
    destruct (render_matched_pairs sq) as [-> ->]. done. }
  rewrite Hres in Htb. injection Htb as <- <-.
  eexists. split; [exact Hsw|]. simpl. unfold MatchScore.
  split_and!; [lia|lia|done|done|].
  intros Hascii. by rewrite symbols_as_strings_ascii.
Qed.

(** The theorem at the sequence of the first scenario of the tests. *)
Lemma self_alignment_identity_witness :
  is_ascii GATTACA ∧
  ∃ res,
    SmithWaterman GATTACA GATTACA = Some res ∧
    MaxScore res = 14%Z ∧ AlignedQuery res = GATTACA ∧ AlignedRef res = GATTACA.
Proof.
  assert (is_ascii GATTACA) as Hascii by (repeat constructor).
  split; [exact Hascii|].
  destruct (self_alignment_identity GATTACA)
    as (res & Hsw & _ & Hscore & _ & _ & Hid).
  destruct (Hid Hascii) as [Hq Hr].
  exists res. split_and!; [exact Hsw|exact Hscore|exact Hq|exact Hr].
Defined.

(** C8, as it is stated, fails on the one-byte sequence 0xC3: the score
    is 2, but both aligned strings are the two bytes 0xC3 0x83, the UTF-8
    encoding of the code point U+00C3 that [string(query[row-1])]
    produces. *)
Lemma self_alignment_not_identity :
  ∃ res,
    SmithWaterman ["195"%byte] ["195"%byte] = Some res ∧
    MaxScore res = 2%Z ∧
    AlignedQuery res = ["195"; "131"]%byte ∧
    AlignedRef res = ["195"; "131"]%byte ∧
    AlignedQuery res ≠ ["195"%byte] ∧
    AlignedRef res ≠ ["195"%byte].
Proof. eexists. split; [reflexivity|]. done. Qed.

(** ** Schedules that run to the end *)

Lemma run_schedule_app {Ev St : Type} (step : Ev → St → outcome St)
    (sched1 sched2 : list Ev) (s : St) :
  run_schedule step (sched1 ++ sched2) s =
  match run_schedule step sched1 s with
  | Next s' => run_schedule step sched2 s'
  | Blocked => Blocked
  | Panics => Panics
  end.
Proof.
  revert s. induction sched1 as [|ev sched1 IH]; intros s; [done|].
  simpl. destruct (step ev s); [apply IH|done..].
Qed.

(** When every state that is not final has an action that can run and
    that lowers a measure, some schedule reaches a final state. *)
Lemma run_schedule_completes {Ev St : Type} (step : Ev → St → outcome St)
    (P : St → Prop) (final : St → bool) (measure : St → nat) :
  (∀ s, P s → final s = false →
     ∃ ev s', step ev s = Next s' ∧ P s' ∧ measure s' < measure s) →
  ∀ s, P s →
    ∃ sched s', run_schedule step sched s = Next s' ∧ P s' ∧ final s' = true.
Proof.
  intros Hprogress s. remember (measure s) as k eqn:Hk. revert s Hk.
  induction (lt_wf k) as [k _ IH]. intros s -> Hs.
  destruct (final s) eqn:Hfinal.
  - exists [], s. done.
  - destruct (Hprogress s Hs Hfinal) as (ev & s1 & Hstep & Hs1 & Hlt).
    destruct (IH _ Hlt s1 eq_refl Hs1) as (sched & s' & Hrun & Hs' & Hf).
    exists (ev :: sched), s'. simpl. by rewrite Hstep.
Qed.

(** Replacing one element of a list moves the sum of a measure by the
    difference of the two elements. *)
Lemma sum_list_insert {A : Type} (f : A → nat) (l : list A) k x y :
  l !! k = Some x →
  sum_list (f <$> <[k := y]> l) + f x = sum_list (f <$> l) + f y.
Proof.
  revert k. induction l as [|a l IH]; intros [|k] Hk; simplify_eq/=.
  - lia.
  - specialize (IH k Hk). lia.
Qed.

Lemma sum_list_snoc {A : Type} (f : A → nat) (l : list A) x :
  sum_list (f <$> (l ++ [x])) = sum_list (f <$> l) + f x.
Proof. induction l as [|a l IH]; csimpl; lia. Qed.

Lemma sum_list_zero {A : Type} (f : A → nat) (l : list A) :
  sum_list (f <$> l) = 0 ↔ Forall (λ x, f x = 0) l.
Proof.
  induction l as [|a l IH]; csimpl.
  - split; [by constructor|done].
  - rewrite Forall_cons, <- IH. lia.
Qed.

Lemma sum_list_lookup_le {A : Type} (f : A → nat) (l : list A) k x :
  l !! k = Some x → f x ≤ sum_list (f <$> l).
Proof.
  intros Hk. pose proof (sum_list_insert f l k x x Hk) as Heq.
  rewrite list_insert_id in Heq by done.
  revert k Hk Heq. induction l as [|a l IH]; intros [|k] Hk _; simplify_eq/=.
  - lia.
  - specialize (IH k Hk). pose proof (sum_list_insert f l k x x Hk) as Heq.
    rewrite list_insert_id in Heq by done. specialize (IH Heq). lia.
Qed.

(** ** Invariants of the parallel fill, whatever the schedule *)

(** An invariant of the steps holds after every schedule, and no schedule
    panics. *)
Lemma run_schedule_inv {Ev St : Type} (step : Ev → St → outcome St)
    (P : St → Prop) :
  (∀ ev s, P s → step ev s ≠ Panics ∧ ∀ s', step ev s = Next s' → P s') →
  ∀ sched s, P s →
    run_schedule step sched s ≠ Panics ∧
    ∀ s', run_schedule step sched s = Next s' → P s'.
Proof.
  intros Hstep sched. induction sched as [|ev sched IH]; intros s Hs.
  - simpl. split; [done|]. by intros s' [= <-].
  - simpl. destruct (Hstep ev s Hs) as [Hnp Hnext].
    destruct (step ev s) as [s1| |]; [|done..]. apply IH. by apply Hnext.
Qed.

Section parallel_invariant.
Context (query reference : gostring).
Abbreviation m := (length query).
Abbreviation n := (length reference).

(** What one action of a wave goroutine does to the invariant and to the
    number of actions the goroutine has left: it never panics, and it is
    blocked only when the goroutine has ended. *)
Lemma wave_step_spec s t :
  shared_ok m n s → wave_task_ok m n t →
  match wave_step query reference s t with
  | Next (s', t') =>
      shared_ok m n s' ∧ wave_task_ok m n t' ∧
      ps_tasks s' = ps_tasks s ∧ ps_wave s' = ps_wave s ∧
      wave_left m t' < wave_left m t
  | Blocked => wt_pc t = WaveDone
  | Panics => False
  end.
Proof.
  intros Hsh [Hi Hpc]. pose proof Hsh as (HM & Hnn & Hr & Hc).
  assert (∀ pc, wave_task_ok m n (at_pc t pc) →
                wave_left m (at_pc t pc) < wave_left m t →
                shared_ok m n s ∧ wave_task_ok m n (at_pc t pc) ∧
                ps_tasks s = ps_tasks s ∧ ps_wave s = ps_wave s ∧
                wave_left m (at_pc t pc) < wave_left m t) as Hlocal by done.
  unfold wave_step.
  destruct (wt_pc t) as [|mt|sd|sd su|sd su sl| |] eqn:Epc.
  - destruct (bool_decide (wt_i t ≤ m) && bool_decide (wt_i t < wt_waveFront t))
      eqn:Htest; cycle 1.
    { apply Hlocal; [split; simpl; [lia|done]|].
      unfold wave_left. rewrite Epc. simpl. lia. }
    apply andb_true_iff in Htest as [Him Hiw].
    apply bool_decide_eq_true in Him, Hiw.
    destruct (bool_decide (wt_waveFront t - wt_i t < 1)
              || bool_decide (n < wt_waveFront t - wt_i t)) eqn:Hj.
    { split_and!; try done; [split; simpl; [lia|done]|].
      unfold wave_left. rewrite Epc. simpl. lia. }
    apply orb_false_iff in Hj as [Hj1 Hjn].
    apply bool_decide_eq_false in Hj1, Hjn.
    destruct (lookup_lt_is_Some_2 query (wt_i t - 1)) as [qb ->]; [lia|].
    destruct (lookup_lt_is_Some_2 reference (wt_waveFront t - wt_i t - 1))
      as [rb ->]; [lia|].
    simpl. apply Hlocal; [split; simpl; lia|].
    unfold wave_left. rewrite Epc. simpl. lia.
  - destruct (cell_is_Some _ _ (ps_matrix s) (wt_i t - 1)
                (wt_waveFront t - wt_i t - 1) HM) as [d ->]; [lia..|].
    simpl. apply Hlocal; [done|]. unfold wave_left. rewrite Epc. simpl. lia.
  - destruct (cell_is_Some _ _ (ps_matrix s) (wt_i t - 1)
                (wt_waveFront t - wt_i t) HM) as [u ->]; [lia..|].
    simpl. apply Hlocal; [done|]. unfold wave_left. rewrite Epc. simpl. lia.
  - destruct (cell_is_Some _ _ (ps_matrix s) (wt_i t)
                (wt_waveFront t - wt_i t - 1) HM) as [l ->]; [lia..|].
    simpl. apply Hlocal; [done|]. unfold wave_left. rewrite Epc. simpl. lia.
  - rewrite smithMax_four. simpl.
    destruct (set_cell_is_Some _ _ (ps_matrix s) (wt_i t)
                (wt_waveFront t - wt_i t)
                (Z.max (Z.max (Z.max 0 sd) su) sl) HM) as [M' HM']; [lia..|].
    rewrite HM'. simpl.
    split_and!; [|split; simpl; [lia|done]|done|done|].
    + unfold shared_ok. simpl. split_and!; [|  |done|done].
      * by eapply set_cell_dims.
      * intros i j v Hv.
        destruct (decide ((i, j) = (wt_i t, wt_waveFront t - wt_i t)))
          as [[= -> ->]|Hne].
        -- rewrite (cell_set_cell_eq _ _ _ _ _ HM') in Hv.
           injection Hv as <-. lia.
        -- rewrite (cell_set_cell_ne _ _ _ _ _ _ _ HM' Hne) in Hv.
           by eapply Hnn.
    + unfold wave_left. rewrite Epc. simpl. lia.
  - destruct (cell_is_Some _ _ (ps_matrix s) (wt_i t)
                (wt_waveFront t - wt_i t) HM) as [v ->]; [lia..|].
    assert (wave_left m (next_iteration t) < wave_left m t) as Hless.
    { unfold wave_left. rewrite Epc. simpl. lia. }
    assert (wave_task_ok m n (next_iteration t)) as Hok'.
    { split; simpl; [lia|done]. }
    simpl. repeat case_bool_decide; simpl; (split_and!; [|done..]);
      unfold shared_ok; simpl; split_and!; (done || lia).
  - done.
Qed.

Lemma wave_step_inv s t :
  shared_ok m n s → wave_task_ok m n t →
  wave_step query reference s t ≠ Panics ∧
  ∀ s' t', wave_step query reference s t = Next (s', t') →
    shared_ok m n s' ∧ wave_task_ok m n t' ∧
    ps_tasks s' = ps_tasks s ∧ ps_wave s' = ps_wave s.
Proof.
  intros Hsh Ht. pose proof (wave_step_spec s t Hsh Ht) as Hspec.
  destruct (wave_step query reference s t) as [[s1 t1]| |]; [|done..].
  split; [done|]. intros s' t' [= <- <-]. by destruct Hspec as (?&?&?&?&?).
Qed.

Lemma par_step_inv ev s :
  par_inv m n s →
  par_step query reference ev s ≠ Panics ∧
  ∀ s', par_step query reference ev s = Next s' → par_inv m n s'.
Proof.
  intros [Hsh Hts]. destruct ev as [|k]; simpl.
  - case_bool_decide; [|done]. split; [done|]. intros s' [= <-].
    split; [done|]. simpl. apply Forall_app. split; [done|].
    apply Forall_singleton. split; simpl; [lia|done].
  - destruct (ps_tasks s !! k) as [t|] eqn:Ht; [|done].
    rewrite Forall_lookup in Hts.
    destruct (wave_step_inv s t Hsh (Hts _ _ Ht)) as [Hnp Hnext].
    destruct (wave_step query reference s t) as [[s1 t1]| |]; [|done..].
    split; [done|]. intros s' [= <-].
    destruct (Hnext _ _ eq_refl) as (Hsh1 & Ht1 & Htasks & _).
    split; [done|]. simpl. rewrite Htasks. apply Forall_insert; [|done].
    by apply Forall_lookup.
Qed.

Lemma par_inv_init : par_inv m n (par_init m n).
Proof.
  split; [|by apply Forall_nil]. split_and!; simpl; [|  |lia..].
  - apply make_matrix_dims.
  - intros i j v Hv.
    destruct (cell_Some_inv _ _ _ _ _ _ (make_matrix_dims m n) Hv).
    rewrite cell_make_matrix in Hv by done. by injection Hv as <-.
Qed.

Lemma par_step_measure ev s s' :
  par_inv m n s → par_step query reference ev s = Next s' →
  par_measure m n s' < par_measure m n s.
Proof.
  intros [Hsh Hts]. unfold par_measure. destruct ev as [|k]; simpl.
  - case_bool_decide as Hw; [|done]. intros [= <-]. simpl.
    rewrite sum_list_snoc. unfold wave_left at 2. simpl.
    replace (m + n + 1 - ps_wave s) with (S (m + n + 1 - S (ps_wave s))) by lia.
    rewrite Nat.mul_succ_l. lia.
  - destruct (ps_tasks s !! k) as [t|] eqn:Ht; [|done].
    rewrite Forall_lookup in Hts.
    pose proof (wave_step_spec s t Hsh (Hts _ _ Ht)) as Hspec.
    destruct (wave_step query reference s t) as [[s1 t1]| |]; [|done..].
    destruct Hspec as (_ & _ & Htasks & Hwave & Hless). intros [= <-]. simpl.
    rewrite Htasks, Hwave.
    pose proof (sum_list_insert (wave_left m) _ k t t1 Ht). lia.
Qed.

Lemma par_joined_false s :
  par_joined query reference s = false →
  ps_wave s ≤ m + n ∨ ∃ k t, ps_tasks s !! k = Some t ∧ wt_pc t ≠ WaveDone.
Proof.
  unfold par_joined. intros Hj.
  destruct (decide (ps_wave s ≤ m + n)) as [?|Hw]; [by left|right].
  rewrite bool_decide_eq_true_2 in Hj by lia. simpl in Hj.
  induction (ps_tasks s) as [|t ts IH]; [done|]. simpl in Hj.
  destruct (wt_pc t) eqn:Hpc;
    try (exists 0, t; split; [done|]; rewrite Hpc; done).
  destruct (IH Hj) as (k & t' & Hk & Ht'). by exists (S k), t'.
Qed.

(** No deadlock: until [wg.Wait()] returns some action can run, and
    every action brings the return closer. *)
Lemma par_progress s :
  par_inv m n s → par_joined query reference s = false →
  ∃ ev s', par_step query reference ev s = Next s' ∧ par_inv m n s' ∧
           par_measure m n s' < par_measure m n s.
Proof.
  intros Hinv Hj.
  assert (∀ ev s', par_step query reference ev s = Next s' →
            ∃ ev s', par_step query reference ev s = Next s' ∧
                     par_inv m n s' ∧ par_measure m n s' < par_measure m n s)
    as Hdone.
  { intros ev s' Hstep. exists ev, s'. split_and!; [done| |].
    - by eapply par_step_inv.
    - by eapply par_step_measure. }
  destruct (par_joined_false s Hj) as [Hw|(k & t & Hk & Hpc)].
  - eapply (Hdone Dispatch). simpl. by rewrite bool_decide_eq_true_2.
  - destruct Hinv as [Hsh Hts]. rewrite Forall_lookup in Hts.
    pose proof (wave_step_spec s t Hsh (Hts _ _ Hk)) as Hspec.
    destruct (wave_step query reference s t) as [[s1 t1]| |] eqn:Hstep;
      [|by destruct Hpc|by destruct Hspec].
    eapply (Hdone (Wave k)). simpl. rewrite Hk, Hstep. reflexivity.
Qed.

(** Whatever the schedule, the goroutines do not panic, and the state
    they leave satisfies the invariant. *)
Lemma par_run_inv sched :
  run_schedule (par_step query reference) sched (par_init m n) ≠ Panics ∧
  ∀ s, run_schedule (par_step query reference) sched (par_init m n) = Next s →
       par_inv m n s.
Proof.
  apply (run_schedule_inv _ (par_inv m n)); [|apply par_inv_init].
  intros ev s. apply par_step_inv.
Qed.
End parallel_invariant.

(** The parallel aligner does not panic, and the matrix it returns has the
    size of the two sequences, a zero border and no negative cell. *)
Lemma ParallelSmithWaterman_ok gomaxprocs query reference numWorkers sched :
  ParallelSmithWaterman gomaxprocs query reference numWorkers sched ≠ Panics ∧
  ∀ res,
    ParallelSmithWaterman gomaxprocs query reference numWorkers sched = Next res →
    dims (length query) (length reference) (par_ScoreMatrix res) ∧
    ∀ i j v, cell (par_ScoreMatrix res) i j = Some v →
      (0 ≤ v)%Z ∧ (i = 0 ∨ j = 0 → v = 0%Z).
Proof.
  unfold ParallelSmithWaterman. case_match.
  - destruct (SmithWaterman_total query reference)
      as (s & aq & ar & _ & HM & _ & _ & ->).
    simpl. split; [done|]. intros res [= <-]. simpl. split; [apply HM|].
    intros i j v Hv. split; [by eapply sw_matrix_nonneg|].
    intros H0. destruct HM as (Hdims & Hzero & _).
    destruct (cell_Some_inv _ _ _ _ _ _ Hdims Hv).
    rewrite Hzero in Hv by done. by injection Hv as <-.
  - destruct (par_run_inv query reference sched) as [Hnp Hinv].
    destruct (run_schedule _ sched _) as [s| |]; [|done..].
    destruct (Hinv s eq_refl) as [(HM & Hcells & Hr & Hc) _].
    case_match; [|done]. unfold parallelTraceback.
    destruct (traceback_loop_is_Some (ps_matrix s) query reference
                (ps_maxRow s + ps_maxCol s) (ps_maxRow s) (ps_maxCol s) [] []
                HM Hr Hc) as [al ->].
    simpl. split; [done|]. by intros res [= <-].
Qed.

(** Every execution of the parallel aligner, however far it has got, can
    be continued to the return of the call. *)
Lemma ParallelSmithWaterman_completes gomaxprocs query reference numWorkers
    sched s :
  run_schedule (par_step query reference) sched
    (par_init (length query) (length reference)) = Next s →
  ∃ rest res,
    ParallelSmithWaterman gomaxprocs query reference numWorkers (sched ++ rest)
      = Next res.
Proof.
  intros Hs. unfold ParallelSmithWaterman. case_match.
  - destruct (SmithWaterman_total query reference)
      as (fs & aq & ar & _ & _ & _ & _ & ->).
    exists []. eexists. done.
  - destruct (par_run_inv query reference sched) as [_ Hinv].
    destruct (run_schedule_completes (par_step query reference)
                (par_inv (length query) (length reference))
                (par_joined query reference)
                (par_measure (length query) (length reference))) with (s := s)
      as (rest & s' & Hrest & Hs' & Hfinal).
    + intros s0. apply par_progress.
    + by apply Hinv.
    + destruct Hs' as [(HM & _ & Hr & Hc) _].
      destruct (traceback_loop_is_Some (ps_matrix s') query reference
                  (ps_maxRow s' + ps_maxCol s') (ps_maxRow s') (ps_maxCol s')
                  [] [] HM Hr Hc) as [al Hal].
      exists rest. eexists. rewrite run_schedule_app, Hs, Hrest, Hfinal.
      unfold parallelTraceback. rewrite Hal. done.
Qed.

(** ** The sums of the aligners do not wrap around *)

Section bounded_cells.
Context (query reference : gostring).
Abbreviation m := (length query).
Abbreviation n := (length reference).

Lemma wave_step_bounded s t s' t' :
  wave_task_ok m n t → cells_bounded (ps_matrix s) → locals_bounded t →
  wave_step query reference s t = Next (s', t') →
  cells_bounded (ps_matrix s') ∧ locals_bounded t'.
Proof.
  intros [Hi Hpc] Hcells Hloc. unfold wave_step, locals_bounded in *.
  destruct (wt_pc t) as [|mt|sd|sd su|sd su sl| |] eqn:Epc.
  - destruct (_ && _); [|by intros [= <- <-]].
    destruct (_ || _); [by intros [= <- <-]|].
    destruct (query !! _) as [qb|]; [|done].
    destruct (reference !! _) as [rb|]; [|done].
    simpl. intros [= <- <-]. split; [done|]. simpl.
    destruct (match_score_cases qb rb) as [-> | ->];
      unfold MatchScore, MismatchScore; lia.
  - destruct (cell _ _ _) as [d|] eqn:Hd; [|done].
    simpl. intros [= <- <-]. split; [done|]. simpl.
    apply Hcells in Hd. unfold MatchScore in *. lia.
  - destruct (cell _ _ _) as [u|] eqn:Hu; [|done].
    simpl. intros [= <- <-]. split; [done|]. simpl.
    apply Hcells in Hu. unfold GapPenalty. lia.
  - destruct (cell _ _ _) as [l|] eqn:Hl; [|done].
    simpl. intros [= <- <-]. split; [done|]. simpl.
    apply Hcells in Hl. unfold GapPenalty. lia.
  - rewrite smithMax_four. simpl.
    destruct (set_cell _ _ _ _) as [M'|] eqn:HM'; [|done].
    simpl. intros [= <- <-]. split; [|done]. simpl.
    intros i j v Hv.
    destruct (decide ((i, j) = (wt_i t, wt_waveFront t - wt_i t)))
      as [[= -> ->]|Hne].
    + rewrite (cell_set_cell_eq _ _ _ _ _ HM') in Hv. injection Hv as <-. lia.
    + rewrite (cell_set_cell_ne _ _ _ _ _ _ _ HM' Hne) in Hv. by apply Hcells.
  - destruct (cell _ _ _) as [v|]; [|done]. simpl.
    repeat case_bool_decide; by intros [= <- <-].
  - done.
Qed.

Lemma par_step_bounded ev s :
  bounded_inv m n s →
  par_step query reference ev s ≠ Panics ∧
  ∀ s', par_step query reference ev s = Next s' → bounded_inv m n s'.
Proof.
  intros (Hinv & Hcells & Hlocs).
  destruct (par_step_inv query reference ev s Hinv) as [Hnp Hnext].
  split; [done|]. intros s' Hs'. split; [by apply Hnext|].
  destruct Hinv as [Hsh Hts]. destruct ev as [|k]; simpl in Hs'.
  - case_bool_decide; [|done]. injection Hs' as <-. simpl. split; [done|].
    apply Forall_app. split; [done|]. by apply Forall_singleton.
  - destruct (ps_tasks s !! k) as [t|] eqn:Ht; [|done].
    rewrite Forall_lookup in Hts. rewrite Forall_lookup in Hlocs.
    destruct (wave_step_inv query reference s t Hsh (Hts _ _ Ht))
      as [_ Hstep].
    destruct (wave_step query reference s t) as [[s1 t1]| |] eqn:Hw; [|done..].
    injection Hs' as <-.
    destruct (Hstep _ _ eq_refl) as (_ & _ & Htasks & _).
    destruct (wave_step_bounded s t s1 t1 (Hts _ _ Ht) Hcells (Hlocs _ _ Ht) Hw)
      as [Hcells1 Hloc1].
    simpl. split; [done|]. rewrite Htasks. apply Forall_insert; [|done].
    by apply Forall_lookup.
Qed.

Lemma bounded_inv_init : bounded_inv m n (par_init m n).
Proof.
  split; [apply par_inv_init|]. split; [|by apply Forall_nil].
  intros i j v Hv. simpl in Hv.
  destruct (cell_Some_inv _ _ _ _ _ _ (make_matrix_dims m n) Hv).
  rewrite cell_make_matrix in Hv by done. injection Hv as <-. lia.
Qed.
End bounded_cells.

Lemma cells_bounded_exact_sums m n (M : matrix) :
  dims m n M →
  (∀ i j v, cell M i j = Some v → (0 ≤ v)%Z) →
  cells_bounded M →
  (Z.of_nat (m `min` n) < 2 ^ 61)%Z →
  exact_sums M.
Proof.
  intros HM Hnn Hcells Hlen i j v Hv.
  destruct (cell_Some_inv _ _ _ _ _ _ HM Hv) as [Hi Hj].
  apply Hnn in Hv as Hlow. apply Hcells in Hv. lia.
Qed.

(** The matrices the two aligners hand to their tracebacks have cells two
    away from the limits of [int], under every schedule of the goroutines:
    a cell is never above twice the smaller of its indices, whatever its
    three neighbours held when they were read. *)
Lemma SmithWaterman_exact_sums query reference res :
  (Z.of_nat (length query `min` length reference) < 2 ^ 61)%Z →
  SmithWaterman query reference = Some res →
  exact_sums (ScoreMatrix res).
Proof.
  intros Hlen Hres.
  destruct (SmithWaterman_total query reference)
    as (s & aq & ar & _ & HM & _ & _ & Hsw).
  rewrite Hsw in Hres. injection Hres as <-. simpl.
  by eapply sw_matrix_exact_sums.
Qed.

Lemma ParallelSmithWaterman_exact_sums gomaxprocs query reference numWorkers
    sched res :
  (Z.of_nat (length query `min` length reference) < 2 ^ 61)%Z →
  ParallelSmithWaterman gomaxprocs query reference numWorkers sched = Next res →
  exact_sums (par_ScoreMatrix res).
Proof.
  intros Hlen. unfold ParallelSmithWaterman. case_match.
  - destruct (SmithWaterman_total query reference)
      as (s & aq & ar & _ & HM & _ & _ & Hsw).
    rewrite Hsw. simpl. intros [= <-]. simpl. by eapply sw_matrix_exact_sums.
  - destruct (run_schedule_inv (par_step query reference)
                (bounded_inv (length query) (length reference))
                (par_step_bounded query reference) sched
                (par_init (length query) (length reference))
                (bounded_inv_init query reference)) as [_ Hinv].
    destruct (run_schedule _ sched _) as [s| |]; [|done..].
    destruct (Hinv s eq_refl) as ([(HM & Hnn & _) _] & Hcells & _).
    case_match; [|done].
    destruct (parallelTraceback _ _ _ _ _) as [al|]; [|done].
    simpl. intros [= <-]. simpl.
    eapply cells_bounded_exact_sums; [done| |done|done].
    intros i j v Hv. by apply (Hnn i j v).
Qed.

(** So the aligned strings the two aligners return are those the
    tracebacks of Go compute. *)
Lemma aligners_run_traceback_int gomaxprocs query reference numWorkers sched :
  (Z.of_nat (length query `min` length reference) < 2 ^ 61)%Z →
  (∀ res, SmithWaterman query reference = Some res →
     ∃ s, sw_fill query reference = Some s ∧
       traceback_int (ScoreMatrix res) query reference
         (Z.of_nat (fs_maxRow s)) (Z.of_nat (fs_maxCol s))
       = Some (AlignedQuery res, AlignedRef res)) ∧
  (∀ res, 50 ≤ length query → 50 ≤ length reference →
     ParallelSmithWaterman gomaxprocs query reference numWorkers sched
       = Next res →
     parallelTraceback_int (par_ScoreMatrix res) query reference
       (Z.of_nat (par_MaxRow res)) (Z.of_nat (par_MaxCol res))
     = Some (par_AlignedQuery res, par_AlignedRef res)).
Proof.
  intros Hlen. split.
  - intros res Hres.
    pose proof (SmithWaterman_exact_sums _ _ _ Hlen Hres) as Hexact.
    destruct (SmithWaterman_total query reference)
      as (s & aq & ar & Hs & _ & _ & Htb & Hsw).
    rewrite Hsw in Hres. injection Hres as <-. simpl in *.
    exists s. split; [done|].
    rewrite (traceback_int_exact _ _ _ Hexact). by rewrite !Nat2Z.id.
  - intros res Hm Hn Hres.
    pose proof (ParallelSmithWaterman_exact_sums _ _ _ _ _ _ Hlen Hres)
      as Hexact.
    unfold parallelTraceback_int.
    change (traceback_int_loop _ _ _ _ _ _ [] [])
      with (traceback_int (par_ScoreMatrix res) query reference
              (Z.of_nat (par_MaxRow res)) (Z.of_nat (par_MaxCol res))).
    rewrite (traceback_int_exact _ _ _ Hexact), !Nat2Z.id.
    unfold ParallelSmithWaterman in Hres.
    rewrite (bool_decide_eq_false_2 (length query < 50)) in Hres by lia.
    rewrite (bool_decide_eq_false_2 (length reference < 50)) in Hres by lia.
    simpl in Hres.
    destruct (run_schedule _ sched _) as [s| |]; [|done..].
    destruct (par_joined _ _ _); [|done]. unfold parallelTraceback in Hres.
    unfold traceback.
    destruct (traceback_loop _ (ps_matrix s) _ _ _ _ _ _) as [[aq ar]|] eqn:Htb;
      [|done].
    simpl in Hres. by injection Hres as <-.
Qed.

(** C3. For every pair of sequences the sequential aligner returns a
    matrix of [len(query) + 1] rows and [len(reference) + 1] columns in
    which row 0 and column 0 are 0 and every cell is at least 0; and
    whatever the worker count and the schedule of its goroutines, the
    parallel aligner does not panic, every matrix it returns has the same
    three properties, and every execution can be continued to a return. *)
Theorem score_matrix_nonnegative (gomaxprocs : Z) (query reference : gostring) :
  (∃ res,
     SmithWaterman query reference = Some res ∧
     dims (length query) (length reference) (ScoreMatrix res) ∧
     ∀ i j, i ≤ length query → j ≤ length reference →
       ∃ v, cell (ScoreMatrix res) i j = Some v ∧ (0 ≤ v)%Z ∧
            (i = 0 ∨ j = 0 → v = 0%Z)) ∧
  (∀ numWorkers sched,
     ParallelSmithWaterman gomaxprocs query reference numWorkers sched ≠ Panics) ∧
  (∀ numWorkers sched res,
     ParallelSmithWaterman gomaxprocs query reference numWorkers sched = Next res →
     dims (length query) (length reference) (par_ScoreMatrix res) ∧
     ∀ i j, i ≤ length query → j ≤ length reference →
       ∃ v, cell (par_ScoreMatrix res) i j = Some v ∧ (0 ≤ v)%Z ∧
            (i = 0 ∨ j = 0 → v = 0%Z)) ∧
  (∀ numWorkers sched s,
     run_schedule (par_step query reference) sched
       (par_init (length query) (length reference)) = Next s →
     ∃ rest res,
       ParallelSmithWaterman gomaxprocs query reference numWorkers
         (sched ++ rest) = Next res).
Proof.
  split_and!; [| | |intros numWorkers sched s;
                    apply ParallelSmithWaterman_completes].
  - destruct (SmithWaterman_total query reference)
      as (s & aq & ar & _ & HM & _ & _ & Hsw).
    eexists. split; [exact Hsw|]. simpl. split; [apply HM|].
    intros i j Hi Hj.
    destruct (cell_is_Some _ _ _ i j (proj1 HM) Hi Hj) as [v Hv].
    exists v. split_and!; [done|by eapply sw_matrix_nonneg|].
    intros H0. destruct HM as (_ & Hzero & _).
    rewrite Hzero in Hv by done. by injection Hv as <-.
  - intros numWorkers sched. apply ParallelSmithWaterman_ok.
  - intros numWorkers sched res Hres.
    destruct (ParallelSmithWaterman_ok gomaxprocs query reference numWorkers
                sched) as [_ Hok].
    destruct (Hok res Hres) as [HM Hcells]. split; [done|].
    intros i j Hi Hj. destruct (cell_is_Some _ _ _ i j HM Hi Hj) as [v Hv].
    exists v. split; [done|]. by eapply Hcells.
Qed.

(** ** Two schedules of the wave goroutines *)

(** C1 on the code.  Below the threshold the parallel aligner returns the
    score of the sequential one.  At the threshold it does not: for two
    sequences of fifty 'A' the sequential score is 100, and the schedule
    that runs the goroutines in the order of their waves gives 100 as
    well; but nothing makes a wave wait for the one before it, so the
    schedule that runs the goroutine of the last wave first and the others
    in order after it is an execution too, and it returns the score 98;
    the schedule that runs the goroutines in the reverse order of their
    waves returns the score 2 and two empty aligned strings. *)
Theorem parallel_score_depends_on_schedule (gomaxprocs numWorkers : Z) :
  (∀ query reference sched,
     length query < 50 ∨ length reference < 50 →
     ∃ seq_res par_res,
       SmithWaterman query reference = Some seq_res ∧
       ParallelSmithWaterman gomaxprocs query reference numWorkers sched
         = Next par_res ∧
       par_MaxScore par_res = MaxScore seq_res) ∧
  MaxScore <$> SmithWaterman fifty_A fifty_A = Some 100%Z ∧
  (∃ res,
     ParallelSmithWaterman gomaxprocs fifty_A fifty_A numWorkers
       (run_to_end 50 50 (seq 0 99)) = Next res ∧
     par_MaxScore res = 100%Z) ∧
  (∃ res,
     ParallelSmithWaterman gomaxprocs fifty_A fifty_A numWorkers
       (run_to_end 50 50 (98 :: seq 0 98)) = Next res ∧
     par_MaxScore res = 98%Z) ∧
  (∃ res,
     ParallelSmithWaterman gomaxprocs fifty_A fifty_A numWorkers
       (run_to_end 50 50 (reverse (seq 0 99))) = Next res ∧
     par_MaxScore res = 2%Z ∧
     par_AlignedQuery res = [] ∧ par_AlignedRef res = []).
Proof.
  split_and!.
  - intros query reference sched Hsmall.
    destruct (SmithWaterman_total query reference)
      as (s & aq & ar & _ & _ & _ & _ & Hsw).
    eexists _, _. split; [exact Hsw|]. unfold ParallelSmithWaterman.
    assert (bool_decide (length query < 50)
            || bool_decide (length reference < 50) = true) as ->.
    { apply orb_true_iff.
      destruct Hsmall; [left|right]; by apply bool_decide_eq_true. }
    rewrite Hsw. simpl. done.
  - vm_compute. reflexivity.
  - eexists. split; [vm_compute; reflexivity|]. reflexivity.
  - eexists. split; [vm_compute; reflexivity|]. reflexivity.
  - eexists. split; [vm_compute; reflexivity|]. done.
Qed.

(** C2 on the code.  The dispatch loop starts the goroutine of every wave
    without waiting for the one before it.  With two sequences of fifty
    'A', after two iterations of the dispatch loop and thirteen actions of
    the goroutine of wave 3, that goroutine has ended and has written the
    two cells (1, 2) and (2, 1) of its diagonal, while the goroutine of
    wave 2 has not run its first action and cell (1, 1) still holds the 0
    of the allocation; the schedule goes on to a complete execution. *)
Theorem waves_are_not_separated (gomaxprocs numWorkers : Z) :
  ∃ s rest res,
    run_schedule (par_step fifty_A fifty_A)
      ([Dispatch; Dispatch] ++ replicate 13 (Wave 1)) (par_init 50 50) = Next s ∧
    ps_tasks s = [ {| wt_waveFront := 2; wt_i := 1; wt_pc := AtLoopTest |};
                   {| wt_waveFront := 3; wt_i := 3; wt_pc := WaveDone |} ] ∧
    cell (ps_matrix s) 1 2 = Some 2%Z ∧
    cell (ps_matrix s) 2 1 = Some 2%Z ∧
    cell (ps_matrix s) 1 1 = Some 0%Z ∧
    ParallelSmithWaterman gomaxprocs fifty_A fifty_A numWorkers
      (([Dispatch; Dispatch] ++ replicate 13 (Wave 1)) ++ rest) = Next res.
Proof.
  eexists _, (replicate 97 Dispatch ++
              (([0] ++ seq 2 97) ≫= λ k, replicate (wave_actions 50 50 (k + 2)) (Wave k))), _.
  split_and!; [vm_compute; reflexivity|done..|vm_compute; reflexivity].
Qed.


(** ** The batch aligner under every schedule *)

Section batch_invariant.
Context (query : gostring) (references : list gostring) (capacity : nat).

Lemma batch_step_inv ev s :
  batch_inv query references s →
  batch_step query references capacity ev s ≠ Panics ∧
  ∀ s', batch_step query references capacity ev s = Next s' →
    batch_inv query references s' ∧
    batch_measure references s' + 1 = batch_measure references s.
Proof.
  intros (Hres & Hlen & Hnext & Htasks & Hsem & Hwg).
  destruct ev as [|k]; simpl.
  - destruct (references !! bs_next s) as [ref|] eqn:Href; [|done].
    case_bool_decide; [|done]. split; [done|]. intros s' [= <-].
    apply lookup_lt_Some in Href as Hlt.
    unfold batch_inv, batch_measure. simpl.
    rewrite length_app, !sum_list_snoc. cbn.
    split_and!; [done|lia|lia| |lia|lia|lia].
    intros k t Hk. destruct (decide (k < length (bs_tasks s))) as [Hin|Hout].
    + rewrite lookup_app_l in Hk by done. by apply Htasks.
    + rewrite lookup_app_r in Hk by lia.
      destruct (k - length (bs_tasks s)) as [|?] eqn:Hd; [|done].
      injection Hk as <-. simpl.
      assert (k = bs_next s) as -> by lia. done.
  - destruct (bs_tasks s !! k) as [t|] eqn:Ht; [|done].
    destruct (Htasks k t Ht) as (Hidx & Href & Hstored).
    apply lookup_lt_Some in Ht as Hk.
    unfold batch_task_step. destruct (bt_pc t) eqn:Epc.
    + destruct (SmithWaterman_total query (bt_reference t))
        as (fs & aq & ar & _ & _ & _ & _ & Hsw).
      rewrite Hsw. simpl. rewrite bool_decide_eq_true_2 by lia. simpl.
      split; [done|]. intros s' [= <-].
      unfold batch_inv, batch_measure. simpl. rewrite !length_insert.
      pose proof (sum_list_insert holds_token _ k t (batch_at t AtRelease) Ht).
      pose proof (sum_list_insert counted _ k t (batch_at t AtRelease) Ht).
      pose proof (sum_list_insert actions_left _ k t (batch_at t AtRelease) Ht).
      unfold holds_token, counted, actions_left in *. simpl in *.
      rewrite Epc in *.
      split_and!; [done|done|done| |lia|lia|lia].
      intros k' t' Hk'. destruct (decide (k' = k)) as [->|Hne].
      * rewrite list_lookup_insert_eq in Hk' by done. injection Hk' as <-.
        simpl. split_and!; [done..|]. intros _.
        rewrite Hidx, list_lookup_insert_eq by lia. by rewrite Hsw.
      * rewrite list_lookup_insert_ne in Hk' by done.
        destruct (Htasks k' t' Hk') as (? & ? & Hst). split_and!; [done..|].
        intros Hpc. rewrite list_lookup_insert_ne by lia. by apply Hst.
    + pose proof (sum_list_lookup_le holds_token _ k t Ht) as Hle.
      pose proof (sum_list_insert holds_token _ k t (batch_at t AtWgDone) Ht).
      pose proof (sum_list_insert counted _ k t (batch_at t AtWgDone) Ht).
      pose proof (sum_list_insert actions_left _ k t (batch_at t AtWgDone) Ht).
      assert (holds_token t = 1) by (unfold holds_token; by rewrite Epc).
      destruct (bs_semaphore s) as [|tokens] eqn:Etok; [lia|].
      split; [done|]. intros s' [= <-].
      unfold batch_inv, batch_measure. simpl. rewrite !length_insert.
      unfold holds_token, counted, actions_left in *. simpl in *.
      rewrite Epc in *.
      split_and!; [done|done|done| |lia|lia|lia].
      intros k' t' Hk'. destruct (decide (k' = k)) as [->|Hne].
      * rewrite list_lookup_insert_eq in Hk' by done. injection Hk' as <-.
        simpl. split_and!; [done..|]. intros _. by apply Hstored.
      * rewrite list_lookup_insert_ne in Hk' by done. by apply Htasks.
    + pose proof (sum_list_lookup_le counted _ k t Ht) as Hle.
      pose proof (sum_list_insert holds_token _ k t (batch_at t BatchDone) Ht).
      pose proof (sum_list_insert counted _ k t (batch_at t BatchDone) Ht).
      pose proof (sum_list_insert actions_left _ k t (batch_at t BatchDone) Ht).
      assert (counted t = 1) by (unfold counted; by rewrite Epc).
      destruct (bs_wg s) as [|count] eqn:Ewg; [lia|].
      split; [done|]. intros s' [= <-].
      unfold batch_inv, batch_measure. simpl. rewrite !length_insert.
      unfold holds_token, counted, actions_left in *. simpl in *.
      rewrite Epc in *.
      split_and!; [done|done|done| |lia|lia|lia].
      intros k' t' Hk'. destruct (decide (k' = k)) as [->|Hne].
      * rewrite list_lookup_insert_eq in Hk' by done. injection Hk' as <-.
        simpl. split_and!; [done..|]. intros _. by apply Hstored.
      * rewrite list_lookup_insert_ne in Hk' by done. by apply Htasks.
    + done.
Qed.

Lemma batch_inv_init : batch_inv query references (batch_init references).
Proof.
  unfold batch_inv, batch_init. simpl. rewrite length_replicate.
  split_and!; [done|done|lia| |done|done]. intros k t Hk. done.
Qed.
End batch_invariant.

Section batch_progress.
Context (query : gostring) (references : list gostring) (capacity : nat).

(** A goroutine that has not ended can take its next action: its receive
    finds the token it sent, its [wg.Done()] finds its own count. *)
Lemma batch_worker_enabled k t s :
  batch_inv query references s →
  bs_tasks s !! k = Some t → bt_pc t ≠ BatchDone →
  ∃ s', batch_step query references capacity (Worker k) s = Next s'.
Proof.
  intros (Hres & Hlen & Hnext & Htasks & Hsem & Hwg) Ht Hpc. simpl.
  rewrite Ht. destruct (Htasks k t Ht) as (Hidx & _ & _).
  apply lookup_lt_Some in Ht as Hk.
  pose proof (sum_list_lookup_le holds_token _ k t Ht) as Hhold.
  pose proof (sum_list_lookup_le counted _ k t Ht) as Hcount.
  unfold batch_task_step, holds_token, counted in *.
  destruct (bt_pc t) eqn:Epc; [| | |done].
  - destruct (SmithWaterman_total query (bt_reference t))
      as (fs & aq & ar & _ & _ & _ & _ & Hsw).
    rewrite Hsw. simpl. rewrite bool_decide_eq_true_2 by lia. simpl. eauto.
  - destruct (bs_semaphore s); [lia|]. eauto.
  - destruct (bs_wg s); [lia|]. eauto.
Qed.

(** No deadlock: short of the end of the call some action can run, and
    it brings the end one action closer. *)
Lemma batch_progress s :
  (references ≠ [] → 1 ≤ capacity) →
  batch_inv query references s → batch_joined references s = false →
  ∃ ev s', batch_step query references capacity ev s = Next s' ∧
           batch_inv query references s' ∧
           batch_measure references s' < batch_measure references s.
Proof.
  intros Hcap Hinv Hnj.
  assert (∀ ev s', batch_step query references capacity ev s = Next s' →
            ∃ ev s', batch_step query references capacity ev s = Next s' ∧
                     batch_inv query references s' ∧
                     batch_measure references s' < batch_measure references s)
    as Hdone.
  { intros ev s' Hstep. exists ev, s'. split; [done|].
    destruct (batch_step_inv query references capacity ev s Hinv) as [_ Hnext].
    destruct (Hnext s' Hstep). split; [done|lia]. }
  destruct (decide (Forall (λ t, bt_pc t = BatchDone) (bs_tasks s)))
    as [Hall|Hsome].
  - destruct Hinv as (Hres & Hlen & Hnext & Htasks & Hsem & Hwg).
    assert (bs_semaphore s = 0) as Hsem0.
    { rewrite Hsem. apply sum_list_zero. eapply Forall_impl; [exact Hall|].
      intros t Ht. unfold holds_token. by rewrite Ht. }
    assert (bs_wg s = 0) as Hwg0.
    { rewrite Hwg. apply sum_list_zero. eapply Forall_impl; [exact Hall|].
      intros t Ht. unfold counted. by rewrite Ht. }
    unfold batch_joined in Hnj. rewrite (bool_decide_eq_true_2 _ Hwg0) in Hnj.
    rewrite andb_true_r in Hnj. apply bool_decide_eq_false in Hnj.
    destruct (lookup_lt_is_Some_2 references (bs_next s)) as [ref Href]; [lia|].
    eapply (Hdone Launch). simpl. rewrite Href.
    rewrite bool_decide_eq_true_2; [done|].
    rewrite Hsem0. apply Hcap. intros ->. done.
  - apply not_Forall_Exists in Hsome; [|apply _].
    apply Exists_exists in Hsome as (t & Hin & Hpc).
    apply list_elem_of_lookup in Hin as [k Hk].
    destruct (batch_worker_enabled k t s Hinv Hk Hpc) as [s' Hstep].
    by apply (Hdone (Worker k) s').
Qed.
End batch_progress.

Lemma batch_workers_positive gomaxprocs references numWorkers :
  (1 ≤ gomaxprocs)%Z →
  (0 ≤ batch_workers gomaxprocs references numWorkers)%Z ∧
  (references ≠ [] →
   1 ≤ Z.to_nat (batch_workers gomaxprocs references numWorkers)).
Proof.
  intros Hg. unfold batch_workers. split.
  - repeat case_bool_decide; lia.
  - intros Hne. assert (1 ≤ length references) by (destruct references; simpl; [done|lia]).
    repeat case_bool_decide; lia.
Qed.

(** C5. For every query, list of references and concurrency bound, and
    under every schedule of the goroutines, the list the batch aligner
    returns has the length of the list of references, and its element at
    every index [i] is the result of the sequential aligner on the query
    and reference [i].  With [runtime.GOMAXPROCS(0)] at least 1 the call
    does not panic under any schedule, and every execution, however far
    it has got, can be continued to the return of the call: there is no
    deadlock, whatever order the alignments complete in. *)
Theorem batch_results_in_order (gomaxprocs : Z) (query : gostring)
    (references : list gostring) (numWorkers : Z) :
  (∀ sched results,
     ConcurrentSmithWatermanBatch gomaxprocs query references numWorkers sched
       = Next results →
     length results = length references ∧
     ∀ i ref, references !! i = Some ref →
       results !! i = SmithWaterman query ref) ∧
  ((1 ≤ gomaxprocs)%Z →
   (∀ sched,
      ConcurrentSmithWatermanBatch gomaxprocs query references numWorkers sched
        ≠ Panics) ∧
   (∀ sched s,
      run_schedule
        (batch_step query references
           (Z.to_nat (batch_workers gomaxprocs references numWorkers)))
        sched (batch_init references) = Next s →
      ∃ rest results,
        ConcurrentSmithWatermanBatch gomaxprocs query references numWorkers
          (sched ++ rest) = Next results)).
Proof.
  set (capacity := Z.to_nat (batch_workers gomaxprocs references numWorkers)).
  pose proof (run_schedule_inv (batch_step query references capacity)
                (batch_inv query references)) as Hrun.
  assert (∀ sched,
            run_schedule (batch_step query references capacity) sched
              (batch_init references) ≠ Panics ∧
            ∀ s, run_schedule (batch_step query references capacity) sched
                   (batch_init references) = Next s →
                 batch_inv query references s) as Hinv.
  { intros sched. apply Hrun; [|apply batch_inv_init].
    intros ev s Hs.
    destruct (batch_step_inv query references capacity ev s Hs) as [Hnp Hn].
    split; [done|]. intros s' Hs'. by apply Hn. }
  split.
  - intros sched results. unfold ConcurrentSmithWatermanBatch.
    case_bool_decide; [done|]. fold capacity.
    destruct (Hinv sched) as [_ Hs].
    destruct (run_schedule _ sched _) as [s| |]; [|done..].
    destruct (batch_joined references s) eqn:Hj; [|done]. intros [= <-].
    destruct (Hs s eq_refl) as (Hres & Hlen & Hnext & Htasks & Hsem & Hwg).
    split; [done|]. intros i ref Hi.
    apply andb_true_iff in Hj as [Hend Hwg0].
    apply bool_decide_eq_true in Hend, Hwg0.
    apply lookup_lt_Some in Hi as Hlt.
    destruct (lookup_lt_is_Some_2 (bs_tasks s) i) as [t Ht]; [lia|].
    destruct (Htasks i t Ht) as (_ & Href & Hstored).
    rewrite Hwg in Hwg0. rewrite sum_list_zero, Forall_lookup in Hwg0.
    specialize (Hwg0 i t Ht). unfold counted in Hwg0.
    assert (ref = bt_reference t) as -> by congruence.
    apply Hstored. by destruct (bt_pc t).
  - intros Hg.
    destruct (batch_workers_positive gomaxprocs references numWorkers Hg)
      as [Hnn Hcap].
    split.
    + intros sched. unfold ConcurrentSmithWatermanBatch.
      rewrite bool_decide_eq_false_2 by lia. fold capacity.
      destruct (Hinv sched) as [Hnp _].
      destruct (run_schedule _ sched _) as [s| |]; [|done..]. by case_match.
    + intros sched s Hs. destruct (Hinv sched) as [_ Hs'].
      destruct (run_schedule_completes (batch_step query references capacity)
                  (batch_inv query references) (batch_joined references)
                  (batch_measure references)) with (s := s)
        as (rest & s' & Hrest & _ & Hfinal).
      * intros s0. by apply batch_progress.
      * by apply Hs'.
      * exists rest, (bs_results s'). unfold ConcurrentSmithWatermanBatch.
        rewrite bool_decide_eq_false_2 by lia. fold capacity.
        rewrite run_schedule_app, Hs, Hrest, Hfinal. done.
Qed.

(** The theorem at three references, two permits and a schedule in which
    the second alignment is the first to complete and the first is the
    last: the results come back in the order of the references. *)
Lemma batch_results_in_order_witness :
  (1 ≤ 8)%Z ∧
  (∃ results,
     ConcurrentSmithWatermanBatch 8 GATTACA three_references 2
       [Launch; Launch; Worker 1; Worker 1; Worker 1; Launch; Worker 2;
        Worker 0; Worker 2; Worker 2; Worker 0; Worker 0] = Next results ∧
     MaxScore <$> results = [14; 10; 11]%Z ∧
     length results = length three_references ∧
     ∀ i ref, three_references !! i = Some ref →
       results !! i = SmithWaterman GATTACA ref) ∧
  (∀ sched,
     ConcurrentSmithWatermanBatch 8 GATTACA three_references 2 sched ≠ Panics).
Proof.
  assert (1 ≤ 8)%Z as Hg by lia.
  destruct (batch_results_in_order 8 GATTACA three_references 2)
    as [Hresults Hlive].
  split_and!; [exact Hg| |exact (proj1 (Hlive Hg))].
  eexists. split; [vm_compute; reflexivity|]. split; [reflexivity|].
  apply (Hresults
           [Launch; Launch; Worker 1; Worker 1; Worker 1; Launch; Worker 2;
            Worker 0; Worker 2; Worker 2; Worker 0; Worker 0]).
  vm_compute. reflexivity.
Defined.

(** * Further properties of the engine and of the code around it *)

(** ** The score of an alignment *)

Lemma sum_Z_app l1 l2 : sum_Z (l1 ++ l2) = (sum_Z l1 + sum_Z l2)%Z.
Proof. unfold sum_Z. induction l1 as [|x l1 IH]; simpl; lia. Qed.

Lemma columns_score_snoc cols c :
  columns_score (cols ++ [c]) = (columns_score cols + column_score c)%Z.
Proof. unfold columns_score. rewrite fmap_app, sum_Z_app. simpl. lia. Qed.

Lemma byte_eqb_eq (a b : byte) : Byte.eqb a b = bool_decide (a = b).
Proof.
  case_bool_decide as H.
  - by apply byte_dec_lb.
  - destruct (Byte.eqb a b) eqn:E; [|done]. by apply byte_dec_bl in E.
Qed.

(** The loop of [calculateAlignmentScore] adds up [pair_score] over the
    positions of the query. *)
Lemma calculateAlignmentScore_spec (query reference : gostring) :
  length query ≤ length reference →
  calculateAlignmentScore query reference
  = Some (sum_Z (zip_with pair_score query reference)).
Proof.
  intros Hlen. unfold calculateAlignmentScore.
  set (body := λ (i : nat) (score : Z), _).
  assert (∀ count lo score, lo + count = length query →
            for_loop body lo count score
            = Some (score + sum_Z (zip_with pair_score (drop lo query)
                                     (drop lo reference)))%Z) as Hloop.
  { induction count as [|count IH]; intros lo score Hlo.
    - simpl. rewrite (drop_ge query) by lia. simpl. f_equal. lia.
    - destruct (lookup_lt_is_Some_2 query lo) as [qb Hqb]; [lia|].
      destruct (lookup_lt_is_Some_2 reference lo) as [rb Hrb]; [lia|].
      rewrite (drop_S _ _ _ Hqb), (drop_S _ _ _ Hrb). cbn [for_loop zip_with].
      assert (body lo score = Some (score + pair_score qb rb)%Z) as ->.
      { unfold body, pair_score. rewrite Hqb. simpl.
        destruct (Byte.eqb qb gap); [done|]. rewrite Hrb. simpl.
        destruct (Byte.eqb rb gap); [done|]. by destruct (Byte.eqb qb rb). }
      simpl. rewrite IH by lia. f_equal. lia. }
  rewrite (Hloop (length query) 0 0%Z) by lia. by rewrite !drop_0.
Qed.

Lemma pair_score_symbols a b :
  pair_score a b = column_score (symbol_of a, symbol_of b).
Proof.
  unfold pair_score, column_score, symbol_of.
  destruct (decide (a = gap)) as [->|Ha], (decide (b = gap)) as [->|Hb];
    unfold match_score; rewrite !byte_eqb_eq;
    repeat case_bool_decide; simplify_eq; done.
Qed.

Lemma calculateAlignmentScore_columns (alignedQuery alignedRef : gostring) :
  length alignedQuery ≤ length alignedRef →
  calculateAlignmentScore alignedQuery alignedRef
  = Some (columns_score (columns_of alignedQuery alignedRef)).
Proof.
  intros Hlen. rewrite calculateAlignmentScore_spec by done. f_equal.
  unfold columns_score, columns_of. clear Hlen. revert alignedRef.
  induction alignedQuery as [|a aq IH]; intros [|b ar]; simpl; try done.
  rewrite pair_score_symbols. by rewrite IH.
Qed.

Lemma columns_of_cons a aq b ar :
  columns_of (a :: aq) (b :: ar) = (symbol_of a, symbol_of b) :: columns_of aq ar.
Proof. done. Qed.

Lemma stripGaps_cons a s :
  stripGaps (a :: s)
  = match symbol_of a with Some y => y :: stripGaps s | None => stripGaps s end.
Proof.
  unfold stripGaps, symbol_of. destruct (decide (a = gap)) as [->|Hne].
  - by rewrite filter_cons_False by (intros H; by apply H).
  - by rewrite filter_cons_True by done.
Qed.

Lemma omap_fst_columns_of (alignedQuery alignedRef : gostring) :
  length alignedQuery ≤ length alignedRef →
  omap fst (columns_of alignedQuery alignedRef) = stripGaps alignedQuery.
Proof.
  revert alignedRef.
  induction alignedQuery as [|a aq IH]; intros [|b ar] Hlen;
    [done|done|simpl in Hlen; lia|].
  rewrite columns_of_cons, stripGaps_cons. csimpl.
  rewrite IH by (simpl in Hlen; lia). done.
Qed.

Lemma omap_snd_columns_of (alignedQuery alignedRef : gostring) :
  length alignedRef ≤ length alignedQuery →
  omap snd (columns_of alignedQuery alignedRef) = stripGaps alignedRef.
Proof.
  revert alignedQuery.
  induction alignedRef as [|b ar IH]; intros [|a aq] Hlen;
    [done|done|simpl in Hlen; lia|].
  rewrite columns_of_cons, stripGaps_cons. csimpl.
  rewrite IH by (simpl in Hlen; lia). done.
Qed.

(** Over plain symbols the two renderings of a list of columns have the
    score of the columns. *)
Lemma columns_of_render (cols : list column) :
  plain (omap fst cols) → plain (omap snd cols) →
  columns_of (render fst cols) (render snd cols) = cols.
Proof.
  intros Hq Hr. rewrite (render_plain fst cols Hq), (render_plain snd cols Hr).
  unfold columns_of. revert Hq Hr.
  induction cols as [|[[a|] [b|]] cols IH]; csimpl; intros Hq Hr; [done|..].
  - apply Forall_cons in Hq as [[_ Ha] Hq]. apply Forall_cons in Hr as [[_ Hb] Hr].
    unfold symbol_of at 1 2. rewrite !decide_False by done. f_equal. by apply IH.
  - apply Forall_cons in Hq as [[_ Ha] Hq].
    unfold symbol_of at 1 2. rewrite decide_False, decide_True by done.
    f_equal. by apply IH.
  - apply Forall_cons in Hr as [[_ Hb] Hr].
    unfold symbol_of at 1 2. rewrite decide_True, decide_False by done.
    f_equal. by apply IH.
  - unfold symbol_of at 1 2. rewrite !decide_True by done. f_equal. by apply IH.
Qed.

(** ** The recurrence dominates every step of an alignment *)

Section dominance.
Context (query reference : gostring) (M : matrix).
Context (HM : sw_matrix query reference M).

Lemma sw_matrix_lookup i j :
  i ≤ length query → j ≤ length reference → ∃ v, cell M i j = Some v ∧ (0 ≤ v)%Z.
Proof using HM.
  intros Hi Hj. destruct HM as (Hd & _ & _).
  destruct (cell_is_Some _ _ M i j Hd Hi Hj) as [v Hv]. exists v. split; [done|].
  by eapply sw_matrix_nonneg.
Qed.

Lemma sw_matrix_terms i j v :
  1 ≤ i → 1 ≤ j → cell M i j = Some v →
  ∃ qb rb d u l,
    query !! (i - 1) = Some qb ∧ reference !! (j - 1) = Some rb ∧
    cell M (i - 1) (j - 1) = Some d ∧ cell M (i - 1) j = Some u ∧
    cell M i (j - 1) = Some l ∧
    v = Z.max (Z.max (Z.max 0 (d + match_score qb rb)) (u + GapPenalty))
          (l + GapPenalty).
Proof using HM.
  intros Hi Hj Hv.
  destruct (sw_matrix_cell _ _ _ HM _ _ _ Hv) as (_ & _ & [[? _]|(_ & _ & Hs)]);
    [lia|].
  apply cell_score_Some in Hs as (td & tu & tl & Hd & Hu & Hl & ->).
  apply diag_term_Some in Hd as (qb & rb & d & ? & ? & ? & ->).
  apply up_term_Some in Hu as (u & ? & ->).
  apply left_term_Some in Hl as (l & ? & ->).
  exists qb, rb, d, u, l. done.
Qed.

Lemma sw_matrix_border i j v :
  cell M i j = Some v → i = 0 ∨ j = 0 → v = 0%Z.
Proof using HM.
  intros Hv Hij.
  destruct (sw_matrix_cell _ _ _ HM _ _ _ Hv) as (_ & _ & [[_ ->]|(? & ? & _)]);
    [done|lia].
Qed.

(** Whatever columns lead from cell (i', j') to cell (i, j), the value of
    (i, j) is at least their score. *)
Lemma sw_matrix_dominates cols :
  ∀ i j i' j',
    i ≤ length query → j ≤ length reference →
    omap fst cols = drop i' (take i query) →
    omap snd cols = drop j' (take j reference) →
    ∃ v, cell M i j = Some v ∧ (columns_score cols ≤ v)%Z.
Proof using HM.
  assert (∀ (s : gostring) k k' b (l : gostring),
            k ≤ length s → l ++ [b] = drop k' (take k s) →
            1 ≤ k ∧ s !! (k - 1) = Some b ∧ l = drop k' (take (k - 1) s))
    as Hsnoc.
  { intros s k k' b l Hk Heq.
    assert (length (l ++ [b]) = k - k') as Hlen.
    { rewrite Heq, length_drop, length_take. lia. }
    rewrite length_app in Hlen. simpl in Hlen.
    destruct (lookup_lt_is_Some_2 s (k - 1)) as [x Hx]; [lia|].
    replace k with (S (k - 1)) in Heq by lia.
    rewrite (take_S_r _ _ _ Hx) in Heq.
    rewrite drop_app_le in Heq by (rewrite length_take; lia).
    apply app_inj_tail in Heq as [-> ->]. split_and!; [lia|done|done]. }
  induction cols as [|c cols IH] using rev_ind; intros i j i' j' Hi Hj Hq Hr.
  - destruct (sw_matrix_lookup i j Hi Hj) as (v & Hv & Hpos).
    exists v. split; [done|]. unfold columns_score. simpl. lia.
  - rewrite columns_score_snoc. rewrite !omap_app in Hq, Hr.
    destruct (sw_matrix_lookup i j Hi Hj) as (v & Hv & Hpos).
    exists v. split; [done|].
    destruct c as [[a|] [b|]]; simpl in Hq, Hr;
      try rewrite app_nil_r in Hq; try rewrite app_nil_r in Hr.
    + apply Hsnoc in Hq as (Hi1 & Ha & Hq); [|done].
      apply Hsnoc in Hr as (Hj1 & Hb & Hr); [|done].
      destruct (IH (i - 1) (j - 1) i' j') as (d' & Hd' & Hle); [lia|lia|done..|].
      destruct (sw_matrix_terms i j v) as (qb & rb & d & u & l & ? & ? & ? & ? & ? & ->);
        [done..|].
      simplify_eq. simpl. lia.
    + apply Hsnoc in Hq as (Hi1 & Ha & Hq); [|done].
      destruct (IH (i - 1) j i' j') as (u' & Hu' & Hle); [lia|lia|done..|].
      simpl. destruct (decide (j = 0)) as [->|Hj0].
      * rewrite (sw_matrix_border _ _ _ Hv) by auto.
        rewrite (sw_matrix_border _ _ _ Hu') in Hle by auto.
        unfold GapPenalty. lia.
      * destruct (sw_matrix_terms i j v) as (qb & rb & d & u & l & ? & ? & ? & ? & ? & ->);
          [lia|lia|done|].
        simplify_eq. lia.
    + apply Hsnoc in Hr as (Hj1 & Hb & Hr); [|done].
      destruct (IH i (j - 1) i' j') as (l' & Hl' & Hle); [lia|lia|done..|].
      simpl. destruct (decide (i = 0)) as [->|Hi0].
      * rewrite (sw_matrix_border _ _ _ Hv) by auto.
        rewrite (sw_matrix_border _ _ _ Hl') in Hle by auto.
        unfold GapPenalty. lia.
      * destruct (sw_matrix_terms i j v) as (qb & rb & d & u & l & ? & ? & ? & ? & ? & ->);
          [lia|lia|done|].
        simplify_eq. lia.
    + destruct (IH i j i' j') as (v' & Hv' & Hle); [done..|].
      simplify_eq. simpl. unfold GapPenalty. lia.
Qed.

(** The columns of a walk add up to the value of the cell it starts from. *)
Lemma tb_walk_score row col cols :
  tb_walk (tb_stops M query reference) M query reference row col cols →
  row ≤ length query → col ≤ length reference →
  cell M row col = Some (columns_score cols).
Proof using HM.
  induction 1 as
    [row col Hstop
    |row col v qb rb cols Hrow Hcol Hv Hpos Hqb Hrb Hdt _ IH
    |row col v qb td cols Hrow Hcol Hv Hpos Hqb Hdt Hne Hut _ IH
    |row col v rb td tu cols Hrow Hcol Hv Hpos Hrb Hdt Hne Hut Hne' Hlt _ IH];
    intros Hr Hc.
  - apply (sw_matrix_stops _ _ _ _ _ HM) in Hstop.
    destruct (sw_matrix_lookup row col Hr Hc) as (v & Hv & _).
    destruct Hstop as [->|[->|H0]]; [| |done];
      by rewrite Hv, (sw_matrix_border _ _ _ Hv) by auto.
  - rewrite columns_score_snoc. simpl.
    apply diag_term_Some in Hdt as (qb' & rb' & d & ? & ? & Hd & ->).
    simplify_eq. rewrite IH in Hd by lia. by simplify_eq.
  - rewrite columns_score_snoc. simpl.
    apply up_term_Some in Hut as (u & Hu & ->).
    rewrite IH in Hu by lia. by simplify_eq.
  - rewrite columns_score_snoc. simpl.
    apply left_term_Some in Hlt as (l & Hl & ->).
    rewrite IH in Hl by lia. by simplify_eq.
Qed.
End dominance.

Lemma substring_slice (x s : gostring) :
  substring_of x s → ∃ lo hi, hi ≤ length s ∧ x = drop lo (take hi s).
Proof.
  intros (pre & post & ->). exists (length pre), (length pre + length x).
  split; [rewrite !length_app; lia|].
  rewrite app_assoc, take_app_length', drop_app_length; [done|].
  by rewrite length_app.
Qed.

(** The result of [SmithWaterman] with the facts the fill loop and the
    traceback establish. *)
Lemma SmithWaterman_walk query reference :
  ∃ res maxRow maxCol cols,
    SmithWaterman query reference = Some res ∧
    sw_matrix query reference (ScoreMatrix res) ∧
    first_max (ScoreMatrix res) (MaxScore res) maxRow maxCol ∧
    maxRow ≤ length query ∧ maxCol ≤ length reference ∧
    tb_walk (tb_stops (ScoreMatrix res) query reference) (ScoreMatrix res)
      query reference maxRow maxCol cols ∧
    AlignedQuery res = render fst cols ∧ AlignedRef res = render snd cols.
Proof.
  destruct (SmithWaterman_total query reference)
    as (s & aq & ar & Hfill & HM & Hmax & Htb & Hres).
  apply traceback_walk in Htb as (cols & Hwalk & -> & ->).
  destruct (first_max_in_range _ _ _ _ _ _ (proj1 HM) Hmax) as [Hr Hc].
  eexists _, (fs_maxRow s), (fs_maxCol s), cols. split; [exact Hres|]. done.
Qed.

(** For plain symbols the two aligned strings are the renderings of the
    columns of the walk, one byte for each column, and the columns add up
    to the score. *)
Lemma SmithWaterman_columns (query reference : gostring) :
  plain query → plain reference →
  ∃ res cols,
    SmithWaterman query reference = Some res ∧
    columns_of (AlignedQuery res) (AlignedRef res) = cols ∧
    length (AlignedQuery res) = length cols ∧
    length (AlignedRef res) = length cols ∧
    columns_score cols = MaxScore res ∧
    Forall (λ c : column, c.1 ≠ None ∨ c.2 ≠ None) cols.
Proof.
  intros Hq Hr.
  destruct (SmithWaterman_walk query reference)
    as (res & maxRow & maxCol & cols & Hres & HM & Hmax & Hrow & Hcol & Hwalk
        & Haq & Har).
  exists res, cols. split; [done|].
  destruct (tb_walk_slices _ _ _ _ _ _ _ Hwalk)
    as (row' & col' & _ & _ & Hfst & Hsnd & Hall).
  assert (plain (omap fst cols)) as Hpq.
  { rewrite Hfst. by apply Forall_drop, Forall_take. }
  assert (plain (omap snd cols)) as Hpr.
  { rewrite Hsnd. by apply Forall_drop, Forall_take. }
  rewrite Haq, Har, columns_of_render, !render_plain_length by done.
  split_and!; [done..| |done].
  pose proof (tb_walk_score _ _ _ HM _ _ _ Hwalk Hrow Hcol) as Hv.
  destruct Hmax as (Hcell & _). congruence.
Qed.

(** X1. The returned alignment has the returned score.  For sequences of
    plain symbols, [calculateAlignmentScore] of the benchmark tests,
    applied to the two aligned strings [SmithWaterman] returns, gives the
    [MaxScore] it returns: the matches, mismatches and gaps of the
    alignment add up to the score. *)
Theorem alignment_score_is_MaxScore (query reference : gostring) :
  plain query → plain reference →
  ∃ res,
    SmithWaterman query reference = Some res ∧
    calculateAlignmentScore (AlignedQuery res) (AlignedRef res)
      = Some (MaxScore res).
Proof.
  intros Hq Hr.
  destruct (SmithWaterman_columns query reference Hq Hr)
    as (res & cols & Hres & Hcols & Hlq & Hlr & Hscore & _).
  exists res. split; [done|].
  rewrite calculateAlignmentScore_columns by lia. by rewrite Hcols, Hscore.
Qed.

Lemma alignment_score_is_MaxScore_witness :
  plain GATTACA ∧ plain GATACA ∧
  ∃ res,
    SmithWaterman GATTACA GATACA = Some res ∧
    calculateAlignmentScore (AlignedQuery res) (AlignedRef res)
      = Some (MaxScore res).
Proof.
  assert (plain GATTACA) as H1.
  { repeat constructor; vm_compute; congruence. }
  assert (plain GATACA) as H2.
  { repeat constructor; vm_compute; congruence. }
  split_and!; [done..|]. exact (alignment_score_is_MaxScore GATTACA GATACA H1 H2).
Defined.

(** X2. No alignment scores more than [MaxScore].  For two strings of the
    same length that, once their gap markers are removed, occur in the
    query and in the reference as contiguous runs,
    [calculateAlignmentScore] returns a score that is at most the
    [MaxScore] [SmithWaterman] returns for the query and the reference. *)
Theorem no_alignment_beats_MaxScore (query reference : gostring)
    (alignedQuery alignedRef : gostring) :
  length alignedQuery = length alignedRef →
  substring_of (stripGaps alignedQuery) query →
  substring_of (stripGaps alignedRef) reference →
  ∃ res score,
    SmithWaterman query reference = Some res ∧
    calculateAlignmentScore alignedQuery alignedRef = Some score ∧
    (score ≤ MaxScore res)%Z.
Proof.
  intros Hlen Hq Hr.
  destruct (SmithWaterman_walk query reference)
    as (res & maxRow & maxCol & cols & Hres & HM & Hmax & _).
  exists res, (columns_score (columns_of alignedQuery alignedRef)).
  split; [done|]. split; [apply calculateAlignmentScore_columns; lia|].
  apply substring_slice in Hq as (i' & i & Hi & Hq).
  apply substring_slice in Hr as (j' & j & Hj & Hr).
  rewrite <- omap_fst_columns_of with (alignedRef := alignedRef) in Hq by lia.
  rewrite <- omap_snd_columns_of with (alignedQuery := alignedQuery) in Hr by lia.
  destruct (sw_matrix_dominates _ _ _ HM _ _ _ _ _ Hi Hj Hq Hr) as (v & Hv & Hle).
  destruct Hmax as (_ & Hub & _). apply Hub in Hv. lia.
Qed.

Lemma no_alignment_beats_MaxScore_witness :
  length ["T"; "T"; "A"]%byte = length ["T"; "-"; "A"]%byte ∧
  substring_of (stripGaps ["T"; "T"; "A"]%byte) GATTACA ∧
  substring_of (stripGaps ["T"; "-"; "A"]%byte) GATACA ∧
  ∃ res score,
    SmithWaterman GATTACA GATACA = Some res ∧
    calculateAlignmentScore ["T"; "T"; "A"]%byte ["T"; "-"; "A"]%byte
      = Some score ∧
    (score ≤ MaxScore res)%Z.
Proof.
  assert (length ["T"; "T"; "A"]%byte = length ["T"; "-"; "A"]%byte) as Hlen
    by reflexivity.
  assert (substring_of (stripGaps ["T"; "T"; "A"]%byte) GATTACA) as Hq
    by (exists ["G"; "A"]%byte, ["C"; "A"]%byte; reflexivity).
  assert (substring_of (stripGaps ["T"; "-"; "A"]%byte) GATACA) as Hr
    by (exists ["G"; "A"]%byte, ["C"; "A"]%byte; reflexivity).
  split_and!; [exact Hlen|exact Hq|exact Hr|].
  exact (no_alignment_beats_MaxScore GATTACA GATACA _ _ Hlen Hq Hr).
Defined.

(** ** Exchanging the two sequences *)

Lemma match_score_sym a b : match_score a b = match_score b a.
Proof.
  unfold match_score. rewrite !byte_eqb_eq.
  repeat case_bool_decide; simplify_eq; done.
Qed.

Lemma sw_matrix_transpose query reference (M M' : matrix) :
  sw_matrix query reference M → sw_matrix reference query M' →
  ∀ i j, i ≤ length query → j ≤ length reference → cell M' j i = cell M i j.
Proof.
  intros HM HM' i j. remember (i + j) as k eqn:Hk. revert i j Hk.
  induction (lt_wf k) as [k _ IH]. intros i j -> Hi Hj.
  destruct (sw_matrix_lookup _ _ _ HM i j Hi Hj) as (v & Hv & _).
  destruct (sw_matrix_lookup _ _ _ HM' j i Hj Hi) as (v' & Hv' & _).
  rewrite Hv, Hv'. f_equal.
  destruct (decide (i = 0 ∨ j = 0)) as [H0|Hn0].
  - rewrite (sw_matrix_border _ _ _ HM _ _ _ Hv) by done.
    rewrite (sw_matrix_border _ _ _ HM' _ _ _ Hv') by tauto. done.
  - destruct (sw_matrix_terms _ _ _ HM i j v)
      as (qb & rb & d & u & l & Hqb & Hrb & Hd & Hu & Hl & ->); [lia|lia|done|].
    destruct (sw_matrix_terms _ _ _ HM' j i v')
      as (rb' & qb' & d' & u' & l' & Hrb' & Hqb' & Hd' & Hu' & Hl' & ->);
      [lia|lia|done|].
    simplify_eq.
    rewrite (IH (i - 1 + (j - 1))) in Hd' by lia.
    rewrite (IH (i + (j - 1))) in Hu' by lia.
    rewrite (IH (i - 1 + j)) in Hl' by lia.
    simplify_eq. rewrite (match_score_sym rb qb). lia.
Qed.

(** X3. Exchanging the query and the reference transposes the score
    matrix and leaves [MaxScore] as it is. *)
Theorem MaxScore_symmetric (query reference : gostring) :
  ∃ res res',
    SmithWaterman query reference = Some res ∧
    SmithWaterman reference query = Some res' ∧
    MaxScore res' = MaxScore res ∧
    ∀ i j, i ≤ length query → j ≤ length reference →
      cell (ScoreMatrix res') j i = cell (ScoreMatrix res) i j.
Proof.
  destruct (SmithWaterman_walk query reference)
    as (res & maxRow & maxCol & cols & Hres & HM & Hmax & Hrow & Hcol & _).
  destruct (SmithWaterman_walk reference query)
    as (res' & maxRow' & maxCol' & cols' & Hres' & HM' & Hmax' & Hrow' & Hcol' & _).
  exists res, res'. split_and!; [done..| |].
  - destruct Hmax as (Hcell & Hub & _), Hmax' as (Hcell' & Hub' & _).
    rewrite <- (sw_matrix_transpose _ _ _ _ HM HM') in Hcell by done.
    rewrite <- (sw_matrix_transpose _ _ _ _ HM' HM) in Hcell' by done.
    apply Hub' in Hcell. apply Hub in Hcell'. lia.
  - by apply sw_matrix_transpose.
Qed.

(** ** Bounds on the score *)

Section score_bounds.
Context (query reference : gostring) (M : matrix).
Context (HM : sw_matrix query reference M).

(** Without a common symbol every cell stays at zero. *)
Lemma sw_matrix_zero i j v :
  (∀ a b, a ∈ query → b ∈ reference → a ≠ b) →
  cell M i j = Some v → v = 0%Z.
Proof using HM.
  intros Hdiff. remember (i + j) as k eqn:Hk. revert i j v Hk.
  induction (lt_wf k) as [k _ IH]. intros i j v -> Hv.
  destruct (decide (i = 0 ∨ j = 0)) as [H0|Hn0].
  - by eapply sw_matrix_border.
  - destruct (sw_matrix_terms _ _ _ HM i j v)
      as (qb & rb & d & u & l & Hqb & Hrb & Hd & Hu & Hl & ->); [lia|lia|done|].
    apply (IH (i - 1 + (j - 1))) in Hd; [|lia|done].
    apply (IH (i - 1 + j)) in Hu; [|lia|done].
    apply (IH (i + (j - 1))) in Hl; [|lia|done].
    subst. unfold match_score. rewrite byte_eqb_eq.
    rewrite bool_decide_eq_false_2.
    + unfold MismatchScore, GapPenalty. lia.
    + apply Hdiff; by eapply list_elem_of_lookup_2.
Qed.

(** A symbol the two sequences share gives a cell of at least one match. *)
Lemma sw_matrix_common a :
  a ∈ query → a ∈ reference → ∃ i j v, cell M i j = Some v ∧ (MatchScore ≤ v)%Z.
Proof using HM.
  intros [i Hi]%list_elem_of_lookup_1 [j Hj]%list_elem_of_lookup_1.
  pose proof (lookup_lt_Some _ _ _ Hi). pose proof (lookup_lt_Some _ _ _ Hj).
  destruct (sw_matrix_lookup _ _ _ HM (S i) (S j)) as (v & Hv & _); [lia..|].
  exists (S i), (S j), v. split; [done|].
  destruct (sw_matrix_terms _ _ _ HM (S i) (S j) v)
    as (qb & rb & d & u & l & Hqb & Hrb & Hd & Hu & Hl & ->); [lia|lia|done|].
  replace (S i - 1) with i in * by lia. replace (S j - 1) with j in * by lia.
  simplify_eq. rewrite match_score_refl.
  pose proof (sw_matrix_nonneg _ _ _ HM _ _ _ Hd). lia.
Qed.

(** The first cell in row-major order that holds the value 0 is the
    corner. *)
Lemma first_max_zero maxRow maxCol :
  first_max M 0 maxRow maxCol → maxRow = 0 ∧ maxCol = 0.
Proof using HM.
  intros (_ & _ & Hfirst).
  destruct (sw_matrix_lookup _ _ _ HM 0 0) as (v & Hv & Hpos); [lia..|].
  destruct (decide (maxRow = 0 ∧ maxCol = 0)) as [|Hne]; [done|].
  specialize (Hfirst 0 0 v Hv). unfold lex_lt in Hfirst. lia.
Qed.
End score_bounds.

Lemma render_symbol_nonempty o : render_symbol o ≠ [].
Proof.
  destruct o as [b|]; [|done]. simpl. unfold string_of_byte.
  by destruct (_ <? _)%N.
Qed.

Lemma render_nil_inv side cols : render side cols = [] → cols = [].
Proof.
  destruct cols as [|c cols]; [done|]. unfold render. csimpl.
  intros [H _]%app_eq_nil. by apply render_symbol_nonempty in H.
Qed.

(** X4. [MaxScore] is at least 0 and at most [MatchScore] times the
    length of the shorter sequence.  It is 0 exactly when the two
    sequences have no symbol in common, and exactly when the aligned
    query, or the aligned reference, is the empty string. *)
Theorem MaxScore_bounds (query reference : gostring) :
  ∃ res,
    SmithWaterman query reference = Some res ∧
    (0 ≤ MaxScore res
       ≤ MatchScore * Z.of_nat (length query `min` length reference))%Z ∧
    (MaxScore res = 0%Z ↔ ∀ a b, a ∈ query → b ∈ reference → a ≠ b) ∧
    (MaxScore res = 0%Z ↔ AlignedQuery res = []) ∧
    (MaxScore res = 0%Z ↔ AlignedRef res = []).
Proof.
  destruct (SmithWaterman_walk query reference)
    as (res & maxRow & maxCol & cols & Hres & HM & Hmax & Hrow & Hcol & Hwalk
        & Haq & Har).
  exists res. split; [done|].
  pose proof Hmax as (Hcell & Hub & Hfirst).
  assert (MaxScore res = 0%Z ↔ cols = []) as Hcols.
  { pose proof (tb_walk_score _ _ _ HM _ _ _ Hwalk Hrow Hcol) as Hscore.
    split.
    - intros H0. rewrite H0 in Hmax.
      destruct (first_max_zero _ _ _ HM _ _ Hmax) as [-> ->].
      inversion Hwalk; simplify_eq; [done|lia..].
    - intros ->. rewrite Hscore in Hcell. by simplify_eq. }
  split_and!.
  - by eapply sw_matrix_nonneg.
  - pose proof (sw_matrix_upper _ _ _ HM _ _ _ Hcell). unfold MatchScore. lia.
  - split.
    + intros H0 a b Ha Hb ->.
      destruct (sw_matrix_common _ _ _ HM b Ha Hb) as (i & j & v & Hv & Hle).
      apply Hub in Hv. unfold MatchScore in Hle. lia.
    + intros Hdiff. by eapply sw_matrix_zero.
  - rewrite Hcols, Haq. split; [by intros ->|apply render_nil_inv].
  - rewrite Hcols, Har. split; [by intros ->|apply render_nil_inv].
Qed.

(** ** The score of a sequence against itself *)

Lemma SmithWaterman_self (sq : gostring) :
  ∃ res,
    SmithWaterman sq sq = Some res ∧
    MaxScore res = (MatchScore * Z.of_nat (length sq))%Z ∧
    (is_ascii sq → AlignedQuery res = sq ∧ AlignedRef res = sq).
Proof.
  destruct (SmithWaterman_total sq sq)
    as (s & aq & ar & _ & HM & Hmax & Htb & Hsw).
  destruct (self_first_max _ _ HM _ _ _ Hmax) as (Hscore & Hrow & Hcol).
  rewrite Hrow, Hcol in Htb.
  pose proof (self_walk _ _ HM (length sq) (le_n _)) as Hw.
  rewrite firstn_all in Hw.
  assert (traceback (fs_matrix s) sq sq (length sq) (length sq)
          = Some (symbols_as_strings sq, symbols_as_strings sq)) as Hres.
  { apply traceback_walk. eexists. split; [exact Hw|].
    destruct (render_matched_pairs sq) as [-> ->]. done. }
  rewrite Hres in Htb. injection Htb as <- <-.
  eexists. split; [exact Hsw|]. simpl. unfold MatchScore.
  split; [lia|]. intros Hascii. by rewrite symbols_as_strings_ascii.
Qed.

(** ** A query that occurs in the reference *)

Section contained_query.
Context (query reference : gostring) (M : matrix).
Context (HM : sw_matrix query reference M).

(** A cell that holds twice its row index continues a run of matches. *)
Lemma full_score_step i j :
  1 ≤ i → cell M i j = Some (2 * Z.of_nat i)%Z →
  1 ≤ j ∧
  ∃ b, query !! (i - 1) = Some b ∧ reference !! (j - 1) = Some b ∧
       cell M (i - 1) (j - 1) = Some (2 * Z.of_nat (i - 1))%Z ∧
       diag_term M query reference i j = Some (2 * Z.of_nat i)%Z.
Proof using HM.
  intros Hi Hv.
  assert (1 ≤ j) as Hj.
  { destruct (decide (j = 0)) as [->|]; [|lia].
    pose proof (sw_matrix_border _ _ _ HM _ _ _ Hv). lia. }
  split; [done|].
  destruct (sw_matrix_terms _ _ _ HM i j _ Hi Hj Hv)
    as (qb & rb & d & u & l & Hqb & Hrb & Hd & Hu & Hl & Heq).
  pose proof (sw_matrix_upper _ _ _ HM _ _ _ Hd) as Hd'.
  pose proof (sw_matrix_upper _ _ _ HM _ _ _ Hu) as Hu'.
  pose proof (sw_matrix_upper _ _ _ HM _ _ _ Hl) as Hl'.
  unfold match_score in *. rewrite byte_eqb_eq in *.
  unfold MatchScore, MismatchScore, GapPenalty in *.
  case_bool_decide as Hb; [|lia]. subst rb.
  assert (d = 2 * Z.of_nat (i - 1))%Z as -> by lia.
  exists qb. split_and!; [done..|].
  unfold diag_term. rewrite Hqb, Hrb. simpl. rewrite Hd. simpl.
  unfold match_score. rewrite byte_eqb_eq, bool_decide_eq_true_2 by done.
  unfold MatchScore. f_equal. lia.
Qed.

Lemma full_score_walk i :
  ∀ j, i ≤ length query → cell M i j = Some (2 * Z.of_nat i)%Z →
  tb_walk (tb_stops M query reference) M query reference i j
    ((λ b, (Some b, Some b)) <$> take i query) ∧
  take i query = drop (j - i) (take j reference).
Proof using HM.
  induction i as [|i IH]; intros j Hi Hv.
  - split.
    + rewrite take_0. apply walk_stop. by left.
    + rewrite take_0, drop_ge; [done|]. rewrite length_take. lia.
  - destruct (full_score_step (S i) j) as (Hj & b & Hqb & Hrb & Hd & Hdt);
      [lia|done|].
    replace (S i - 1) with i in * by lia.
    destruct (IH (j - 1)) as [Hwalk Heq]; [lia|done|].
    rewrite (take_S_r _ _ _ Hqb), fmap_app. split.
    + eapply walk_diag; [lia|lia|done|lia| | |done|].
      * by replace (S i - 1) with i by lia.
      * done.
      * by replace (S i - 1) with i by lia.
    + assert (i ≤ j - 1).
      { pose proof (sw_matrix_upper _ _ _ HM _ _ _ Hd). lia. }
      replace j with (S (j - 1)) at 2 by lia. rewrite (take_S_r _ _ _ Hrb).
      rewrite drop_app_le.
      * rewrite Heq. do 2 f_equal. lia.
      * rewrite length_take. apply lookup_lt_Some in Hrb. lia.
Qed.

(** Along an occurrence of the query the diagonal counts the matches. *)
Lemma occurrence_diagonal pre post i :
  reference = pre ++ query ++ post → i ≤ length query →
  cell M i (length pre + i) = Some (2 * Z.of_nat i)%Z.
Proof using HM.
  intros Href. induction i as [|i IH]; intros Hi.
  - destruct (sw_matrix_lookup _ _ _ HM 0 (length pre + 0)) as (v & Hv & _).
    + lia.
    + rewrite Href, !length_app. lia.
    + by rewrite Hv, (sw_matrix_border _ _ _ HM _ _ _ Hv) by auto.
  - destruct (sw_matrix_lookup _ _ _ HM (S i) (length pre + S i)) as (v & Hv & _).
    + lia.
    + rewrite Href, !length_app. lia.
    + rewrite Hv. f_equal.
      pose proof (sw_matrix_upper _ _ _ HM _ _ _ Hv) as Hup.
      destruct (sw_matrix_terms _ _ _ HM (S i) (length pre + S i) v
                  ltac:(lia) ltac:(lia) Hv)
        as (qb & rb & d & u & l & Hqb & Hrb & Hd & Hu & Hl & Heq).
      replace (S i - 1) with i in * by lia.
      replace (length pre + S i - 1) with (length pre + i) in * by lia.
      rewrite IH in Hd by lia. injection Hd as <-.
      rewrite Href, lookup_app_r, lookup_app_l in Hrb; [|lia..].
      replace (length pre + i - length pre) with i in Hrb by lia.
      rewrite Hqb in Hrb. injection Hrb as <-.
      rewrite match_score_refl in Heq. unfold MatchScore in Heq. lia.
Qed.
End contained_query.

(** X5. A query that occurs in the reference as a contiguous run is found
    as it is, as in [demonstrateLocalAlignment]: the score is
    [MatchScore * len(query)], and both aligned strings are the query
    with every byte rendered by [string(byte)], which is the query itself
    when it is ASCII. *)
Theorem contained_query_is_found (query reference : gostring) :
  substring_of query reference →
  ∃ res,
    SmithWaterman query reference = Some res ∧
    MaxScore res = (MatchScore * Z.of_nat (length query))%Z ∧
    AlignedQuery res = symbols_as_strings query ∧
    AlignedRef res = symbols_as_strings query ∧
    (is_ascii query → AlignedQuery res = query ∧ AlignedRef res = query).
Proof.
  intros (pre & post & Href).
  destruct (SmithWaterman_total query reference)
    as (s & aq & ar & Hfill & HM & Hmax & Htb & Hres).
  eexists. split; [exact Hres|]. simpl.
  pose proof Hmax as (Hcell & Hub & _).
  destruct (first_max_in_range _ _ _ _ _ _ (proj1 HM) Hmax) as [Hrow Hcol].
  assert (fs_maxScore s = 2 * Z.of_nat (length query))%Z as Hscore.
  { pose proof (occurrence_diagonal _ _ _ HM pre post (length query) Href) as Hd.
    apply Hub in Hd; [|done].
    pose proof (sw_matrix_upper _ _ _ HM _ _ _ Hcell). lia. }
  assert (fs_maxRow s = length query) as Hr.
  { pose proof (sw_matrix_upper _ _ _ HM _ _ _ Hcell). lia. }
  rewrite Hscore, Hr in Hcell.
  destruct (full_score_walk _ _ _ HM (length query) (fs_maxCol s)) as [Hwalk _];
    [done..|].
  rewrite firstn_all in Hwalk.
  assert (traceback (fs_matrix s) query reference (fs_maxRow s) (fs_maxCol s)
          = Some (render fst ((λ b, (Some b, Some b)) <$> query),
                  render snd ((λ b, (Some b, Some b)) <$> query))) as Htb'.
  { apply traceback_walk. rewrite Hr. eauto. }
  rewrite Htb in Htb'. injection Htb' as -> ->.
  destruct (render_matched_pairs query) as [-> ->].
  split_and!; [by unfold MatchScore|done|done|].
  intros Hascii. by rewrite symbols_as_strings_ascii.
Qed.

Lemma contained_query_is_found_witness :
  substring_of GATTACA (replicate 6 "X" ++ GATTACA ++ replicate 6 "Y")%byte ∧
  ∃ res,
    SmithWaterman GATTACA (replicate 6 "X" ++ GATTACA ++ replicate 6 "Y")%byte
      = Some res ∧
    MaxScore res = 14%Z ∧
    AlignedQuery res = GATTACA ∧ AlignedRef res = GATTACA.
Proof.
  assert (substring_of GATTACA
            (replicate 6 "X" ++ GATTACA ++ replicate 6 "Y")%byte) as Hsub
    by (by eexists _, _).
  split; [exact Hsub|].
  destruct (contained_query_is_found GATTACA _ Hsub)
    as (res & Hres & Hscore & _ & _ & Hid).
  destruct Hid as [Hq Hr]; [repeat constructor|].
  exists res. split_and!; [exact Hres|exact Hscore|exact Hq|exact Hr].
Defined.

(** ** The helpers of the tests *)

Lemma isValidAlignment_loop_spec (query reference : gostring) count :
  ∀ lo, lo + count = length query → length query = length reference →
  ∃ b, isValidAlignment_loop query reference lo count = Some b ∧
       (b = true ↔
        ∀ k, lo ≤ k → ¬ (query !! k = Some gap ∧ reference !! k = Some gap)).
Proof.
  induction count as [|count IH]; intros lo Hlo Hlen.
  - exists true. split; [done|]. split; [|done]. intros _ k Hk [Hq _].
    apply lookup_lt_Some in Hq. lia.
  - destruct (lookup_lt_is_Some_2 query lo) as [qb Hqb]; [lia|].
    destruct (lookup_lt_is_Some_2 reference lo) as [rb Hrb]; [lia|].
    destruct (IH (S lo)) as (b & Hb & Hiff); [lia|done|].
    assert ((∀ k, lo ≤ k →
               ¬ (query !! k = Some gap ∧ reference !! k = Some gap)) ↔
            ¬ (qb = gap ∧ rb = gap) ∧
            (∀ k, S lo ≤ k →
               ¬ (query !! k = Some gap ∧ reference !! k = Some gap)))
      as Hsplit.
    { split.
      - intros H. split.
        + intros [-> ->]. by apply (H lo).
        + intros k Hk. apply H. lia.
      - intros [H1 H2] k Hk. destruct (decide (k = lo)) as [->|].
        + rewrite Hqb, Hrb. intros [[= ->] [= ->]]. by apply H1.
        + apply H2. lia. }
    simpl. rewrite Hqb. simpl. rewrite byte_eqb_eq. case_bool_decide as Hq.
    + rewrite Hrb. simpl. rewrite byte_eqb_eq. case_bool_decide as Hr.
      * exists false. split; [done|]. rewrite Hsplit. split; [done|].
        intros [H _]. by destruct H.
      * exists b. split; [done|]. rewrite Hsplit, Hiff. tauto.
    + exists b. split; [done|]. rewrite Hsplit, Hiff. tauto.
Qed.

(** X6. [isValidAlignment] of the test suite does not panic, and it
    returns true exactly when the two strings have the same length and no
    position holds the gap marker in both. *)
Theorem isValidAlignment_decides (query reference : gostring) :
  ∃ b, isValidAlignment query reference = Some b ∧
       (b = true ↔
        length query = length reference ∧
        ∀ k, ¬ (query !! k = Some gap ∧ reference !! k = Some gap)).
Proof.
  unfold isValidAlignment. case_bool_decide as Hlen.
  - exists false. split; [done|]. split; [done|]. by intros [? _].
  - destruct (isValidAlignment_loop_spec query reference (length query) 0)
      as (b & Hb & Hiff); [lia|done|].
    exists b. split; [done|]. rewrite Hiff. split.
    + intros H. split; [done|]. intros k. apply H. lia.
    + intros [_ H] k _. apply H.
Qed.

(** X7. For sequences of plain symbols [isValidAlignment] returns true on
    the two aligned strings [SmithWaterman] returns. *)
Theorem isValidAlignment_accepts_results (query reference : gostring) :
  plain query → plain reference →
  ∃ res,
    SmithWaterman query reference = Some res ∧
    isValidAlignment (AlignedQuery res) (AlignedRef res) = Some true.
Proof.
  intros Hq Hr.
  destruct (SmithWaterman_walk query reference)
    as (res & maxRow & maxCol & cols & Hres & HM & Hmax & Hrow & Hcol & Hwalk
        & Haq & Har).
  exists res. split; [done|].
  destruct (tb_walk_slices _ _ _ _ _ _ _ Hwalk)
    as (row' & col' & _ & _ & Hfst & Hsnd & Hall).
  assert (plain (omap fst cols)) as Hpq.
  { rewrite Hfst. by apply Forall_drop, Forall_take. }
  assert (plain (omap snd cols)) as Hpr.
  { rewrite Hsnd. by apply Forall_drop, Forall_take. }
  assert (length (AlignedQuery res) = length (AlignedRef res)) as Hlen.
  { by rewrite Haq, Har, !render_plain_length. }
  unfold isValidAlignment. rewrite bool_decide_eq_false_2 by (by intros ?).
  destruct (isValidAlignment_loop_spec (AlignedQuery res) (AlignedRef res)
              (length (AlignedQuery res)) 0) as (b & -> & Hiff); [lia|done|].
  f_equal. apply Hiff. rewrite Haq, Har. intros k _ [Hgq Hgr].
  apply render_plain_gap in Hgq as (c & Hc & Hnq); [|done].
  apply render_plain_gap in Hgr as (c' & Hc' & Hnr); [|done].
  simplify_eq. rewrite Forall_forall in Hall.
  destruct (Hall c); [by eapply list_elem_of_lookup_2|done..].
Qed.

Lemma isValidAlignment_accepts_results_witness :
  plain GATTACA ∧ plain GATACA ∧
  ∃ res,
    SmithWaterman GATTACA GATACA = Some res ∧
    isValidAlignment (AlignedQuery res) (AlignedRef res) = Some true.
Proof.
  assert (plain GATTACA) as Hq by (repeat constructor; done).
  assert (plain GATACA) as Hr by (repeat constructor; done).
  split_and!; [exact Hq|exact Hr|].
  exact (isValidAlignment_accepts_results GATTACA GATACA Hq Hr).
Defined.

(** X8. [areAlignmentsEquivalent] compares lengths and scores only.  On
    two alignments whose query strings are not longer than their
    reference strings it does not panic, and it returns true exactly when
    the two query strings have the same length, the two reference
    strings have the same length, and [calculateAlignmentScore] gives the
    two alignments the same score. *)
Theorem areAlignmentsEquivalent_decides (query1 ref1 query2 ref2 : gostring) :
  length query1 ≤ length ref1 → length query2 ≤ length ref2 →
  ∃ b score1 score2,
    areAlignmentsEquivalent query1 ref1 query2 ref2 = Some b ∧
    calculateAlignmentScore query1 ref1 = Some score1 ∧
    calculateAlignmentScore query2 ref2 = Some score2 ∧
    (b = true ↔
     length query1 = length query2 ∧ length ref1 = length ref2 ∧
     score1 = score2).
Proof.
  intros H1 H2.
  rewrite (calculateAlignmentScore_spec query1 ref1 H1).
  rewrite (calculateAlignmentScore_spec query2 ref2 H2).
  unfold areAlignmentsEquivalent.
  rewrite (calculateAlignmentScore_spec query1 ref1 H1).
  rewrite (calculateAlignmentScore_spec query2 ref2 H2).
  destruct (decide (query1 = query2 ∧ ref1 = ref2)) as [[-> ->]|Hne].
  - rewrite !bool_decide_eq_true_2 by done. simpl.
    eexists true, _, _. split_and!; done.
  - assert (bool_decide (query1 = query2) && bool_decide (ref1 = ref2) = false)
      as ->.
    { apply andb_false_iff. rewrite !bool_decide_eq_false.
      destruct (decide (query1 = query2)); [|tauto]. right. intros ?. tauto. }
    destruct (decide (length query1 = length query2 ∧ length ref1 = length ref2))
      as [[Hq Hr]|Hlen].
    + rewrite !bool_decide_eq_false_2 by (intros H; by apply H). simpl.
      eexists _, _, _. split_and!; [done..|].
      rewrite bool_decide_eq_true. tauto.
    + assert (bool_decide (length query1 ≠ length query2)
              || bool_decide (length ref1 ≠ length ref2) = true) as ->.
      { apply orb_true_iff. rewrite !bool_decide_eq_true.
        destruct (decide (length query1 = length query2)); [|tauto].
        right. intros ?. tauto. }
      eexists false, _, _. split_and!; [done..|]. split; [done|tauto].
Qed.

Lemma areAlignmentsEquivalent_decides_witness :
  length GATTACA ≤ length GATTACA ∧
  length ["G"; "A"; "T"; "-"; "A"; "C"; "A"]%byte ≤ length GATTACA ∧
  ∃ b score1 score2,
    areAlignmentsEquivalent GATTACA GATTACA
      ["G"; "A"; "T"; "-"; "A"; "C"; "A"]%byte GATTACA = Some b ∧
    calculateAlignmentScore GATTACA GATTACA = Some score1 ∧
    calculateAlignmentScore ["G"; "A"; "T"; "-"; "A"; "C"; "A"]%byte GATTACA
      = Some score2 ∧
    (b = true ↔
     length GATTACA = length ["G"; "A"; "T"; "-"; "A"; "C"; "A"]%byte ∧
     length GATTACA = length GATTACA ∧ score1 = score2).
Proof.
  assert (length GATTACA ≤ length GATTACA) as H1 by (simpl; lia).
  assert (length ["G"; "A"; "T"; "-"; "A"; "C"; "A"]%byte ≤ length GATTACA)
    as H2 by (simpl; lia).
  split_and!; [exact H1|exact H2|].
  exact (areAlignmentsEquivalent_decides GATTACA GATTACA _ GATTACA H1 H2).
Defined.

(** The loop of [generateRandomDNA] writes the four bases in turn. *)
Lemma generateRandomDNA_spec (length_ : Z) :
  (0 ≤ length_)%Z →
  ∃ sequence,
    generateRandomDNA length_ = Some sequence ∧
    length sequence = Z.to_nat length_ ∧
    ∀ i, i < Z.to_nat length_ →
      sequence !! i = ["A"; "C"; "G"; "T"]%byte !! (i `mod` 4).
Proof.
  intros Hpos. unfold generateRandomDNA.
  rewrite bool_decide_eq_false_2 by lia.
  set (n := Z.to_nat length_).
  set (bases := ["A"; "C"; "G"; "T"]%byte).
  edestruct (for_loop_inv
    (λ k (s : gostring), length s = n ∧ ∀ i, i < k → s !! i = bases !! (i `mod` 4)))
    as (s & Hs & Hlen & Hcontent); [| |exists s; split; [exact Hs|]].
  - split; [by rewrite length_replicate|]. intros i Hi. lia.
  - intros k t Hk [Hlen Hcontent]. simpl in Hk.
    assert (k `mod` 4 < 4) as Hmod by (apply Nat.mod_upper_bound; lia).
    destruct (lookup_lt_is_Some_2 bases (k `mod` 4)) as [b Hb]; [done|].
    rewrite Hb. simpl. rewrite decide_True by lia.
    eexists. split; [done|]. split; [by rewrite length_insert|].
    intros i Hi. destruct (decide (i = k)) as [->|Hne].
    + rewrite list_lookup_insert_eq by lia. done.
    + rewrite list_lookup_insert_ne by done. apply Hcontent. lia.
  - simpl in *. split; [done|]. intros i Hi. apply Hcontent. lia.
Qed.

(** X9. [generateRandomDNA] panics on a negative length.  For a length
    [n] that is not negative it returns the first [n] bytes of
    ACGTACGT..., a sequence of plain symbols; and aligning the sequence
    with itself, as [TestSequentialVsParallel] does, [SmithWaterman]
    returns the score [MatchScore * n] and the sequence as both aligned
    strings. *)
Theorem generateRandomDNA_sequences (length_ : Z) :
  ((length_ < 0)%Z → generateRandomDNA length_ = None) ∧
  ((0 ≤ length_)%Z →
   ∃ sequence res,
     generateRandomDNA length_ = Some sequence ∧
     length sequence = Z.to_nat length_ ∧
     (∀ i, i < Z.to_nat length_ →
        sequence !! i = ["A"; "C"; "G"; "T"]%byte !! (i `mod` 4)) ∧
     plain sequence ∧
     SmithWaterman sequence sequence = Some res ∧
     MaxScore res = (MatchScore * length_)%Z ∧
     AlignedQuery res = sequence ∧ AlignedRef res = sequence).
Proof.
  split.
  - intros Hneg. unfold generateRandomDNA. by rewrite bool_decide_eq_true_2.
  - intros Hpos.
    destruct (generateRandomDNA_spec length_ Hpos) as (s & Hs & Hlen & Hcontent).
    assert (plain s) as Hplain.
    { apply Forall_lookup. intros i b Hb.
      pose proof (lookup_lt_Some _ _ _ Hb) as Hi. rewrite Hlen in Hi.
      rewrite (Hcontent i Hi) in Hb.
      assert (i `mod` 4 < 4) as Hmod by (apply Nat.mod_upper_bound; lia).
      destruct (i `mod` 4) as [|[|[|[|?]]]]; [..|lia]; simpl in Hb;
        injection Hb as <-; split; vm_compute; congruence. }
    destruct (SmithWaterman_self s) as (res & Hres & Hscore & Hid).
    destruct Hid as [Haq Har].
    { eapply Forall_impl; [exact Hplain|]. by intros b [? _]. }
    exists s, res. split_and!; try done. rewrite Hscore, Hlen.
    unfold MatchScore. lia.
Qed.

(** ** Insertions and deletions *)

Lemma int_add_overflow a b :
  (2 ^ 63 ≤ a + b < 2 ^ 64)%Z → int_add a b = (a + b - 2 ^ 64)%Z.
Proof.
  intros H. unfold int_add.
  replace (a + b + 2 ^ 63)%Z with (a + b - 2 ^ 63 + 1 * 2 ^ 64)%Z by lia.
  rewrite Z.mod_add by lia. rewrite Z.mod_small; lia.
Qed.

Lemma slice_Some (s : gostring) lo hi :
  (0 ≤ lo)%Z → (lo ≤ hi)%Z → (hi ≤ len s)%Z →
  slice s lo hi = Some (drop (Z.to_nat lo) (take (Z.to_nat hi) s)).
Proof. intros. unfold slice. by rewrite bool_decide_eq_true_2. Qed.

Lemma slice_None (s : gostring) lo hi :
  (lo < 0 ∨ hi < lo ∨ len s < hi)%Z → slice s lo hi = None.
Proof. intros. unfold slice. rewrite bool_decide_eq_false_2; [done|lia]. Qed.

Lemma slice_prefix (s : gostring) hi :
  (0 ≤ hi ≤ len s)%Z → slice s 0 hi = Some (take (Z.to_nat hi) s).
Proof. intros. rewrite slice_Some by lia. by rewrite drop_0. Qed.

Lemma slice_suffix (s : gostring) lo :
  (0 ≤ lo ≤ len s)%Z → slice s lo (len s) = Some (drop (Z.to_nat lo) s).
Proof.
  intros. rewrite slice_Some by lia. unfold len. rewrite Nat2Z.id.
  by rewrite firstn_all.
Qed.

Lemma CreateInsertion_valid (original inserted : gostring) position :
  (0 ≤ position ≤ len original)%Z →
  CreateInsertion original position inserted
  = Some (take (Z.to_nat position) original ++ inserted
          ++ drop (Z.to_nat position) original).
Proof.
  intros H. unfold CreateInsertion.
  rewrite !bool_decide_eq_false_2 by lia. simpl.
  rewrite slice_prefix, slice_suffix by lia. done.
Qed.

Lemma CreateInsertion_invalid (original inserted : gostring) position :
  (position < 0 ∨ len original < position)%Z →
  CreateInsertion original position inserted = Some original.
Proof.
  intros H. unfold CreateInsertion.
  destruct H; [rewrite bool_decide_eq_true_2 by done; done|].
  rewrite (bool_decide_eq_true_2 (len original < position)%Z) by done.
  by rewrite orb_true_r.
Qed.

Lemma CreateDeletion_invalid (original : gostring) position length_ :
  (position < 0 ∨ len original ≤ position)%Z →
  CreateDeletion original position length_ = Some original.
Proof.
  intros H. unfold CreateDeletion.
  destruct H; [rewrite bool_decide_eq_true_2 by done; done|].
  rewrite (bool_decide_eq_true_2 (len original ≤ position)%Z) by done.
  by rewrite orb_true_r.
Qed.

(** A valid deletion whose end does not overflow removes the bytes from
    [position] to [position + length], or to the end. *)
Lemma CreateDeletion_valid (original : gostring) position length_ :
  (0 ≤ position < len original)%Z → (0 ≤ position + length_ < 2 ^ 63)%Z →
  (len original < 2 ^ 63)%Z →
  CreateDeletion original position length_
  = Some (take (Z.to_nat position) original
          ++ drop (Z.to_nat (position + length_)) original).
Proof.
  intros Hp Hk Hlen. unfold CreateDeletion.
  rewrite !bool_decide_eq_false_2 by lia. simpl.
  rewrite slice_prefix by lia. simpl.
  rewrite (int_add_exact position length_) by lia.
  case_bool_decide as Hclamp.
  - rewrite int_add_exact by lia.
    replace (position + (len original - position))%Z with (len original) by lia.
    rewrite slice_suffix by lia. simpl. do 2 f_equal.
    unfold len in *. rewrite !drop_ge; [done|lia..].
  - rewrite int_add_exact by lia. rewrite slice_suffix by lia. done.
Qed.

(** X10. [CreateDeletion] over the whole range of its [int] arguments.  A
    position outside the sequence gives back the original.  At a position
    inside, when [position + length] is a non-negative [int], the result
    is the original without the bytes from [position] to
    [position + length], or to its end where that comes first, so its
    length is [len(original) - min(length, len(original) - position)]: a
    negative length is not rejected, and makes the result longer than the
    original.  When [position + length] is negative or overflows, the
    call panics. *)
Theorem CreateDeletion_cases (original : gostring) (position length_ : Z) :
  is_int position → is_int length_ → (len original < 2 ^ 63)%Z →
  ((position < 0 ∨ len original ≤ position)%Z →
   CreateDeletion original position length_ = Some original) ∧
  ((0 ≤ position < len original)%Z →
   ((0 ≤ position + length_ < 2 ^ 63)%Z →
    ∃ mutated,
      CreateDeletion original position length_ = Some mutated ∧
      mutated = take (Z.to_nat position) original
                ++ drop (Z.to_nat (position + length_)) original ∧
      len mutated
      = (len original - Z.min length_ (len original - position))%Z) ∧
   ((position + length_ < 0 ∨ 2 ^ 63 ≤ position + length_)%Z →
    CreateDeletion original position length_ = None)).
Proof.
  intros Hp Hk Hlen. unfold is_int in *. split; [apply CreateDeletion_invalid|].
  intros Hpos. split.
  - intros Hsum. eexists. split; [by apply CreateDeletion_valid|].
    split; [done|]. unfold len in *.
    rewrite length_app, length_take, length_drop. lia.
  - intros Hsum. unfold CreateDeletion.
    rewrite !bool_decide_eq_false_2 by lia. simpl.
    rewrite slice_prefix by lia. simpl.
    assert (int_add position length_ < 0)%Z as Hneg.
    { destruct Hsum; [rewrite int_add_exact by lia; lia|].
      rewrite int_add_overflow by lia. lia. }
    rewrite bool_decide_eq_false_2 by lia.
    rewrite slice_None; [done|lia].
Qed.

Lemma CreateDeletion_cases_witness :
  is_int 3 ∧ is_int 10 ∧ (len GATTACA < 2 ^ 63)%Z ∧
  CreateDeletion GATTACA 3 10 = Some ["G"; "A"; "T"]%byte.
Proof.
  assert (is_int 3) as H1 by (unfold is_int; lia).
  assert (is_int 10) as H2 by (unfold is_int; lia).
  assert (len GATTACA < 2 ^ 63)%Z as H3 by (vm_compute; done).
  split_and!; [done..|].
  destruct (CreateDeletion_cases GATTACA 3 10 H1 H2 H3) as [_ Hvalid].
  destruct Hvalid as [Hdel _]; [vm_compute; split; congruence|].
  destruct Hdel as (mutated & -> & -> & _); [lia|]. done.
Defined.

(** X11. Deleting what was just inserted gives back the original: for
    every position, valid or not, [CreateDeletion] of [len(inserted)]
    bytes at the position of a [CreateInsertion] returns the original
    sequence. *)
Theorem deletion_undoes_insertion (original inserted : gostring) (position : Z) :
  (len original + len inserted < 2 ^ 63)%Z →
  ∃ mutated,
    CreateInsertion original position inserted = Some mutated ∧
    CreateDeletion mutated position (len inserted) = Some original.
Proof.
  intros Hlen. unfold len in *.
  destruct (decide (0 ≤ position ≤ len original)%Z) as [Hp|Hp].
  - eexists. split; [by apply CreateInsertion_valid|].
    remember (Z.to_nat position) as p eqn:Hpp.
    assert (p ≤ length original) as Hple by (unfold len in Hp; lia).
    destruct (decide (position = len original ∧ inserted = [])) as [[Hend ->]|Hne].
    + rewrite CreateDeletion_invalid.
      * simpl. by rewrite take_drop.
      * right. unfold len in *. simpl. rewrite length_app, length_take, length_drop.
        lia.
    + assert (length inserted = 0 → inserted = []) as Hnil
        by (by destruct inserted).
      rewrite CreateDeletion_valid.
      * f_equal. rewrite take_app_length' by (rewrite length_take; lia).
        replace (Z.to_nat (position + Z.of_nat (length inserted)))
          with (length (take p original) + length inserted)
          by (unfold len; rewrite length_take; lia).
        rewrite <- drop_drop, drop_app_length, drop_app_length.
        by rewrite take_drop.
      * unfold len in *.
        rewrite !length_app, length_take, length_drop.
        destruct (decide (length inserted = 0)) as [H0|]; [|lia].
        apply Hnil in H0.
        assert (position ≠ Z.of_nat (length original)) by (intros ?; by apply Hne).
        lia.
      * unfold len in *. lia.
      * unfold len in *. rewrite !length_app, length_take, length_drop. lia.
  - eexists. split; [apply CreateInsertion_invalid; lia|].
    apply CreateDeletion_invalid. unfold len in *. lia.
Qed.

Lemma deletion_undoes_insertion_witness :
  (len GATTACA + len GATACA < 2 ^ 63)%Z ∧
  ∃ mutated,
    CreateInsertion GATTACA 3 GATACA = Some mutated ∧
    CreateDeletion mutated 3 (len GATACA) = Some GATTACA.
Proof.
  assert (len GATTACA + len GATACA < 2 ^ 63)%Z as H by (vm_compute; done).
  split; [done|]. exact (deletion_undoes_insertion GATTACA GATACA 3 H).
Defined.

(** ** Aligning a mutated sequence with its original *)

Lemma omap_fst_matched (l : gostring) :
  omap fst ((λ b, (Some b, Some b) : column) <$> l) = l.
Proof. induction l as [|b l IH]; csimpl; [done|]. by rewrite IH. Qed.

Lemma omap_snd_matched (l : gostring) :
  omap snd ((λ b, (Some b, Some b) : column) <$> l) = l.
Proof. induction l as [|b l IH]; csimpl; [done|]. by rewrite IH. Qed.

Lemma omap_fst_query_only (l : gostring) :
  omap fst ((λ b, (Some b, None) : column) <$> l) = l.
Proof. induction l as [|b l IH]; csimpl; [done|]. by rewrite IH. Qed.

Lemma omap_snd_query_only (l : gostring) :
  omap snd ((λ b, (Some b, None) : column) <$> l) = [].
Proof. induction l as [|b l IH]; csimpl; [done|]. by rewrite IH. Qed.

Lemma omap_fst_reference_only (l : gostring) :
  omap fst ((λ b, (None, Some b) : column) <$> l) = [].
Proof. induction l as [|b l IH]; csimpl; [done|]. by rewrite IH. Qed.

Lemma omap_snd_reference_only (l : gostring) :
  omap snd ((λ b, (None, Some b) : column) <$> l) = l.
Proof. induction l as [|b l IH]; csimpl; [done|]. by rewrite IH. Qed.

Lemma columns_score_app c1 c2 :
  columns_score (c1 ++ c2) = (columns_score c1 + columns_score c2)%Z.
Proof. unfold columns_score. by rewrite fmap_app, sum_Z_app. Qed.

Lemma columns_score_matched (l : gostring) :
  columns_score ((λ b, (Some b, Some b) : column) <$> l)
  = (MatchScore * Z.of_nat (length l))%Z.
Proof.
  unfold columns_score. induction l as [|b l IH]; csimpl; [done|].
  rewrite IH, match_score_refl. unfold MatchScore. lia.
Qed.

Lemma columns_score_query_only (l : gostring) :
  columns_score ((λ b, (Some b, None) : column) <$> l)
  = (GapPenalty * Z.of_nat (length l))%Z.
Proof.
  unfold columns_score. induction l as [|b l IH]; csimpl; [done|].
  rewrite IH. unfold GapPenalty. lia.
Qed.

Lemma columns_score_reference_only (l : gostring) :
  columns_score ((λ b, (None, Some b) : column) <$> l)
  = (GapPenalty * Z.of_nat (length l))%Z.
Proof.
  unfold columns_score. induction l as [|b l IH]; csimpl; [done|].
  rewrite IH. unfold GapPenalty. lia.
Qed.

(** Two sequences that differ by one run of symbols score at least the
    matches of what they share minus the gaps of the run. *)
Lemma SmithWaterman_one_run (a x b : gostring) :
  ∃ res res',
    SmithWaterman (a ++ x ++ b) (a ++ b) = Some res ∧
    SmithWaterman (a ++ b) (a ++ x ++ b) = Some res' ∧
    MaxScore res' = MaxScore res ∧
    (MatchScore * Z.of_nat (length a + length b)
       + GapPenalty * Z.of_nat (length x) ≤ MaxScore res
       ≤ MatchScore * Z.of_nat (length a + length b))%Z.
Proof.
  destruct (SmithWaterman_walk (a ++ x ++ b) (a ++ b))
    as (res & maxRow & maxCol & cols & Hres & HM & Hmax & Hrow & Hcol & _).
  destruct (SmithWaterman_walk (a ++ b) (a ++ x ++ b))
    as (res' & maxRow' & maxCol' & cols' & Hres' & HM' & Hmax' & Hrow' & Hcol' & _).
  exists res, res'. split; [done|]. split; [done|].
  pose proof Hmax as (Hcell & Hub & _). pose proof Hmax' as (Hcell' & Hub' & _).
  assert (MaxScore res' = MaxScore res) as Hsym.
  { rewrite <- (sw_matrix_transpose _ _ _ _ HM HM') in Hcell by done.
    rewrite <- (sw_matrix_transpose _ _ _ _ HM' HM) in Hcell' by done.
    apply Hub' in Hcell. apply Hub in Hcell'. lia. }
  split; [done|]. split.
  - set (cs := ((λ c, (Some c, Some c) : column) <$> a)
               ++ ((λ c, (Some c, None) : column) <$> x)
               ++ ((λ c, (Some c, Some c) : column) <$> b)).
    destruct (sw_matrix_dominates _ _ _ HM cs
                (length (a ++ x ++ b)) (length (a ++ b)) 0 0)
      as (v & Hv & Hle); [done|done| | |].
    + rewrite firstn_all, drop_0. unfold cs. rewrite !omap_app.
      by rewrite !omap_fst_matched, omap_fst_query_only.
    + rewrite firstn_all, drop_0. unfold cs. rewrite !omap_app.
      by rewrite !omap_snd_matched, omap_snd_query_only.
    + apply Hub in Hv. unfold cs in Hle. rewrite !columns_score_app in Hle.
      rewrite !columns_score_matched, columns_score_query_only in Hle.
      unfold MatchScore, GapPenalty in *. lia.
  - pose proof (sw_matrix_upper _ _ _ HM _ _ _ Hcell) as Hup.
    rewrite !length_app in Hrow, Hcol. unfold MatchScore. lia.
Qed.

(** X12. The score of a sequence with an insertion against its original,
    as in [demonstrateInsertion]: whatever the position and the inserted
    sequence, [SmithWaterman] of the result of [CreateInsertion] against
    the reference returns a score of at least
    [MatchScore * len(reference) + GapPenalty * len(inserted)] and at
    most [MatchScore * len(reference)]. *)
Theorem insertion_costs_its_gaps (reference inserted : gostring) (position : Z) :
  ∃ query res,
    CreateInsertion reference position inserted = Some query ∧
    SmithWaterman query reference = Some res ∧
    (MatchScore * len reference + GapPenalty * len inserted ≤ MaxScore res
       ≤ MatchScore * len reference)%Z.
Proof.
  destruct (decide (0 ≤ position ≤ len reference)%Z) as [Hp|Hp].
  - destruct (SmithWaterman_one_run (take (Z.to_nat position) reference)
                inserted (drop (Z.to_nat position) reference))
      as (res & _ & Hres & _ & _ & Hbounds).
    rewrite take_drop in Hres.
    eexists _, res. split; [by apply CreateInsertion_valid|]. split; [done|].
    unfold len in *. rewrite length_take, length_drop in Hbounds.
    replace (Z.to_nat position `min` length reference
             + (length reference - Z.to_nat position))
      with (length reference) in Hbounds by lia.
    done.
  - destruct (SmithWaterman_self reference) as (res & Hres & Hscore & _).
    eexists _, res. split; [apply CreateInsertion_invalid; lia|]. split; [done|].
    unfold len, MatchScore, GapPenalty in *. lia.
Qed.

(** X13. The score of a sequence with a deletion against its original, as
    in [demonstrateDeletion]: for a length that is not negative,
    [CreateDeletion] returns a query that is shorter than the reference
    by at most [length] bytes, and [SmithWaterman] of the query against
    the reference returns a score of at least
    [MatchScore * len(query) + GapPenalty * (len(reference) - len(query))]
    and at most [MatchScore * len(query)]. *)
Theorem deletion_costs_its_gaps (reference : gostring) (position length_ : Z) :
  (0 ≤ length_)%Z → (position + length_ < 2 ^ 63)%Z →
  (len reference < 2 ^ 63)%Z →
  ∃ query res,
    CreateDeletion reference position length_ = Some query ∧
    SmithWaterman query reference = Some res ∧
    (len reference - length_ ≤ len query ≤ len reference)%Z ∧
    (MatchScore * len query + GapPenalty * (len reference - len query)
       ≤ MaxScore res ≤ MatchScore * len query)%Z.
Proof.
  intros Hk Hsum Hlen.
  destruct (decide (0 ≤ position < len reference)%Z) as [Hp|Hp].
  - set (p := Z.to_nat position). set (e := Z.to_nat (position + length_)).
    destruct (SmithWaterman_one_run (take p reference)
                (take (e - p) (drop p reference)) (drop e reference))
      as (res & res' & _ & Hres' & Hsym & Hbounds).
    assert (take p reference ++ take (e - p) (drop p reference)
            ++ drop e reference = reference) as Hsplit.
    { rewrite <- (take_drop p reference) at 4. f_equal.
      rewrite <- (take_drop (e - p) (drop p reference)) at 2. f_equal.
      rewrite drop_drop. f_equal. lia. }
    rewrite Hsplit in Hres'.
    eexists _, res'. split; [apply CreateDeletion_valid; lia|].
    split; [exact Hres'|].
    unfold len in *. fold p e.
    rewrite !length_app, !length_take, !length_drop in *.
    rewrite Hsym. unfold MatchScore, GapPenalty in *. lia.
  - destruct (SmithWaterman_self reference) as (res & Hres & Hscore & _).
    eexists _, res. split; [apply CreateDeletion_invalid; lia|]. split; [done|].
    unfold len, MatchScore, GapPenalty in *. lia.
Qed.

Lemma deletion_costs_its_gaps_witness :
  (0 ≤ 1)%Z ∧ (3 + 1 < 2 ^ 63)%Z ∧ (len GATTACA < 2 ^ 63)%Z ∧
  ∃ res,
    CreateDeletion GATTACA 3 1 = Some GATACA ∧
    SmithWaterman GATACA GATTACA = Some res ∧
    (10 ≤ MaxScore res ≤ 12)%Z.
Proof.
  assert (0 ≤ 1)%Z as H1 by lia.
  assert (3 + 1 < 2 ^ 63)%Z as H2 by lia.
  assert (len GATTACA < 2 ^ 63)%Z as H3 by (vm_compute; done).
  split_and!; [exact H1|exact H2|exact H3|].
  destruct (deletion_costs_its_gaps GATTACA 3 1 H1 H2 H3)
    as (query & res & Hdel & Hres & _ & Hbounds).
  assert (query = GATACA) as ->
    by (vm_compute in Hdel; injection Hdel as <-; reflexivity).
  exists res. split; [exact Hdel|]. split; [exact Hres|].
  unfold MatchScore, GapPenalty, len in Hbounds. simpl in Hbounds. lia.
Defined.

(** ** The match line and the mutation list *)

Lemma count_byte_app c s1 s2 :
  count_byte c (s1 ++ s2) = count_byte c s1 + count_byte c s2.
Proof. unfold count_byte. by rewrite filter_app, length_app. Qed.

Lemma count_byte_singleton c b :
  count_byte c [b] = if decide (b = c) then 1 else 0.
Proof.
  unfold count_byte. destruct (decide (b = c)) as [->|Hne].
  - by rewrite filter_cons_True.
  - by rewrite filter_cons_False.
Qed.

Lemma zip_with_take_snoc {A B C : Type} (f : A → B → C) (l1 : list A)
    (l2 : list B) k a b :
  l1 !! k = Some a → l2 !! k = Some b →
  zip_with f (take (S k) l1) (take (S k) l2)
  = zip_with f (take k l1) (take k l2) ++ [f a b].
Proof.
  intros H1 H2. rewrite (take_S_r _ _ _ H1), (take_S_r _ _ _ H2).
  rewrite zip_with_app; [done|].
  rewrite !length_take. apply lookup_lt_Some in H1, H2. lia.
Qed.

Lemma zip_with_take_min {A B C : Type} (f : A → B → C) (l1 : list A)
    (l2 : list B) :
  zip_with f (take (length l1 `min` length l2) l1)
    (take (length l1 `min` length l2) l2)
  = zip_with f l1 l2.
Proof.
  revert l2. induction l1 as [|a l1 IH]; intros [|b l2]; simpl; try done.
  by rewrite IH.
Qed.

(** The loop of [generateMatchLine] writes one symbol for each column of
    the shorter string and leaves the rest of the line as allocated. *)
Lemma generateMatchLine_spec (seq1 seq2 : gostring) :
  generateMatchLine seq1 seq2
  = Some (zip_with match_symbol seq1 seq2
          ++ replicate (length seq1 - length seq2) "000"%byte).
Proof.
  unfold generateMatchLine.
  set (n := length seq1 `min` length seq2).
  edestruct (for_loop_inv
    (λ k (line : gostring),
       line = zip_with match_symbol (take k seq1) (take k seq2)
              ++ replicate (length seq1 - k) "000"%byte))
    as (line & -> & ->).
  - by rewrite !take_0, Nat.sub_0_r.
  - intros k t Hk ->. simpl in Hk.
    destruct (lookup_lt_is_Some_2 seq1 k) as [b1 Hb1]; [lia|].
    destruct (lookup_lt_is_Some_2 seq2 k) as [b2 Hb2]; [lia|].
    rewrite (zip_with_take_snoc _ _ _ _ _ _ Hb1 Hb2).
    assert (length (zip_with match_symbol (take k seq1) (take k seq2)) = k)
      as Hzip.
    { rewrite length_zip_with, !length_take. lia. }
    assert (∀ c, set_byte
              (zip_with match_symbol (take k seq1) (take k seq2)
               ++ replicate (length seq1 - k) "000"%byte) k c
            = Some ((zip_with match_symbol (take k seq1) (take k seq2) ++ [c])
                    ++ replicate (length seq1 - S k) "000"%byte)) as Hset.
    { intros c. unfold set_byte.
      rewrite decide_True by (rewrite length_app, length_replicate; lia).
      f_equal. replace (length seq1 - k) with (S (length seq1 - S k)) by lia.
      rewrite <- Hzip at 1. rewrite insert_app_r_alt by lia.
      rewrite Nat.sub_diag. simpl. by rewrite <- app_assoc. }
    rewrite Hb1. simpl. unfold match_symbol.
    destruct (Byte.eqb b1 gap); simpl; [by eexists|].
    rewrite Hb2. simpl.
    destruct (Byte.eqb b2 gap); simpl; [by eexists|].
    destruct (Byte.eqb b1 b2); by eexists.
  - simpl. unfold n. rewrite zip_with_take_min. do 3 f_equal. lia.
Qed.

(** The score [calculateAlignmentScore] gives to the columns of a match
    line. *)
Lemma pair_score_match_symbol b1 b2 :
  pair_score b1 b2
  = (MatchScore * (if decide (match_symbol b1 b2 = "|"%byte) then 1 else 0)
     + MismatchScore * (if decide (match_symbol b1 b2 = "."%byte) then 1 else 0)
     + GapPenalty * (if decide (match_symbol b1 b2 = " "%byte) then 1 else 0))%Z.
Proof.
  unfold pair_score, match_symbol.
  destruct (Byte.eqb b1 gap || Byte.eqb b2 gap); [done|].
  destruct (Byte.eqb b1 b2); done.
Qed.

Lemma sum_pair_score (seq1 seq2 : gostring) :
  sum_Z (zip_with pair_score seq1 seq2)
  = (MatchScore * Z.of_nat (count_byte "|" (zip_with match_symbol seq1 seq2))
     + MismatchScore * Z.of_nat (count_byte "." (zip_with match_symbol seq1 seq2))
     + GapPenalty * Z.of_nat (count_byte " " (zip_with match_symbol seq1 seq2)))%Z.
Proof.
  revert seq2. induction seq1 as [|b1 s1 IH]; intros [|b2 s2]; try done.
  simpl. rewrite IH, pair_score_match_symbol.
  change (match_symbol b1 b2 :: zip_with match_symbol s1 s2)
    with ([match_symbol b1 b2] ++ zip_with match_symbol s1 s2).
  rewrite !count_byte_app, !count_byte_singleton.
  unfold MatchScore, MismatchScore, GapPenalty.
  repeat destruct (decide _); lia.
Qed.

(** X14. The match line accounts for the score of an alignment.  When the
    first string is not longer than the second, [generateMatchLine]
    returns a line of the length of the first string, and
    [calculateAlignmentScore] of the two strings is [MatchScore] times
    the number of '|' of the line, plus [MismatchScore] times the number
    of '.', plus [GapPenalty] times the number of ' '. *)
Theorem match_line_accounts_for_score (seq1 seq2 : gostring) :
  length seq1 ≤ length seq2 →
  ∃ line,
    generateMatchLine seq1 seq2 = Some line ∧
    length line = length seq1 ∧
    calculateAlignmentScore seq1 seq2
    = Some (MatchScore * Z.of_nat (count_byte "|" line)
            + MismatchScore * Z.of_nat (count_byte "." line)
            + GapPenalty * Z.of_nat (count_byte " " line))%Z.
Proof.
  intros Hlen. rewrite generateMatchLine_spec.
  replace (length seq1 - length seq2) with 0 by lia. simpl. rewrite app_nil_r.
  eexists. split; [done|]. split.
  - rewrite length_zip_with. lia.
  - rewrite calculateAlignmentScore_spec by done. by rewrite sum_pair_score.
Qed.

Lemma match_line_accounts_for_score_witness :
  length GATTACA ≤ length ["G"; "A"; "-"; "T"; "C"; "C"; "A"]%byte ∧
  generateMatchLine GATTACA ["G"; "A"; "-"; "T"; "C"; "C"; "A"]%byte
    = Some ["|"; "|"; " "; "|"; "."; "|"; "|"]%byte ∧
  calculateAlignmentScore GATTACA ["G"; "A"; "-"; "T"; "C"; "C"; "A"]%byte
    = Some (MatchScore * 5 + MismatchScore * 1 + GapPenalty * 1)%Z.
Proof.
  assert (length GATTACA ≤ length ["G"; "A"; "-"; "T"; "C"; "C"; "A"]%byte)
    as Hlen by (simpl; lia).
  split; [exact Hlen|].
  destruct (match_line_accounts_for_score GATTACA _ Hlen)
    as (line & Hline & _ & Hscore).
  assert (line = ["|"; "|"; " "; "|"; "."; "|"; "|"]%byte) as ->
    by (vm_compute in Hline; congruence).
  split; [exact Hline|exact Hscore].
Defined.

(** X15. [generateMatchLine] on strings of any lengths does not panic.
    The line has the length of the first string; where both strings have
    a byte it holds ' ' when one of the two is the gap marker, '|' when
    the two are equal and '.' otherwise; and where the first string is
    longer than the second it holds the zero byte of the allocation, not
    a space. *)
Theorem match_line_shape (seq1 seq2 : gostring) :
  ∃ line,
    generateMatchLine seq1 seq2 = Some line ∧
    length line = length seq1 ∧
    (∀ i b1 b2, seq1 !! i = Some b1 → seq2 !! i = Some b2 →
       line !! i = Some (match_symbol b1 b2)) ∧
    (∀ i, length seq2 ≤ i < length seq1 → line !! i = Some "000"%byte).
Proof.
  rewrite generateMatchLine_spec. eexists. split; [done|].
  assert (length (zip_with match_symbol seq1 seq2)
          = length seq1 `min` length seq2) as Hzip
    by (by rewrite length_zip_with).
  split_and!.
  - rewrite length_app, length_replicate, Hzip. lia.
  - intros i b1 b2 H1 H2. rewrite lookup_app_l.
    + rewrite lookup_zip_with, H1. simpl. by rewrite H2.
    + apply lookup_lt_Some in H1, H2. lia.
  - intros i Hi. rewrite lookup_app_r by lia.
    apply lookup_replicate_2. lia.
Qed.

Lemma gap_columns_snoc ms m :
  gap_columns (ms ++ [m])
  = gap_columns ms + match Type_ m with snp => 0 | _ => Length m end.
Proof. unfold gap_columns. by rewrite sum_list_snoc. Qed.

Lemma snp_columns_snoc ms m :
  snp_columns (ms ++ [m])
  = snp_columns ms + match Type_ m with snp => Length m | _ => 0 end.
Proof. unfold snp_columns. by rewrite sum_list_snoc. Qed.

Lemma last_index_snoc {A : Type} (ms : list A) (last : A) :
  (ms ++ [last]) !! (length (ms ++ [last]) - 1) = Some last ∧
  ∀ x, <[length (ms ++ [last]) - 1 := x]> (ms ++ [last]) = ms ++ [x].
Proof.
  rewrite length_app. simpl.
  replace (length ms + 1 - 1) with (length ms + 0) by lia. split.
  - by rewrite lookup_app_r, Nat.add_0_r, Nat.sub_diag by lia.
  - intros x. by rewrite insert_app_r.
Qed.

(** One iteration of [detectMutations] keeps the invariant, against the
    match line extended by the symbol of the column. *)
Lemma detect_step_inv (alignedQuery alignedRef : gostring) k qb rb line s :
  alignedQuery !! k = Some qb → alignedRef !! k = Some rb →
  detect_inv line s →
  ∃ s', detect_step alignedQuery alignedRef k s = Some s' ∧
        detect_inv (line ++ [match_symbol qb rb]) s'.
Proof.
  intros Hqb Hrb (Hgap & Hsnp & Hall & Hcur).
  unfold detect_step. rewrite Hqb. simpl. unfold match_symbol.
  assert (∀ t, t ≠ snp → starts_new (ds_currentMutation s) t = false →
            ∃ ms last, ds_mutations s = ms ++ [last] ∧ Type_ last = t)
    as Hcont.
  { intros t Ht Hnew. unfold starts_new in Hnew.
    destruct (ds_currentMutation s) as [m|] eqn:Hm; [|done].
    destruct (Hcur m eq_refl) as (_ & ms & last & Hms & Hty).
    exists ms, last. split; [done|]. rewrite Hty.
    destruct (Type_ m), t; done. }
  assert (∀ (ms : list Mutation) (last : Mutation) x,
            <[length (ms ++ [last]) - 1 := x]> (ms ++ [last]) = ms ++ [x])
    as Hins by (intros; apply last_index_snoc).
  destruct (Byte.eqb qb gap) eqn:Eq; simpl.
  - rewrite Hrb. simpl.
    destruct (starts_new (ds_currentMutation s) deletion) eqn:Hnew.
    + eexists. split; [done|]. unfold detect_inv. simpl. split_and!.
      * rewrite gap_columns_snoc, count_byte_app, count_byte_singleton. simpl.
        rewrite Hgap. done.
      * rewrite snp_columns_snoc, count_byte_app, count_byte_singleton. simpl.
        rewrite Hsnp. done.
      * apply Forall_app. split; [done|]. apply Forall_singleton. simpl.
        split; [lia|done].
      * intros m [= <-]. simpl. split; [done|]. by eexists _, _.
    + destruct (Hcont deletion) as (ms & last & Hms & Hty); [done..|].
      rewrite Hms. destruct (last_index_snoc ms last) as [-> _]. simpl.
      eexists. split; [done|]. unfold detect_inv. simpl. rewrite Hins.
      rewrite Hms in Hgap, Hsnp, Hall.
      rewrite gap_columns_snoc in *. rewrite snp_columns_snoc in *.
      simpl. rewrite Hty in *.
      apply Forall_app in Hall as [Hall Hlast].
      apply Forall_singleton in Hlast as [Hlen _].
      rewrite !count_byte_app, !count_byte_singleton. simpl. split_and!.
      * lia.
      * lia.
      * apply Forall_app. split; [done|]. apply Forall_singleton. simpl.
        split; [lia|done].
      * intros m Hm. destruct (Hcur m Hm) as (Hne & _). split; [done|].
        eexists _, _. split; [done|]. simpl.
        unfold starts_new in Hnew. rewrite Hm in Hnew.
        destruct (Type_ m); done.
  - rewrite Hrb. simpl. destruct (Byte.eqb rb gap) eqn:Er; simpl.
    + destruct (starts_new (ds_currentMutation s) insertion) eqn:Hnew.
      * eexists. split; [done|]. unfold detect_inv. simpl. split_and!.
        -- rewrite gap_columns_snoc, count_byte_app, count_byte_singleton. simpl.
           rewrite Hgap. done.
        -- rewrite snp_columns_snoc, count_byte_app, count_byte_singleton. simpl.
           rewrite Hsnp. done.
        -- apply Forall_app. split; [done|]. apply Forall_singleton. simpl.
           split; [lia|done].
        -- intros m [= <-]. simpl. split; [done|]. by eexists _, _.
      * destruct (Hcont insertion) as (ms & last & Hms & Hty); [done..|].
        rewrite Hms. destruct (last_index_snoc ms last) as [-> _]. simpl.
        eexists. split; [done|]. unfold detect_inv. simpl. rewrite Hins.
        rewrite Hms in Hgap, Hsnp, Hall.
        rewrite gap_columns_snoc in *. rewrite snp_columns_snoc in *.
        simpl. rewrite Hty in *.
        apply Forall_app in Hall as [Hall Hlast].
        apply Forall_singleton in Hlast as [Hlen _].
        rewrite !count_byte_app, !count_byte_singleton. simpl. split_and!.
        -- lia.
        -- lia.
        -- apply Forall_app. split; [done|]. apply Forall_singleton. simpl.
           split; [lia|done].
        -- intros m Hm. destruct (Hcur m Hm) as (Hne & _). split; [done|].
           eexists _, _. split; [done|]. simpl.
           unfold starts_new in Hnew. rewrite Hm in Hnew.
           destruct (Type_ m); done.
    + destruct (Byte.eqb qb rb) eqn:Eqr; simpl.
      * eexists. split; [done|]. unfold detect_inv. simpl.
        rewrite !count_byte_app, !count_byte_singleton. simpl.
        split_and!; [lia|lia|done|done].
      * eexists. split; [done|]. unfold detect_inv. simpl.
        rewrite gap_columns_snoc, snp_columns_snoc.
        rewrite !count_byte_app, !count_byte_singleton. simpl.
        split_and!; [lia|lia| |done].
        apply Forall_app. split; [done|]. apply Forall_singleton. simpl.
        split; [lia|done].
Qed.

Lemma snp_columns_count (ms : list Mutation) :
  Forall (λ m, 1 ≤ Length m ∧ (Type_ m = snp → Length m = 1)) ms →
  snp_columns ms = length (filter (λ m, Type_ m = snp) ms).
Proof.
  unfold snp_columns. induction 1 as [|m ms [_ Hm] _ IH]; [done|]. csimpl.
  rewrite IH. destruct (decide (Type_ m = snp)) as [Hs|Hs].
  - rewrite filter_cons_True by done. rewrite Hs, (Hm Hs). done.
  - rewrite filter_cons_False by done. by destruct (Type_ m).
Qed.

Lemma count_byte_replicate_ne c b n : b ≠ c → count_byte c (replicate n b) = 0.
Proof.
  intros Hne. unfold count_byte. induction n as [|n IH]; [done|]. simpl.
  by rewrite filter_cons_False.
Qed.

Lemma Forall_zip_with_match_symbol (seq1 seq2 : gostring) :
  Forall (λ b, b = "|"%byte ∨ b = "."%byte ∨ b = " "%byte)
    (zip_with match_symbol seq1 seq2).
Proof.
  revert seq2. induction seq1 as [|b1 s1 IH]; intros [|b2 s2]; simpl;
    try by constructor.
  constructor; [|done]. unfold match_symbol.
  destruct (_ || _); [auto|]. destruct (Byte.eqb b1 b2); auto.
Qed.

(** The mutation list against the columns both loops look at. *)
Lemma detectMutations_spec (alignedQuery alignedRef : gostring) :
  ∃ mutations,
    detectMutations alignedQuery alignedRef = Some mutations ∧
    gap_columns mutations
    = count_byte " " (zip_with match_symbol alignedQuery alignedRef) ∧
    snp_columns mutations
    = count_byte "." (zip_with match_symbol alignedQuery alignedRef) ∧
    Forall (λ m, 1 ≤ Length m ∧ (Type_ m = snp → Length m = 1)) mutations.
Proof.
  unfold detectMutations.
  set (n := length alignedQuery `min` length alignedRef).
  edestruct (for_loop_inv
    (λ k s, detect_inv
              (zip_with match_symbol (take k alignedQuery) (take k alignedRef)) s)
    (detect_step alignedQuery alignedRef) 0 n)
    as (s & -> & Hgap & Hsnp & Hall & _).
  - rewrite !take_0. unfold detect_inv. simpl. split_and!; try done.
  - intros k t Hk Hinv. simpl in Hk.
    destruct (lookup_lt_is_Some_2 alignedQuery k) as [qb Hqb]; [lia|].
    destruct (lookup_lt_is_Some_2 alignedRef k) as [rb Hrb]; [lia|].
    rewrite (zip_with_take_snoc _ _ _ _ _ _ Hqb Hrb).
    by eapply detect_step_inv.
  - simpl in *. unfold n in *. rewrite zip_with_take_min in Hgap, Hsnp.
    eexists. split; [done|]. done.
Qed.

(** X16. The mutation list and the match line tell the same story.
    [detectMutations] does not panic; the lengths of the insertions and
    deletions it returns add up to the number of ' ' of the line
    [generateMatchLine] returns for the same strings, the number of SNPs
    is the number of '.', every mutation has a length of at least 1 and
    every SNP the length 1. *)
Theorem mutations_agree_with_match_line (alignedQuery alignedRef : gostring) :
  ∃ mutations line,
    detectMutations alignedQuery alignedRef = Some mutations ∧
    generateMatchLine alignedQuery alignedRef = Some line ∧
    gap_columns mutations = count_byte " " line ∧
    length (filter (λ m, Type_ m = snp) mutations) = count_byte "." line ∧
    Forall (λ m, 1 ≤ Length m ∧ (Type_ m = snp → Length m = 1)) mutations.
Proof.
  destruct (detectMutations_spec alignedQuery alignedRef)
    as (mutations & Hm & Hgap & Hsnp & Hall).
  exists mutations. rewrite generateMatchLine_spec. eexists.
  split; [done|]. split; [done|].
  rewrite !count_byte_app, !count_byte_replicate_ne by done.
  rewrite !Nat.add_0_r. split_and!; [done| |done].
  by rewrite <- Hsnp, snp_columns_count.
Qed.

(** X17. What [generateVisualization] shows about a result is
    consistent.  For sequences of plain symbols, with the aligned strings
    [SmithWaterman] returns, the match line has the length of the
    aligned query and is made of '|', '.' and ' ' only, and the score
    shown, [MaxScore], is [MatchScore] times the number of '|' of the
    line, plus [MismatchScore] times the number of SNPs of the mutation
    list, plus [GapPenalty] times the total length of its insertions and
    deletions. *)
Theorem visualisation_is_consistent (query reference : gostring) :
  plain query → plain reference →
  ∃ res mutations line,
    SmithWaterman query reference = Some res ∧
    detectMutations (AlignedQuery res) (AlignedRef res) = Some mutations ∧
    generateMatchLine (AlignedQuery res) (AlignedRef res) = Some line ∧
    length line = length (AlignedQuery res) ∧
    Forall (λ b, b = "|"%byte ∨ b = "."%byte ∨ b = " "%byte) line ∧
    MaxScore res
    = (MatchScore * Z.of_nat (count_byte "|" line)
       + MismatchScore * Z.of_nat (length (filter (λ m, Type_ m = snp) mutations))
       + GapPenalty * Z.of_nat (gap_columns mutations))%Z.
Proof.
  intros Hq Hr.
  destruct (SmithWaterman_columns query reference Hq Hr)
    as (res & cols & Hres & Hcols & Hlq & Hlr & Hcscore & _).
  assert (length (AlignedQuery res) = length (AlignedRef res)) as Hlen by lia.
  assert (calculateAlignmentScore (AlignedQuery res) (AlignedRef res)
          = Some (MaxScore res)) as Hscore.
  { rewrite calculateAlignmentScore_columns by lia. by rewrite Hcols, Hcscore. }
  destruct (detectMutations_spec (AlignedQuery res) (AlignedRef res))
    as (mutations & Hm & Hgap & Hsnp & Hall).
  exists res, mutations. rewrite generateMatchLine_spec. eexists.
  split; [done|]. split; [done|]. split; [done|].
  replace (length (AlignedQuery res) - length (AlignedRef res)) with 0 by lia.
  simpl. rewrite app_nil_r. split_and!.
  - rewrite length_zip_with. lia.
  - apply Forall_zip_with_match_symbol.
  - rewrite calculateAlignmentScore_spec in Hscore by lia.
    injection Hscore as <-.
    by rewrite sum_pair_score, <- Hgap, <- Hsnp, snp_columns_count.
Qed.

Lemma visualisation_is_consistent_witness :
  plain GATTACA ∧ plain GATACA ∧
  ∃ res mutations line,
    SmithWaterman GATTACA GATACA = Some res ∧
    detectMutations (AlignedQuery res) (AlignedRef res) = Some mutations ∧
    generateMatchLine (AlignedQuery res) (AlignedRef res) = Some line ∧
    MaxScore res
    = (MatchScore * Z.of_nat (count_byte "|" line)
       + MismatchScore * Z.of_nat (length (filter (λ m, Type_ m = snp) mutations))
       + GapPenalty * Z.of_nat (gap_columns mutations))%Z.
Proof.
  assert (plain GATTACA) as Hq by (repeat constructor; done).
  assert (plain GATACA) as Hr by (repeat constructor; done).
  split_and!; [exact Hq|exact Hr|].
  destruct (visualisation_is_consistent GATTACA GATACA Hq Hr)
    as (res & mutations & line & Hres & Hm & Hline & _ & _ & Hscore).
  exists res, mutations, line.
  split_and!; [exact Hres|exact Hm|exact Hline|exact Hscore].
Defined.

(** ** The recorded maximum, whatever the schedule *)

Section parallel_maximum.
Context (query reference : gostring).
Abbreviation m := (length query).
Abbreviation n := (length reference).

(** An action that touches neither the matrix nor the maximum and is not
    the comparison keeps the invariant. *)
Lemma max_inv_local k s t t' :
  max_inv s → ps_tasks s !! k = Some t →
  wt_waveFront t' = wt_waveFront t → wt_i t ≤ wt_i t' → wt_pc t ≠ AtTrack →
  max_inv (set_tasks s (<[k := t']> (ps_tasks s))).
Proof.
  intros (Hlen & Hids & Hpos & Hcells & Hmax & Hfrozen) Hk Hwf Hi Hpc.
  unfold max_inv. simpl. split_and!; [|  |done| |done|].
  - by rewrite length_insert.
  - intros k0 t0 Hk0. destruct (decide (k0 = k)) as [->|Hne].
    + rewrite list_lookup_insert_eq in Hk0 by (by eapply lookup_lt_Some).
      injection Hk0 as <-. rewrite Hwf. by apply Hids.
    + rewrite list_lookup_insert_ne in Hk0 by done. by apply Hids.
  - intros i j v Hv. destruct (Hcells i j v Hv) as [?|(t0 & Ht0 & Hj & Hi0 & Hpc0)];
      [by left|right].
    destruct (decide (i + j - 2 = k)) as [Heq|Hne].
    + rewrite Heq, Hk in Ht0. injection Ht0 as <-. done.
    + exists t0. by rewrite list_lookup_insert_ne.
  - destruct Hfrozen as [?|(t0 & Ht0 & Hc & Hlt)]; [by left|right].
    destruct (decide (ps_maxRow s + ps_maxCol s - 2 = k)) as [Heq|Hne].
    + rewrite Heq, Hk in Ht0. injection Ht0 as <-. exists t'.
      rewrite Heq, list_lookup_insert_eq by (by eapply lookup_lt_Some).
      split_and!; [done|done|lia].
    + exists t0. by rewrite list_lookup_insert_ne.
Qed.

(** Every action of a wave goroutine keeps the invariant. *)
Lemma wave_step_max k s t :
  par_inv m n s → max_inv s → ps_tasks s !! k = Some t →
  match wave_step query reference s t with
  | Next (s', t') => max_inv (set_tasks s' (<[k := t']> (ps_tasks s')))
  | _ => True
  end.
Proof.
  intros [Hsh Hts] Hinv Hk. pose proof Hsh as (HM & Hnn & Hr & Hc).
  rewrite Forall_lookup in Hts. destruct (Hts _ _ Hk) as [Hi Hpc].
  pose proof Hinv as (Hlen & Hids & Hpos & Hcells & Hmax & Hfrozen).
  pose proof (Hids _ _ Hk) as Hwf.
  unfold wave_step.
  destruct (wt_pc t) as [|mt|sd|sd su|sd su sl| |] eqn:Epc.
  - destruct (bool_decide (wt_i t ≤ m) && bool_decide (wt_i t < wt_waveFront t));
      cycle 1.
    { apply max_inv_local with (t := t); try done. by rewrite Epc. }
    destruct (bool_decide (wt_waveFront t - wt_i t < 1)
              || bool_decide (n < wt_waveFront t - wt_i t)).
    { apply max_inv_local with (t := t); try done; [simpl; lia|by rewrite Epc]. }
    destruct (query !! (wt_i t - 1)) as [qb|]; [|done].
    destruct (reference !! (wt_waveFront t - wt_i t - 1)) as [rb|]; [|done].
    simpl. apply max_inv_local with (t := t); try done. by rewrite Epc.
  - destruct (cell (ps_matrix s) (wt_i t - 1) (wt_waveFront t - wt_i t - 1));
      [|done].
    simpl. apply max_inv_local with (t := t); try done. by rewrite Epc.
  - destruct (cell (ps_matrix s) (wt_i t - 1) (wt_waveFront t - wt_i t));
      [|done].
    simpl. apply max_inv_local with (t := t); try done. by rewrite Epc.
  - destruct (cell (ps_matrix s) (wt_i t) (wt_waveFront t - wt_i t - 1));
      [|done].
    simpl. apply max_inv_local with (t := t); try done. by rewrite Epc.
  - rewrite smithMax_four. simpl.
    destruct (set_cell (ps_matrix s) (wt_i t) (wt_waveFront t - wt_i t)
                (Z.max (Z.max (Z.max 0 sd) su) sl)) as [M'|] eqn:HM'; [|done].
    simpl. unfold max_inv. simpl. destruct Hpc as [Him Hj].
    split_and!; [| |done| | |].
    + by rewrite length_insert.
    + intros k0 t0 Hk0. destruct (decide (k0 = k)) as [->|Hne].
      * rewrite list_lookup_insert_eq in Hk0 by (by eapply lookup_lt_Some).
        injection Hk0 as <-. done.
      * rewrite list_lookup_insert_ne in Hk0 by done. by apply Hids.
    + intros i j v Hv.
      destruct (decide ((i, j) = (wt_i t, wt_waveFront t - wt_i t)))
        as [[= -> ->]|Hne].
      * right. exists (at_pc t AtTrack).
        replace (wt_i t + (wt_waveFront t - wt_i t) - 2) with k by lia.
        rewrite list_lookup_insert_eq by (by eapply lookup_lt_Some).
        split_and!; [done|lia|done|done].
      * rewrite (cell_set_cell_ne _ _ _ _ _ _ _ HM' Hne) in Hv.
        destruct (Hcells i j v Hv) as [?|(t0 & Ht0 & Hj0 & Hi0 & Hpc0)];
          [by left|right].
        destruct (decide (i + j - 2 = k)) as [Heq|Hnk].
        -- rewrite Heq, Hk in Ht0. injection Ht0 as <-. congruence.
        -- exists t0. by rewrite list_lookup_insert_ne.
    + rewrite (cell_set_cell_ne _ _ _ _ _ _ _ HM'); [done|].
      intros [= Hrow Hcol].
      destruct Hfrozen as [[? ?]|(t0 & Ht0 & Hc0 & Hlt)]; [lia|].
      replace (ps_maxRow s + ps_maxCol s - 2) with k in Ht0 by lia.
      rewrite Hk in Ht0. injection Ht0 as <-. lia.
    + destruct Hfrozen as [?|(t0 & Ht0 & Hc0 & Hlt)]; [by left|right].
      destruct (decide (ps_maxRow s + ps_maxCol s - 2 = k)) as [Heq|Hnk].
      * rewrite Heq, Hk in Ht0. injection Ht0 as <-. exists (at_pc t AtTrack).
        rewrite Heq, list_lookup_insert_eq by (by eapply lookup_lt_Some).
        done.
      * exists t0. by rewrite list_lookup_insert_ne.
  - destruct Hpc as [Him Hj].
    destruct (cell (ps_matrix s) (wt_i t) (wt_waveFront t - wt_i t))
      as [v|] eqn:Hv; [|done].
    simpl.
    assert (∀ maxScore maxRow maxCol,
      (ps_maxScore s ≤ maxScore)%Z → (v ≤ maxScore)%Z →
      cell (ps_matrix s) maxRow maxCol = Some maxScore →
      ((maxRow = ps_maxRow s ∧ maxCol = ps_maxCol s) ∨
       (maxRow = wt_i t ∧ maxCol = wt_waveFront t - wt_i t)) →
      max_inv {| ps_matrix := ps_matrix s; ps_maxScore := maxScore;
                 ps_maxRow := maxRow; ps_maxCol := maxCol;
                 ps_wave := ps_wave s;
                 ps_tasks := <[k := next_iteration t]> (ps_tasks s) |})
      as Hnext.
    { intros maxScore maxRow maxCol Hge Hvle Hcell Hwhere.
      unfold max_inv. simpl. split_and!; [| |lia| |done|].
      - by rewrite length_insert.
      - intros k0 t0 Hk0. destruct (decide (k0 = k)) as [->|Hne].
        + rewrite list_lookup_insert_eq in Hk0 by (by eapply lookup_lt_Some).
          injection Hk0 as <-. done.
        + rewrite list_lookup_insert_ne in Hk0 by done. by apply Hids.
      - intros i j v0 Hv0.
        destruct (Hcells i j v0 Hv0) as [?|(t0 & Ht0 & Hj0 & Hi0 & Hpc0)];
          [left; lia|].
        destruct (decide (i + j - 2 = k)) as [Heq|Hnk].
        + rewrite Heq, Hk in Ht0. injection Ht0 as <-. left.
          assert (j = wt_waveFront t - wt_i t) as -> by lia.
          rewrite <- Hi0, Hv in Hv0. injection Hv0 as <-. done.
        + right. exists t0. by rewrite list_lookup_insert_ne.
      - destruct Hwhere as [[-> ->]|[-> ->]].
        + destruct Hfrozen as [?|(t0 & Ht0 & Hc0 & Hlt)]; [by left|right].
          destruct (decide (ps_maxRow s + ps_maxCol s - 2 = k)) as [Heq|Hnk].
          * rewrite Heq, Hk in Ht0. injection Ht0 as <-.
            exists (next_iteration t).
            rewrite Heq, list_lookup_insert_eq by (by eapply lookup_lt_Some).
            split_and!; [done|done|simpl; lia].
          * exists t0. by rewrite list_lookup_insert_ne.
        + right. exists (next_iteration t).
          replace (wt_i t + (wt_waveFront t - wt_i t) - 2) with k by lia.
          rewrite list_lookup_insert_eq by (by eapply lookup_lt_Some).
          split_and!; [done|lia|simpl; lia]. }
    destruct (Hnn _ _ _ Hv) as [Hv0 _].
    repeat case_bool_decide; simpl.
    + apply (Hnext v (wt_i t) (wt_waveFront t - wt_i t)); [lia|lia|done|by right].
    + apply (Hnext (ps_maxScore s) (ps_maxRow s) (ps_maxCol s));
        [lia|lia|done|by left].
    + apply (Hnext (ps_maxScore s) (ps_maxRow s) (ps_maxCol s));
        [lia|lia|done|by left].
  - done.
Qed.

Lemma par_step_max ev s s' :
  par_inv m n s → max_inv s → par_step query reference ev s = Next s' →
  max_inv s'.
Proof.
  intros Hpar Hinv. destruct ev as [|k]; simpl.
  - case_bool_decide; [|done]. intros [= <-].
    destruct Hinv as (Hlen & Hids & Hpos & Hcells & Hmax & Hfrozen).
    unfold max_inv. simpl. split_and!; [| |done| |done|].
    + rewrite length_app. simpl. lia.
    + intros k t [Hk|[Hk Ht]]%lookup_app_Some; [by apply Hids|].
      destruct (k - length (ps_tasks s)) as [|?] eqn:Hd; [|done].
      injection Ht as <-. simpl. lia.
    + intros i j v Hv.
      destruct (Hcells i j v Hv) as [?|(t0 & Ht0 & ?)]; [by left|right].
      exists t0. split; [|done]. by apply lookup_app_l_Some.
    + destruct Hfrozen as [?|(t0 & Ht0 & ?)]; [by left|right].
      exists t0. split; [|done]. by apply lookup_app_l_Some.
  - destruct (ps_tasks s !! k) as [t|] eqn:Ht; [|done].
    pose proof (wave_step_max k s t Hpar Hinv Ht) as Hstep.
    destruct (wave_step query reference s t) as [[s1 t1]| |]; [|done..].
    by intros [= <-].
Qed.

Lemma max_inv_init : max_inv (par_init m n).
Proof.
  unfold max_inv. simpl. split_and!; [done|done|done| | |by left].
  - intros i j v Hv. left.
    destruct (cell_Some_inv _ _ _ _ _ _ (make_matrix_dims m n) Hv).
    rewrite cell_make_matrix in Hv by done. by injection Hv as <-.
  - apply cell_make_matrix; lia.
Qed.

Lemma par_run_max sched s :
  run_schedule (par_step query reference) sched (par_init m n) = Next s →
  par_inv m n s ∧ max_inv s.
Proof.
  apply (run_schedule_inv _ (λ s, par_inv m n s ∧ max_inv s)).
  - intros ev s0 [Hpar Hinv]. destruct (par_step_inv query reference ev s0 Hpar)
      as [Hnp Hnext].
    split; [done|]. intros s' Hs'. split; [by apply Hnext|].
    by eapply par_step_max.
  - split; [apply par_inv_init|apply max_inv_init].
Qed.

(** Once [wg.Wait()] has returned no cell is waiting for its comparison. *)
Lemma max_inv_joined s :
  max_inv s → par_joined query reference s = true →
  ∀ i j v, cell (ps_matrix s) i j = Some v → (v ≤ ps_maxScore s)%Z.
Proof.
  intros (_ & _ & _ & Hcells & _) Hj i j v Hv.
  destruct (Hcells i j v Hv) as [?|(t & Ht & _ & _ & Hpc)]; [done|].
  unfold par_joined in Hj. apply andb_true_iff in Hj as [_ Hall].
  rewrite forallb_forall in Hall.
  assert (In t (ps_tasks s)) as Hin.
  { apply list_elem_of_In. by eapply list_elem_of_lookup_2. }
  apply Hall in Hin. by rewrite Hpc in Hin.
Qed.
End parallel_maximum.

(** X18. Whatever the schedule, the score [ParallelSmithWaterman] returns
    is the largest value of the matrix it returns.  At and above the
    threshold of 50 symbols it is the value of the cell at ([MaxRow],
    [MaxCol]), from which the aligned strings are traced back; below the
    threshold [MaxRow] and [MaxCol] are left at 0. *)
Theorem parallel_maximum_is_consistent (gomaxprocs : Z)
    (query reference : gostring) (numWorkers : Z) (sched : list par_event)
    (res : ParallelAlignmentResult) :
  ParallelSmithWaterman gomaxprocs query reference numWorkers sched = Next res →
  (∀ i j v, cell (par_ScoreMatrix res) i j = Some v → (v ≤ par_MaxScore res)%Z) ∧
  (∃ i j, cell (par_ScoreMatrix res) i j = Some (par_MaxScore res)) ∧
  (50 ≤ length query → 50 ≤ length reference →
   cell (par_ScoreMatrix res) (par_MaxRow res) (par_MaxCol res)
   = Some (par_MaxScore res) ∧
   parallelTraceback (par_ScoreMatrix res) query reference
     (par_MaxRow res) (par_MaxCol res)
   = Some (par_AlignedQuery res, par_AlignedRef res)) ∧
  (length query < 50 ∨ length reference < 50 →
   par_MaxRow res = 0 ∧ par_MaxCol res = 0).
Proof.
  unfold ParallelSmithWaterman.
  destruct (bool_decide (length query < 50) || bool_decide (length reference < 50))
    eqn:Hshort.
  - destruct (SmithWaterman_total query reference)
      as (s & aq & ar & _ & HM & (Hcell & Hub & _) & _ & ->).
    simpl. intros [= <-]. simpl. split_and!; [done|by eauto| |done].
    intros Hq Hr. apply orb_true_iff in Hshort as [H|H];
      apply bool_decide_eq_true in H; lia.
  - apply orb_false_iff in Hshort as [Hq Hr].
    apply bool_decide_eq_false in Hq, Hr.
    destruct (run_schedule _ sched _) as [s| |] eqn:Hrun; [|done..].
    destruct (par_run_max query reference sched s Hrun) as [Hpar Hinv].
    destruct (par_joined query reference s) eqn:Hj; [|done].
    destruct (parallelTraceback _ _ _ _ _) as [al|] eqn:Hal; [|done].
    simpl. intros [= <-]. simpl.
    pose proof Hinv as (_ & _ & _ & _ & Hmax & _).
    split_and!; [by eapply max_inv_joined|by eauto| |lia].
    intros _ _. split; [done|]. rewrite Hal. by destruct al.
Qed.

Lemma parallel_maximum_is_consistent_witness :
  ∃ res,
    ParallelSmithWaterman 4 fifty_A fifty_A 0 (run_to_end 50 50 (98 :: seq 0 98))
      = Next res ∧
    par_MaxScore res = 98%Z ∧
    (∀ i j v, cell (par_ScoreMatrix res) i j = Some v →
       (v ≤ par_MaxScore res)%Z) ∧
    cell (par_ScoreMatrix res) (par_MaxRow res) (par_MaxCol res)
    = Some (par_MaxScore res).
Proof.
  assert (∃ res,
            ParallelSmithWaterman 4 fifty_A fifty_A 0
              (run_to_end 50 50 (98 :: seq 0 98)) = Next res ∧
            par_MaxScore res = 98%Z) as (res & Hres & Hscore)
    by (eexists; split; [vm_compute; reflexivity|reflexivity]).
  exists res. split; [exact Hres|]. split; [exact Hscore|].
  destruct (parallel_maximum_is_consistent _ _ _ _ _ _ Hres)
    as (Hub & _ & Hpos & _).
  split; [exact Hub|].
  apply Hpos; unfold fifty_A; rewrite length_replicate; lia.
Defined.

(** ** Generated sequences *)

Lemma utf8_of_rune_byte (b : byte) : utf8_of_rune (rune_of_byte b) = string_of_byte b.
Proof. destruct b; vm_compute; reflexivity. Qed.

Lemma bases_lookup r base :
  bases !! r = Some base →
  ∃ b, utf8_of_rune base = [b] ∧ plain_symbol b ∧
       b ∈ ["A"; "T"; "C"; "G"]%byte.
Proof.
  destruct r as [|[|[|[|?]]]]; [..|done]; intros [= <-]; eexists;
    (split; [vm_compute; reflexivity|]);
    (split; [split; vm_compute; congruence|]);
    rewrite !elem_of_cons; auto.
Qed.

(** X19. Whatever [globalRand.Intn(4)] returns within its range,
    [GenerateDNASequence] with a length [n] that is not negative returns
    a sequence of [n] plain symbols, each one of 'A', 'T', 'C' and 'G':
    the [i]-th is the base chosen by the [i]-th draw of the call, and the
    call makes [n] draws. *)
Theorem GenerateDNASequence_valid (intn : nat → Z) (calls : nat) (length_ : Z) :
  (∀ k, 0 ≤ intn k < 4)%Z → (0 ≤ length_)%Z →
  ∃ sequence,
    GenerateDNASequence intn calls length_
    = Some (sequence, calls + Z.to_nat length_) ∧
    length sequence = Z.to_nat length_ ∧
    plain sequence ∧
    Forall (λ b, b ∈ ["A"; "T"; "C"; "G"]%byte) sequence ∧
    ∀ i, i < Z.to_nat length_ →
      sequence !! i = byte_of_Z <$> bases !! Z.to_nat (intn (calls + i)).
Proof.
  intros Hintn Hpos. unfold GenerateDNASequence.
  rewrite bool_decide_eq_false_2 by lia.
  set (n := Z.to_nat length_).
  edestruct (for_loop_inv
    (λ k (st : list Z * nat),
       st.2 = calls + k ∧ length st.1 = n ∧
       ∀ i, i < k → st.1 !! i = bases !! Z.to_nat (intn (calls + i))))
    as (st & -> & Hcalls & Hlen & Hcontent).
  - simpl. split_and!; [lia|by rewrite length_replicate|]. intros i Hi. lia.
  - intros k [seq c] Hk (Hc & Hlen & Hcontent). simpl in *. subst c.
    specialize (Hintn (calls + k)).
    rewrite bool_decide_eq_true_2 by lia.
    destruct (lookup_lt_is_Some_2 bases (Z.to_nat (intn (calls + k))))
      as [base Hbase]; [simpl; lia|].
    rewrite Hbase. simpl. rewrite decide_True by lia.
    eexists. split; [done|]. simpl. split_and!; [lia|by rewrite length_insert|].
    intros i Hi. destruct (decide (i = k)) as [->|Hne].
    + rewrite list_lookup_insert_eq by lia. done.
    + rewrite list_lookup_insert_ne by done. apply Hcontent. lia.
  - simpl in *. destruct st as [seq c]. simpl in *. subst c.
    assert (∀ l : list Z,
              (∀ i r, l !! i = Some r → ∃ k, bases !! k = Some r) →
              l ≫= utf8_of_rune = byte_of_Z <$> l ∧
              plain (l ≫= utf8_of_rune) ∧
              Forall (λ b, b ∈ ["A"; "T"; "C"; "G"]%byte) (l ≫= utf8_of_rune))
      as Henc.
    { induction l as [|r l IH]; intros Hl; [by repeat constructor|].
      destruct (Hl 0 r eq_refl) as [k Hk].
      destruct IH as (IH1 & IH2 & IH3).
      { intros i r' Hr'. by apply (Hl (S i)). }
      assert (utf8_of_rune r = [byte_of_Z r]) as Hr.
      { destruct k as [|[|[|[|?]]]]; [..|done]; injection Hk as <-;
          vm_compute; reflexivity. }
      destruct (bases_lookup _ _ Hk) as (b & Hb & Hplain & Hin).
      rewrite Hr in Hb. injection Hb as <-.
      csimpl. rewrite Hr, IH1. split; [done|]. rewrite <- IH1.
      split; constructor; done. }
    destruct (Henc seq) as (Heq & Hplain & Hall).
    { intros i r Hr. pose proof (lookup_lt_Some _ _ _ Hr) as Hi.
      rewrite Hcontent in Hr by lia. eauto. }
    eexists. split; [done|]. split_and!; [|done|done|].
    + by rewrite Heq, length_fmap.
    + intros i Hi. rewrite Heq, list_lookup_fmap, Hcontent by lia. done.
Qed.

Lemma GenerateDNASequence_valid_witness :
  (∀ k, 0 ≤ Z.of_nat (k `mod` 4) < 4)%Z ∧ (0 ≤ 6)%Z ∧
  ∃ sequence,
    GenerateDNASequence (λ k, Z.of_nat (k `mod` 4)) 2 6 = Some (sequence, 8) ∧
    sequence = ["C"; "G"; "A"; "T"; "C"; "G"]%byte ∧
    plain sequence.
Proof.
  assert (∀ k, 0 ≤ Z.of_nat (k `mod` 4) < 4)%Z as Hintn.
  { intros k. pose proof (Nat.mod_upper_bound k 4). lia. }
  assert (0 ≤ 6)%Z as Hpos by lia.
  split_and!; [exact Hintn|exact Hpos|].
  destruct (GenerateDNASequence_valid _ 2 6 Hintn Hpos)
    as (sequence & Hgen & _ & Hplain & _).
  exists sequence. split_and!; [exact Hgen| |exact Hplain].
  vm_compute in Hgen. by injection Hgen as <-.
Defined.

(** ** The consensus sequence *)

Section consensus.
Context (sequences : list gostring) (i : nat).

Lemma rune_of_byte_inj b b' : rune_of_byte b = rune_of_byte b' → b = b'.
Proof.
  unfold rune_of_byte. intros H%(inj Z.of_N).
  apply (f_equal Byte.of_N) in H. rewrite !Byte.of_to_N in H. by injection H.
Qed.

(** The counting loop leaves, for every byte, the number of sequences
    that have it at position [i], and no entry for the others. *)
Lemma count_bases_spec :
  Forall (λ seq, i < length seq) sequences →
  ∃ counts,
    count_bases sequences i ∅ = Some counts ∧
    (∀ b, counts !! rune_of_byte b
          = if decide (occurrences sequences i b = 0) then None
            else Some (Z.of_nat (occurrences sequences i b))) ∧
    (∀ r c, counts !! r = Some c → ∃ b, r = rune_of_byte b).
Proof using Type.
  intros Hlen.
  assert (∀ seqs (counts0 : gmap Z Z),
    Forall (λ seq, i < length seq) seqs →
    ∃ counts,
      count_bases seqs i counts0 = Some counts ∧
      (∀ b, default 0%Z (counts !! rune_of_byte b)
            = (default 0 (counts0 !! rune_of_byte b)
               + Z.of_nat (occurrences seqs i b))%Z) ∧
      (∀ b, counts0 !! rune_of_byte b = None → occurrences seqs i b = 0 →
            counts !! rune_of_byte b = None) ∧
      (∀ r c, counts !! r = Some c →
         (∃ b, r = rune_of_byte b) ∨ counts0 !! r = Some c)) as Hloop.
  { induction seqs as [|seq seqs IH]; intros counts0 Hl.
    - exists counts0. split; [done|]. split_and!.
      + intros b. unfold occurrences. simpl. lia.
      + done.
      + intros r c Hr. by right.
    - apply Forall_cons in Hl as [Hseq Hl].
      destruct (lookup_lt_is_Some_2 seq i Hseq) as [b0 Hb0].
      simpl. rewrite Hb0. simpl.
      destruct (IH (<[rune_of_byte b0 :=
                      (default 0 (counts0 !! rune_of_byte b0) + 1)%Z]> counts0) Hl)
        as (counts & Hcounts & Hsum & Hnone & Hkeys).
      exists counts. split; [done|]. split_and!.
      + intros b. rewrite Hsum. unfold occurrences.
        destruct (decide (b = b0)) as [->|Hne].
        * rewrite lookup_insert_eq. simpl.
          rewrite filter_cons_True by done. simpl. lia.
        * rewrite lookup_insert_ne by (intros H%rune_of_byte_inj; done).
          rewrite filter_cons_False by (rewrite Hb0; congruence). done.
      + intros b Hb Hocc. unfold occurrences in Hocc.
        destruct (decide (b = b0)) as [->|Hne].
        * rewrite filter_cons_True in Hocc by done. done.
        * rewrite filter_cons_False in Hocc by (rewrite Hb0; congruence).
          apply Hnone; [|done].
          by rewrite lookup_insert_ne by (intros H%rune_of_byte_inj; done).
      + intros r c Hr. destruct (Hkeys r c Hr) as [?|Hins]; [by left|].
        destruct (decide (r = rune_of_byte b0)) as [->|Hne]; [left; eauto|].
        rewrite lookup_insert_ne in Hins by done. by right. }
  destruct (Hloop sequences ∅ Hlen) as (counts & Hcounts & Hsum & Hnone & Hkeys).
  exists counts. split; [done|]. split.
  - intros b. specialize (Hsum b). rewrite lookup_empty in Hsum. simpl in Hsum.
    destruct (decide (occurrences sequences i b = 0)) as [H0|Hn0].
    + apply Hnone; [apply lookup_empty|done].
    + destruct (counts !! rune_of_byte b) as [c|]; simpl in Hsum; [|lia].
      f_equal. lia.
  - intros r c Hr. destruct (Hkeys r c Hr) as [?|Hempty]; [done|].
    by rewrite lookup_empty in Hempty.
Qed.
End consensus.

(** The search loop ends on an entry with the largest count, when every
    count is positive. *)
Lemma most_common_spec (entries : list (Z * Z)) :
  entries ≠ [] → Forall (λ e, 0 < e.2)%Z entries →
  most_common entries ∈ entries ∧
  Forall (λ e, e.2 ≤ (most_common entries).2)%Z entries.
Proof.
  intros Hne Hpos. unfold most_common.
  set (step := λ (acc : Z * Z) (entry : Z * Z),
         if bool_decide (acc.2 < entry.2)%Z then entry else acc).
  assert (∀ l done_ acc,
    Forall (λ e, 0 < e.2)%Z l →
    (done_ = [] ∧ acc = (0, 0)%Z ∨ acc ∈ done_) →
    Forall (λ e, e.2 ≤ acc.2)%Z done_ →
    (done_ ++ l = [] ∧ fold_left step l acc = (0, 0)%Z
     ∨ fold_left step l acc ∈ done_ ++ l) ∧
    Forall (λ e, e.2 ≤ (fold_left step l acc).2)%Z (done_ ++ l)) as Hloop.
  { induction l as [|e l IH]; intros done_ acc Hl Hacc Hmax.
    - simpl. rewrite app_nil_r. done.
    - apply Forall_cons in Hl as [He Hl]. simpl.
      replace (done_ ++ e :: l) with ((done_ ++ [e]) ++ l)
        by (by rewrite <- app_assoc).
      apply IH; [done| |].
      + right. unfold step. rewrite elem_of_app, list_elem_of_singleton.
        case_bool_decide; [by right|].
        destruct Hacc as [[-> ->]|Hin]; [simpl in *; lia|by left].
      + apply Forall_app. split.
        * eapply Forall_impl; [exact Hmax|]. intros e' He'. simpl in He'.
          unfold step. case_bool_decide; lia.
        * apply Forall_singleton. unfold step. case_bool_decide; lia. }
  destruct (Hloop entries [] (0, 0)%Z) as [[[Hnil _]|Hin] Hmax];
    [done|by left|done|done|done].
Qed.

Lemma fold_min_length (sequences : list gostring) (first : nat) :
  let minLength :=
    fold_left (λ minLength (seq : gostring),
      if bool_decide (length seq < minLength) then length seq else minLength)
      sequences first in
  minLength ≤ first ∧
  Forall (λ seq, minLength ≤ length seq) sequences ∧
  (minLength = first ∨ ∃ seq, seq ∈ sequences ∧ minLength = length seq).
Proof.
  revert first. induction sequences as [|seq seqs IH]; intros first; simpl.
  - split_and!; [done|done|by left].
  - destruct (IH (if bool_decide (length seq < first) then length seq else first))
      as (Hle & Hall & Hwho).
    split_and!.
    + case_bool_decide; lia.
    + constructor; [case_bool_decide; lia|done].
    + destruct Hwho as [->|(s & Hs & ->)].
      * case_bool_decide; [right; exists seq; split; [by left|done]|by left].
      * right. exists s. split; [by right|done].
Qed.

(** The consensus, symbol by symbol. *)
Lemma GenerateConsensusSequence_spec range_order (sequences : list gostring) :
  yields_entries range_order →
  ∃ winners : gostring,
    GenerateConsensusSequence range_order sequences
    = Some (symbols_as_strings winners) ∧
    Forall (λ seq, length winners ≤ length seq) sequences ∧
    (sequences = [] ∨ ∃ seq, seq ∈ sequences ∧ length winners = length seq) ∧
    ∀ i b, winners !! i = Some b →
      0 < occurrences sequences i b ∧
      ∀ b', occurrences sequences i b' ≤ occurrences sequences i b.
Proof.
  intros Horder. destruct sequences as [|first rest].
  { exists []. split_and!; [done|done|by left|done]. }
  unfold GenerateConsensusSequence.
  remember (first :: rest) as sequences eqn:Hseqs.
  destruct (fold_min_length sequences (length first)) as (Hle & Hall & Hwho).
  set (minLength := fold_left _ sequences (length first)) in *.
  pose (P := λ k (consensus : gostring),
       ∃ winners : gostring,
         consensus = symbols_as_strings winners ∧ length winners = k ∧
         ∀ i b, winners !! i = Some b →
           0 < occurrences sequences i b ∧
           ∀ b', occurrences sequences i b' ≤ occurrences sequences i b).
  match goal with
  | |- context [for_loop ?body 0 minLength []] =>
      destruct (for_loop_inv P body 0 minLength [])
        as (consensus & Hcons & winners & -> & Hlen & Hwin)
  end.
  - exists []. split_and!; done.
  - intros k t Hk (winners & -> & Hlen & Hwin). simpl in Hk.
    destruct (count_bases_spec sequences k) as (counts & -> & Hcount & Hkeys).
    { eapply Forall_impl; [exact Hall|]. simpl. lia. }
    simpl.
    assert (map_to_list counts ≠ []) as Hnonempty.
    { assert (first ∈ sequences) as Hfirst by (rewrite Hseqs; by left).
      rewrite Forall_forall in Hall. specialize (Hall first Hfirst).
      destruct (lookup_lt_is_Some_2 first k) as [b Hb]; [lia|].
      assert (occurrences sequences k b ≠ 0) as Hocc.
      { unfold occurrences. rewrite Hseqs, filter_cons_True by done. done. }
      specialize (Hcount b). rewrite decide_False in Hcount by done.
      intros Hnil. apply map_to_list_empty_iff in Hnil. subst counts.
      by rewrite lookup_empty in Hcount. }
    assert (Forall (λ e : Z * Z, 0 < e.2)%Z (map_to_list counts)) as Hpositive.
    { apply Forall_forall. intros [r c] Hrc%elem_of_map_to_list.
      destruct (Hkeys r c Hrc) as [b ->]. rewrite Hcount in Hrc.
      destruct (decide _); [done|]. injection Hrc as <-. simpl. lia. }
    destruct (most_common_spec (range_order k counts)) as [Hin Hmax].
    { intros Hnil. apply Hnonempty, Permutation_nil_r.
      by rewrite <- (Horder k counts), Hnil. }
    { by rewrite (Horder k counts). }
    destruct (most_common (range_order k counts)) as [r c] eqn:Hmc.
    rewrite (Horder k counts) in Hin, Hmax. apply elem_of_map_to_list in Hin.
    destruct (Hkeys r c Hin) as [b ->]. simpl.
    pose proof Hin as Hin'. rewrite Hcount in Hin'.
    destruct (decide (occurrences sequences k b = 0)) as [|Hocc]; [done|].
    injection Hin' as <-.
    eexists. split; [done|]. exists (winners ++ [b]). split_and!.
    + unfold symbols_as_strings. rewrite bind_app. csimpl.
      by rewrite app_nil_r, utf8_of_rune_byte.
    + rewrite length_app. simpl. lia.
    + intros i b0 [Hb0|[Hi Hb0]]%lookup_app_Some; [by apply Hwin|].
      destruct (i - length winners) as [|?] eqn:Hd; [|done].
      injection Hb0 as <-. assert (i = k) as -> by lia. split; [lia|].
      intros b'. destruct (decide (occurrences sequences k b' = 0)) as [->|Hb'];
        [lia|].
      rewrite Forall_forall in Hmax.
      specialize (Hmax (rune_of_byte b', Z.of_nat (occurrences sequences k b'))).
      simpl in Hmax. apply Nat2Z.inj_le, Hmax, elem_of_map_to_list.
      rewrite Hcount. by rewrite decide_False.
  - exists winners. simpl in *. split; [exact Hcons|]. split_and!.
    + by rewrite Hlen.
    + right. rewrite Hlen. destruct Hwho as [->|?]; [|done].
      exists first. split; [rewrite Hseqs; by left|done].
    + done.
Qed.

(** X20. The consensus is a majority vote, whatever the order in which
    [range] yields the entries of the map.
    [GenerateConsensusSequence] does not panic; its result is the
    rendering by [WriteRune] of one winning byte for each position below
    the length of the shortest sequence; the winner of a position occurs
    there in some sequence, and no byte occurs there in more sequences
    than the winner.  For ASCII sequences the result is the string of the
    winners. *)
Theorem consensus_is_majority_vote range_order (sequences : list gostring) :
  yields_entries range_order →
  ∃ winners : gostring,
    GenerateConsensusSequence range_order sequences
    = Some (symbols_as_strings winners) ∧
    Forall (λ seq, length winners ≤ length seq) sequences ∧
    (sequences = [] ∨ ∃ seq, seq ∈ sequences ∧ length winners = length seq) ∧
    (∀ i b, winners !! i = Some b →
       0 < occurrences sequences i b ∧
       ∀ b', occurrences sequences i b' ≤ occurrences sequences i b) ∧
    (Forall is_ascii sequences →
     GenerateConsensusSequence range_order sequences = Some winners).
Proof.
  intros Horder.
  destruct (GenerateConsensusSequence_spec range_order sequences Horder)
    as (winners & Hres & Hlen & Hwho & Hwin).
  exists winners. split_and!; [done..|].
  intros Hascii. rewrite Hres. f_equal. apply symbols_as_strings_ascii.
  apply Forall_lookup. intros i b Hb. destruct (Hwin i b Hb) as [Hocc _].
  unfold occurrences in Hocc.
  destruct (filter _ sequences) as [|seq ?] eqn:Hf; [simpl in Hocc; lia|].
  assert (seq ∈ filter (λ seq, seq !! i = Some b) sequences) as Hin
    by (rewrite Hf; by left).
  apply list_elem_of_filter in Hin as [Hseq Hin].
  rewrite Forall_forall in Hascii. specialize (Hascii seq Hin).
  unfold is_ascii in Hascii. rewrite Forall_lookup in Hascii. by eapply Hascii.
Qed.

Lemma consensus_is_majority_vote_witness :
  yields_entries (λ _ counts, map_to_list counts) ∧
  ∃ winners : gostring,
    GenerateConsensusSequence (λ _ counts, map_to_list counts) three_references
    = Some winners ∧
    Forall (λ seq, length winners ≤ length seq) three_references ∧
    ∀ i b, winners !! i = Some b →
      0 < occurrences three_references i b ∧
      ∀ b', occurrences three_references i b' ≤ occurrences three_references i b.
Proof.
  assert (yields_entries (λ _ counts, map_to_list counts)) as Horder
    by (intros i counts; reflexivity).
  split; [exact Horder|].
  destruct (consensus_is_majority_vote _ three_references Horder)
    as (winners & _ & Hlen & _ & Hwin & Hascii).
  exists winners. split_and!; [|exact Hlen|exact Hwin].
  apply Hascii. repeat constructor.
Defined.

(** ** Context around the sequences *)

(** X21. Context never lowers the score: [SmithWaterman] of the query and
    the reference, each with any symbols before and after it, returns a
    score that is at least the score of the query against the
    reference. *)
Theorem context_never_lowers_score (query reference : gostring)
    (pre post pre' post' : gostring) :
  ∃ res res',
    SmithWaterman query reference = Some res ∧
    SmithWaterman (pre ++ query ++ post) (pre' ++ reference ++ post') = Some res' ∧
    (MaxScore res ≤ MaxScore res')%Z.
Proof.
  destruct (SmithWaterman_walk query reference)
    as (res & maxRow & maxCol & cols & Hres & HM & Hmax & Hrow & Hcol & Hwalk & _).
  destruct (SmithWaterman_walk (pre ++ query ++ post) (pre' ++ reference ++ post'))
    as (res' & maxRow' & maxCol' & cols' & Hres' & HM' & Hmax' & _).
  exists res, res'. split; [done|]. split; [done|].
  pose proof (tb_walk_score _ _ _ HM _ _ _ Hwalk Hrow Hcol) as Hscore.
  destruct Hmax as (Hcell & _). rewrite Hcell in Hscore. injection Hscore as ->.
  destruct (tb_walk_slices _ _ _ _ _ _ _ Hwalk)
    as (row' & col' & _ & _ & Hfst & Hsnd & _).
  assert (∀ (a s b : gostring) lo hi, hi ≤ length s →
            drop (length a + lo) (take (length a + hi) (a ++ s ++ b))
            = drop lo (take hi s)) as Hshift.
  { intros a s b lo hi Hhi. rewrite take_app_add, drop_app_add.
    by rewrite take_app_le. }
  destruct (sw_matrix_dominates _ _ _ HM' cols
              (length pre + maxRow) (length pre' + maxCol)
              (length pre + row') (length pre' + col'))
    as (v & Hv & Hle).
  - rewrite !length_app. lia.
  - rewrite !length_app. lia.
  - by rewrite Hshift.
  - by rewrite Hshift.
  - destruct Hmax' as (_ & Hub & _). apply Hub in Hv. lia.
Qed.

(** ** The schedule that runs the waves one after the other *)

Lemma sw_matrix_unique query reference (M M' : matrix) :
  sw_matrix query reference M → sw_matrix query reference M' → M = M'.
Proof.
  intros HM HM'.
  assert (∀ i j, i ≤ length query → j ≤ length reference →
            cell M' i j = cell M i j) as Hcells.
  { intros i j. remember (i + j) as k eqn:Hk. revert i j Hk.
    induction (lt_wf k) as [k _ IH]. intros i j -> Hi Hj.
    destruct (sw_matrix_lookup _ _ _ HM i j Hi Hj) as (v & Hv & _).
    destruct (sw_matrix_lookup _ _ _ HM' i j Hi Hj) as (v' & Hv' & _).
    rewrite Hv, Hv'. f_equal.
    destruct (decide (i = 0 ∨ j = 0)) as [H0|Hn0].
    - rewrite (sw_matrix_border _ _ _ HM _ _ _ Hv) by done.
      by rewrite (sw_matrix_border _ _ _ HM' _ _ _ Hv') by done.
    - destruct (sw_matrix_terms _ _ _ HM i j v)
        as (qb & rb & d & u & l & Hqb & Hrb & Hd & Hu & Hl & ->); [lia|lia|done|].
      destruct (sw_matrix_terms _ _ _ HM' i j v')
        as (qb' & rb' & d' & u' & l' & Hqb' & Hrb' & Hd' & Hu' & Hl' & ->);
        [lia|lia|done|].
      rewrite (IH (i - 1 + (j - 1))) in Hd' by lia.
      rewrite (IH (i - 1 + j)) in Hu' by lia.
      rewrite (IH (i + (j - 1))) in Hl' by lia.
      by simplify_eq. }
  destruct HM as ([Hlen Hrows] & _), HM' as ([Hlen' Hrows'] & _).
  apply list_eq. intros i.
  destruct (M !! i) as [row|] eqn:Hrow, (M' !! i) as [row'|] eqn:Hrow'.
  - f_equal. apply list_eq. intros j.
    pose proof (lookup_lt_Some _ _ _ Hrow) as Hi.
    rewrite Forall_lookup in Hrows, Hrows'.
    pose proof (Hrows _ _ Hrow) as Hr. pose proof (Hrows' _ _ Hrow') as Hr'.
    destruct (decide (j ≤ length reference)) as [Hj|Hj].
    + specialize (Hcells i j ltac:(lia) Hj). unfold cell in Hcells.
      rewrite Hrow, Hrow' in Hcells. by simpl in Hcells.
    + rewrite !lookup_ge_None_2; [done|lia..].
  - apply lookup_lt_Some in Hrow. apply lookup_ge_None in Hrow'. lia.
  - apply lookup_lt_Some in Hrow'. apply lookup_ge_None in Hrow. lia.
  - done.
Qed.

Section wave_order.
Context (query reference : gostring).
Abbreviation m := (length query).
Abbreviation n := (length reference).

(** The terms of a cell give the value the code computes for it. *)
Lemma cell_score_terms (M : matrix) i j sd su sl :
  diag_term M query reference i j = Some sd →
  up_term M i j = Some su → left_term M i j = Some sl →
  cell_score query reference M i j = smithMax [0%Z; sd; su; sl].
Proof.
  intros (qb & rb & d & Hqb & Hrb & Hd & ->)%diag_term_Some
         (u & Hu & ->)%up_term_Some (l & Hl & ->)%left_term_Some.
  unfold cell_score. rewrite Hqb, Hrb. simpl. rewrite Hd. simpl.
  rewrite Hu. simpl. by rewrite Hl.
Qed.

(** A store into a cell of the current wave leaves the recurrence of the
    cells stored before as it is. *)
Lemma recurrence_after_store (M M' : matrix) i j v a b w :
  set_cell M i j v = Some M' → a + b ≤ i + j → (a, b) ≠ (i, j) →
  1 ≤ a → 1 ≤ b →
  cell_score query reference M a b = Some w ∧ cell M a b = Some w →
  cell_score query reference M' a b = Some w ∧ cell M' a b = Some w.
Proof.
  intros HM' Hwave Hne Ha Hb [Hscore Hcell].
  rewrite (cell_set_cell_ne _ _ _ _ _ _ _ HM' Hne). split; [|done].
  rewrite <- Hscore. apply cell_score_ext;
    apply (cell_set_cell_ne _ _ _ _ _ _ _ HM'); intros [= ? ?]; lia.
Qed.

(** Every action of the goroutine started last keeps the invariant. *)
Lemma wave_step_order k s t :
  par_inv m n s → max_inv s → wave_order_inv query reference s →
  ps_tasks s !! k = Some t → S k = length (ps_tasks s) →
  match wave_step query reference s t with
  | Next (s', t') =>
      wave_order_inv query reference (set_tasks s' (<[k := t']> (ps_tasks s')))
  | _ => True
  end.
Proof.
  intros [Hsh Hts] Hmaxinv [Htasks Hrec] Hk Hlast.
  pose proof Hsh as (HM & Hnn & Hr & Hc).
  rewrite Forall_lookup in Hts. destruct (Hts _ _ Hk) as [Hi Hpc].
  pose proof Hmaxinv as (Hlen & Hids & _).
  pose proof (Hids _ _ Hk) as Hwf.
  destruct (Htasks _ _ Hk) as (_ & _ & Hlocals). specialize (Hlocals Hlast).
  (* the goroutines other than the last are as they were *)
  assert (∀ M' t',
    (wt_pc t' = WaveDone → m < wt_i t' ∨ wt_waveFront t' ≤ wt_i t') →
    locals_ok query reference M' t' →
    ∀ k0 t0, <[k := t']> (ps_tasks s) !! k0 = Some t0 →
      (S k0 < length (<[k := t']> (ps_tasks s)) → wt_pc t0 = WaveDone) ∧
      (wt_pc t0 = WaveDone → m < wt_i t0 ∨ wt_waveFront t0 ≤ wt_i t0) ∧
      (S k0 = length (<[k := t']> (ps_tasks s)) →
       locals_ok query reference M' t0)) as Hothers.
  { intros M' t' Hdone Hloc k0 t0 Hk0. rewrite length_insert.
    destruct (decide (k0 = k)) as [->|Hne].
    - rewrite list_lookup_insert_eq in Hk0 by (by eapply lookup_lt_Some).
      injection Hk0 as <-. split_and!; [lia|done|done].
    - rewrite list_lookup_insert_ne in Hk0 by done.
      destruct (Htasks _ _ Hk0) as (Hd0 & Hw0 & _).
      split_and!; [done|done|lia]. }
  (* the cells stored when the goroutine does not move to another cell *)
  assert (∀ t', wt_i t' = wt_i t → wt_pc t' ≠ AtTrack →
    ∀ i j, stored (set_tasks s (<[k := t']> (ps_tasks s))) i j → stored s i j)
    as Hsame.
  { intros t' Hi' Hpc' i j (t0 & Ht0 & Hst). simpl in Ht0.
    destruct (decide (i + j - 2 = k)) as [Heq|Hne].
    - rewrite Heq, list_lookup_insert_eq in Ht0 by (by eapply lookup_lt_Some).
      injection Ht0 as <-. exists t. rewrite Heq. split; [done|].
      destruct Hst as [?|[_ ?]]; [left; lia|done].
    - rewrite list_lookup_insert_ne in Ht0 by done. by exists t0. }
  unfold wave_step.
  destruct (wt_pc t) as [|mt|sd|sd su|sd su sl| |] eqn:Epc.
  - destruct (bool_decide (wt_i t ≤ m) && bool_decide (wt_i t < wt_waveFront t))
      eqn:Htest; cycle 1.
    { split; simpl.
      - apply Hothers; [|done]. intros _. simpl.
        apply andb_false_iff in Htest as [H|H];
          apply bool_decide_eq_false in H; lia.
      - intros i j Hi' Hj' Hst. apply Hrec; [done..|].
        by apply (Hsame (at_pc t WaveDone)). }
    apply andb_true_iff in Htest as [Him Hiw].
    apply bool_decide_eq_true in Him, Hiw.
    destruct (bool_decide (wt_waveFront t - wt_i t < 1)
              || bool_decide (n < wt_waveFront t - wt_i t)) eqn:Hj.
    { split; simpl.
      - by apply Hothers.
      - intros i j Hi' Hj' (t0 & Ht0 & Hst). simpl in Ht0. apply Hrec; [done..|].
        destruct (decide (i + j - 2 = k)) as [Heq|Hne].
        + rewrite Heq, list_lookup_insert_eq in Ht0 by (by eapply lookup_lt_Some).
          injection Ht0 as <-. simpl in Hst. exists t. rewrite Heq.
          split; [done|]. left.
          apply orb_true_iff in Hj as [H|H]; apply bool_decide_eq_true in H;
            destruct Hst as [?|[? ?]]; try done; lia.
        + rewrite list_lookup_insert_ne in Ht0 by done. by exists t0. }
    destruct (query !! (wt_i t - 1)) as [qb|] eqn:Hqb; [|done].
    destruct (reference !! (wt_waveFront t - wt_i t - 1)) as [rb|] eqn:Hrb;
      [|done].
    simpl. split; simpl.
    + apply Hothers; [done|]. unfold locals_ok. simpl. eauto.
    + intros i j Hi' Hj' Hst. apply Hrec; [done..|].
      by apply (Hsame (at_pc t (AtScoreDiag (match_score qb rb)))).
  - destruct (cell (ps_matrix s) (wt_i t - 1) (wt_waveFront t - wt_i t - 1))
      as [d|] eqn:Hd; [|done].
    simpl. split; simpl.
    + apply Hothers; [done|]. unfold locals_ok in *. rewrite Epc in Hlocals.
      simpl in *. destruct Hlocals as (qb & rb & Hqb & Hrb & ->).
      unfold diag_term. rewrite Hqb, Hrb. simpl. by rewrite Hd.
    + intros i j Hi' Hj' Hst. apply Hrec; [done..|].
      by apply (Hsame (at_pc t (AtScoreUp (d + mt)))).
  - destruct (cell (ps_matrix s) (wt_i t - 1) (wt_waveFront t - wt_i t))
      as [u|] eqn:Hu; [|done].
    simpl. split; simpl.
    + apply Hothers; [done|]. unfold locals_ok in *. rewrite Epc in Hlocals.
      simpl in *. split; [done|]. unfold up_term. by rewrite Hu.
    + intros i j Hi' Hj' Hst. apply Hrec; [done..|].
      by apply (Hsame (at_pc t (AtScoreLeft sd (u + GapPenalty)))).
  - destruct (cell (ps_matrix s) (wt_i t) (wt_waveFront t - wt_i t - 1))
      as [l|] eqn:Hl; [|done].
    simpl. split; simpl.
    + apply Hothers; [done|]. unfold locals_ok in *. rewrite Epc in Hlocals.
      simpl in *. destruct Hlocals as [? ?]. split_and!; [done..|].
      unfold left_term. by rewrite Hl.
    + intros i j Hi' Hj' Hst. apply Hrec; [done..|].
      by apply (Hsame (at_pc t (AtStore sd su (l + GapPenalty)))).
  - unfold locals_ok in Hlocals. rewrite Epc in Hlocals. simpl in Hlocals.
    destruct Hlocals as (Hsd & Hsu & Hsl). destruct Hpc as [Him Hj].
    pose proof (cell_score_terms _ _ _ _ _ _ Hsd Hsu Hsl) as Hscore.
    destruct (smithMax [0%Z; sd; su; sl]) as [v|] eqn:Hv; [|done]. simpl.
    destruct (set_cell (ps_matrix s) (wt_i t) (wt_waveFront t - wt_i t) v)
      as [M'|] eqn:HM'; [|done].
    simpl. split; simpl.
    + by apply Hothers.
    + intros i j Hi' Hj' (t0 & Ht0 & Hst). simpl in Ht0.
      destruct (decide ((i, j) = (wt_i t, wt_waveFront t - wt_i t)))
        as [[= -> ->]|Hne].
      * exists v. split; [|by eapply cell_set_cell_eq].
        rewrite <- Hscore. apply cell_score_ext;
          apply (cell_set_cell_ne _ _ _ _ _ _ _ HM');
          intros Heq; injection Heq; intros; lia.
      * assert (i + j ≤ wt_i t + (wt_waveFront t - wt_i t)) as Hwave.
        { apply lookup_lt_Some in Ht0. rewrite length_insert in Ht0. lia. }
        destruct (Hrec i j Hi' Hj') as (w & Hw).
        { destruct (decide (i + j - 2 = k)) as [Heq|Hnk].
          - rewrite Heq, list_lookup_insert_eq in Ht0
              by (by eapply lookup_lt_Some).
            injection Ht0 as <-. simpl in Hst. exists t. rewrite Heq.
            split; [done|]. destruct Hst as [?|[-> _]]; [by left|].
            destruct Hne. f_equal. lia.
          - rewrite list_lookup_insert_ne in Ht0 by done. by exists t0. }
        exists w. eapply recurrence_after_store; [done|done|done|lia|lia|done].
  - destruct Hpc as [Him Hj].
    destruct (cell (ps_matrix s) (wt_i t) (wt_waveFront t - wt_i t))
      as [v|] eqn:Hv; [|done].
    simpl.
    assert (∀ s1, ps_matrix s1 = ps_matrix s →
      wave_order_inv query reference
        (set_tasks s1 (<[k := next_iteration t]> (ps_tasks s)))) as Hnext.
    { intros s1 HM1. split; simpl; rewrite ?HM1.
      - by apply Hothers.
      - intros i j Hi' Hj' (t0 & Ht0 & Hst). simpl in Ht0.
        apply Hrec; [done..|].
        destruct (decide (i + j - 2 = k)) as [Heq|Hnk].
        + rewrite Heq, list_lookup_insert_eq in Ht0
            by (by eapply lookup_lt_Some).
          injection Ht0 as <-. simpl in Hst. exists t. rewrite Heq.
          split; [done|]. destruct Hst as [?|[_ ?]]; [|done].
          destruct (decide (i = wt_i t)); [by right|left; lia].
        + rewrite list_lookup_insert_ne in Ht0 by done. by exists t0. }
    repeat case_bool_decide; simpl; by apply Hnext.
  - done.
Qed.

(** Starting the next goroutine once the last one has ended keeps the
    invariant. *)
Lemma dispatch_order s s' :
  wave_order_inv query reference s →
  (∀ t, last (ps_tasks s) = Some t → wt_pc t = WaveDone) →
  par_step query reference Dispatch s = Next s' →
  wave_order_inv query reference s'.
Proof.
  intros [Htasks Hrec] Hdone. simpl. case_bool_decide; [|done]. intros [= <-].
  split; simpl.
  - intros k t Hk. rewrite length_app. simpl.
    apply lookup_app_Some in Hk as [Hk|[Hge Hk]].
    + destruct (Htasks _ _ Hk) as (Hd & Hw & _).
      pose proof (lookup_lt_Some _ _ _ Hk) as Hlt.
      split_and!; [|done|lia]. intros _.
      destruct (decide (S k = length (ps_tasks s))) as [Heq|Hne].
      * apply Hdone. rewrite last_lookup. rewrite <- Heq. done.
      * apply Hd. lia.
    + destruct (k - length (ps_tasks s)) as [|?] eqn:Hd; [|done].
      injection Hk as <-. simpl. split_and!; [lia|done|done].
  - intros i j Hi Hj (t & Ht & Hst). apply Hrec; [done..|].
    apply lookup_app_Some in Ht as [Ht|[Hge Ht]]; [by exists t|].
    destruct (i + j - 2 - length (ps_tasks s)) as [|?] eqn:Hd; [|done].
    injection Ht as <-. simpl in Hst. destruct Hst as [?|[_ ?]]; [lia|done].
Qed.

Lemma max_inv_task_ids s k t :
  max_inv s → ps_tasks s !! k = Some t → wt_waveFront t = k + 2.
Proof. intros (_ & Hids & _). apply Hids. Qed.

(** In wave order too some action can run until [wg.Wait()] returns. *)
Lemma wave_order_progress s :
  par_inv m n s ∧ max_inv s ∧ wave_order_inv query reference s →
  par_joined query reference s = false →
  ∃ ev s', par_step query reference ev s = Next s' ∧
           (par_inv m n s' ∧ max_inv s' ∧ wave_order_inv query reference s') ∧
           par_measure m n s' < par_measure m n s.
Proof.
  intros (Hpar & Hmaxinv & Horder) Hj.
  assert (∀ ev s', par_step query reference ev s = Next s' →
            wave_order_inv query reference s' →
            ∃ ev s', par_step query reference ev s = Next s' ∧
              (par_inv m n s' ∧ max_inv s' ∧ wave_order_inv query reference s') ∧
              par_measure m n s' < par_measure m n s) as Hdone.
  { intros ev s' Hstep Hord. exists ev, s'. split_and!; [done| | |done|].
    - by eapply par_step_inv.
    - by eapply par_step_max.
    - by eapply par_step_measure. }
  destruct (last (ps_tasks s)) as [t|] eqn:Hlast.
  - pose proof Hlast as Hk. rewrite last_lookup in Hk.
    set (k := pred (length (ps_tasks s))) in *.
    assert (S k = length (ps_tasks s)) as Hlen.
    { apply lookup_lt_Some in Hk. lia. }
    assert (wt_pc t = WaveDone ∨ wt_pc t ≠ WaveDone) as [Hpc|Hpc]
      by (destruct (wt_pc t); (by left) || (by right)).
    + destruct (par_joined_false _ _ s Hj) as [Hw|(k0 & t0 & Hk0 & Hpc0)].
      * eapply (Hdone Dispatch); [simpl; by rewrite bool_decide_eq_true_2|].
        eapply dispatch_order; [done| |simpl; by rewrite bool_decide_eq_true_2].
        intros t1 Ht1. congruence.
      * destruct Horder as [Htasks _]. destruct (Htasks _ _ Hk0) as (Hd & _).
        pose proof (lookup_lt_Some _ _ _ Hk0).
        destruct (decide (k0 = k)) as [->|Hne]; [congruence|].
        destruct Hpc0. apply Hd. lia.
    + destruct Hpar as [Hsh Hts]. pose proof Hts as Hts'.
      rewrite Forall_lookup in Hts'.
      pose proof (wave_step_spec _ _ s t Hsh (Hts' _ _ Hk)) as Hspec.
      pose proof (wave_step_order k s t (conj Hsh Hts) Hmaxinv Horder Hk Hlen)
        as Hord.
      destruct (wave_step query reference s t) as [[s1 t1]| |] eqn:Hstep;
        [|done..].
      eapply (Hdone (Wave k)); [simpl; rewrite Hk, Hstep; reflexivity|].
      destruct Hspec as (_ & _ & Htasks1 & _). done.
  - apply last_None in Hlast.
    destruct (par_joined_false _ _ s Hj) as [Hw|(k0 & t0 & Hk0 & _)].
    + eapply (Hdone Dispatch); [simpl; by rewrite bool_decide_eq_true_2|].
      eapply dispatch_order; [done| |simpl; by rewrite bool_decide_eq_true_2].
      intros t1. by rewrite Hlast.
    + by rewrite Hlast in Hk0.
Qed.

Lemma wave_order_init : wave_order_inv query reference (par_init m n).
Proof.
  split; simpl; [done|]. intros i j _ _ (t & Ht & _). done.
Qed.

(** When [wg.Wait()] returns after such an execution the matrix is that
    of the recurrence. *)
Lemma wave_order_joined s :
  par_inv m n s → max_inv s → wave_order_inv query reference s →
  par_joined query reference s = true →
  sw_matrix query reference (ps_matrix s).
Proof.
  intros [(HM & Hnn & _) _] (Hlen & Hids & _) [Htasks Hrec] Hj.
  unfold par_joined in Hj. apply andb_true_iff in Hj as [Hw Hall].
  apply bool_decide_eq_true in Hw. rewrite forallb_forall in Hall.
  split_and!; [done| |].
  - intros a b Ha Hb H0.
    destruct (cell_is_Some _ _ (ps_matrix s) a b HM Ha Hb) as [v Hv].
    rewrite Hv. f_equal. by eapply Hnn.
  - intros a b Ha Hb. apply Hrec; [done..|].
    destruct (lookup_lt_is_Some_2 (ps_tasks s) (a + b - 2)) as [t Ht]; [lia|].
    exists t. split; [done|]. left.
    assert (wt_pc t = WaveDone) as Hpc.
    { assert (In t (ps_tasks s)) as Hin.
      { apply list_elem_of_In. by eapply list_elem_of_lookup_2. }
      apply Hall in Hin. by destruct (wt_pc t). }
    destruct (Htasks _ _ Ht) as (_ & Hexit & _). pose proof (Hids _ _ Ht).
    specialize (Hexit Hpc). lia.
Qed.
End wave_order.

(** X22. For every pair of sequences some schedule of the goroutines of
    [ParallelSmithWaterman], one that starts a wave only when the wave
    before it has ended, makes the call return the score matrix and the
    score of [SmithWaterman]. *)
Theorem some_schedule_agrees_with_sequential (gomaxprocs : Z)
    (query reference : gostring) (numWorkers : Z) :
  ∃ sched res seq,
    ParallelSmithWaterman gomaxprocs query reference numWorkers sched = Next res ∧
    SmithWaterman query reference = Some seq ∧
    par_ScoreMatrix res = ScoreMatrix seq ∧
    par_MaxScore res = MaxScore seq.
Proof.
  destruct (SmithWaterman_total query reference)
    as (fs & aq & ar & _ & HM & (Hcell & Hub & _) & _ & Hseq).
  unfold ParallelSmithWaterman.
  destruct (bool_decide (length query < 50) || bool_decide (length reference < 50)).
  - exists []. rewrite Hseq. simpl. by eexists _, _.
  - destruct (run_schedule_completes (par_step query reference)
                (λ s, par_inv (length query) (length reference) s ∧ max_inv s ∧
                      wave_order_inv query reference s)
                (par_joined query reference)
                (par_measure (length query) (length reference)))
      with (s := par_init (length query) (length reference))
      as (sched & s & Hrun & (Hpar & Hmaxinv & Horder) & Hj).
    + intros s0. apply wave_order_progress.
    + split_and!; [apply par_inv_init|apply max_inv_init|apply wave_order_init].
    + pose proof (wave_order_joined _ _ s Hpar Hmaxinv Horder Hj) as HM'.
      pose proof (sw_matrix_unique _ _ _ _ HM' HM) as Heq.
      destruct Hpar as [(Hdims & _ & Hr & Hc) _].
      destruct (traceback_loop_is_Some (ps_matrix s) query reference
                  (ps_maxRow s + ps_maxCol s) (ps_maxRow s) (ps_maxCol s)
                  [] [] Hdims Hr Hc) as [al Hal].
      exists sched. rewrite Hrun, Hj. unfold parallelTraceback. rewrite Hal.
      simpl. eexists _, _. split; [done|]. split; [done|]. simpl.
      split; [done|].
      pose proof (max_inv_joined _ _ s Hmaxinv Hj) as Hub'.
      destruct Hmaxinv as (_ & _ & _ & _ & Hcell' & _).
      rewrite Heq in Hcell', Hub'.
      apply Hub in Hcell'. apply Hub' in Hcell. lia.
Qed.

(** ** What the mutations locate *)

Lemma symbols_as_strings_snoc (l : gostring) b :
  symbols_as_strings (l ++ [b]) = symbols_as_strings l ++ string_of_byte b.
Proof.
  unfold symbols_as_strings. rewrite bind_app. csimpl. by rewrite app_nil_r.
Qed.

Lemma take_drop_app_le {A : Type} (l x : list A) p k :
  p + k ≤ length l → take k (drop p (l ++ x)) = take k (drop p l).
Proof.
  intros Hle. rewrite drop_app_le by lia. rewrite take_app_le; [done|].
  rewrite length_drop. lia.
Qed.

Lemma take_drop_snoc {A : Type} (l : list A) b p k :
  p + k = length l →
  take (S k) (drop p (l ++ [b])) = take k (drop p l) ++ [b].
Proof.
  intros Hle. rewrite drop_app_le by lia.
  rewrite (take_ge (drop p l)) by (rewrite length_drop; lia).
  rewrite take_ge; [done|]. rewrite length_app, length_drop. simpl. lia.
Qed.

(** A mutation keeps saying the same when symbols are appended. *)
Lemma locates_app (query reference x y : gostring) m :
  locates query reference m → locates (query ++ x) (reference ++ y) m.
Proof.
  unfold locates. destruct (Type_ m).
  - intros (? & ? & ?). rewrite take_drop_app_le, length_app by done.
    split_and!; [done|done|lia].
  - intros (? & ? & ?). rewrite take_drop_app_le, length_app by done.
    split_and!; [done|done|lia].
  - intros (? & qb & Hqb & ? & rb & Hrb & ? & ?). split; [done|].
    exists qb. split_and!; [by apply lookup_app_l_Some|done|].
    exists rb. split_and!; [|done..]. apply elem_of_app. by left.
Qed.

Lemma stripGaps_snoc (s : gostring) b :
  stripGaps (s ++ [b]) = stripGaps s ++ if decide (b = gap) then [] else [b].
Proof.
  unfold stripGaps. rewrite filter_app. f_equal.
  destruct (decide (b = gap)) as [->|Hne].
  - by rewrite filter_cons_False by (intros H; by apply H).
  - by rewrite filter_cons_True.
Qed.

Ltac app_lengths q r := rewrite ?(length_app q), ?(length_app r); simpl.

(** One iteration of [detectMutations] on a column that is not a gap on
    both sides. *)
Lemma detect_step_locates (alignedQuery alignedRef : gostring) k qb rb
    (query reference : gostring) s :
  alignedQuery !! k = Some qb → alignedRef !! k = Some rb →
  ¬ (qb = gap ∧ rb = gap) →
  locate_inv query reference s →
  ∃ s', detect_step alignedQuery alignedRef k s = Some s' ∧
        locate_inv (query ++ if decide (qb = gap) then [] else [qb])
                   (reference ++ if decide (rb = gap) then [] else [rb]) s'.
Proof.
  intros Hqb Hrb Hnot (Hqp & Hrp & Hall & Hcur).
  unfold detect_step. rewrite Hqb. simpl. rewrite !byte_eqb_eq.
  assert (∀ t, starts_new (ds_currentMutation s) t = false →
            ∃ c, ds_currentMutation s = Some c ∧ Type_ c = t) as Hcont.
  { intros t Hnew. unfold starts_new in Hnew.
    destruct (ds_currentMutation s) as [c|]; [|done].
    exists c. split; [done|]. destruct (Type_ c), t; done. }
  assert (∀ x y, Forall (locates (query ++ x) (reference ++ y)) (ds_mutations s))
    as Hall'.
  { intros x y. eapply Forall_impl; [exact Hall|]. intros m. apply locates_app. }
  destruct (decide (qb = gap)) as [->|Hq].
  - rewrite bool_decide_eq_true_2 by done. rewrite Hrb. simpl.
    assert (rb ≠ gap) as Hr by (intros ->; by apply Hnot).
    rewrite (decide_False (P := rb = gap)) by done. rewrite app_nil_r.
    destruct (starts_new (ds_currentMutation s) deletion) eqn:Hnew.
    + eexists. split; [done|]. unfold locate_inv. simpl.
      app_lengths query reference. split_and!; [done|lia| |].
      * apply Forall_app. split; [by rewrite <- (app_nil_r query)|].
        apply Forall_singleton. unfold locates. simpl.
        rewrite Hrp, drop_app_length. simpl.
        app_lengths query reference.
        split_and!; [done| |lia]. unfold symbols_as_strings. csimpl.
        by rewrite app_nil_r.
      * intros c [= <-]. simpl. eexists _, _. split; [done|]. simpl.
        split; [done|]. app_lengths query reference. lia.
    + destruct (Hcont deletion Hnew) as (c & Hc & Hty).
      destruct (Hcur c Hc) as (ms & last & Hms & Htl & Hend).
      rewrite Hty in Htl, Hend. rewrite Hms.
      destruct (last_index_snoc ms last) as [-> Hins]. simpl.
      eexists. split; [done|]. unfold locate_inv. simpl.
      rewrite Hins. app_lengths query reference. rewrite Hms in Hall.
      apply Forall_app in Hall as [Hall Hlast].
      rewrite Forall_singleton in Hlast. unfold locates in Hlast.
      rewrite Htl in Hlast. destruct Hlast as (Hmut & Horig & _).
      split_and!; [done|lia| |].
      * apply Forall_app. split.
        -- rewrite <- (app_nil_r query).
           eapply Forall_impl; [exact Hall|]. intros m. apply locates_app.
        -- apply Forall_singleton. unfold locates. simpl. rewrite Htl.
           rewrite take_drop_snoc by done. rewrite symbols_as_strings_snoc.
           app_lengths query reference. split_and!; [done| |lia].
           by rewrite Horig.
      * intros c' Hc'. rewrite Hc in Hc'. injection Hc' as <-.
        eexists _, _. split; [done|]. simpl. rewrite Hty.
        split; [done|]. app_lengths query reference. lia.
  - rewrite bool_decide_eq_false_2 by done. rewrite Hrb. simpl.
    rewrite byte_eqb_eq. destruct (decide (rb = gap)) as [->|Hr].
    + rewrite bool_decide_eq_true_2 by done. rewrite app_nil_r.
      destruct (starts_new (ds_currentMutation s) insertion) eqn:Hnew.
      * eexists. split; [done|]. unfold locate_inv. simpl.
        app_lengths query reference. split_and!; [lia|done| |].
        -- apply Forall_app. split; [by rewrite <- (app_nil_r reference)|].
           apply Forall_singleton. unfold locates. simpl.
           rewrite Hqp, drop_app_length. simpl.
           app_lengths query reference.
           split_and!; [done| |lia]. unfold symbols_as_strings. csimpl.
           by rewrite app_nil_r.
        -- intros c [= <-]. simpl. eexists _, _. split; [done|]. simpl.
           split; [done|]. app_lengths query reference. lia.
      * destruct (Hcont insertion Hnew) as (c & Hc & Hty).
        destruct (Hcur c Hc) as (ms & last & Hms & Htl & Hend).
        rewrite Hty in Htl, Hend. rewrite Hms.
        destruct (last_index_snoc ms last) as [-> Hins]. simpl.
        eexists. split; [done|]. unfold locate_inv. simpl.
        rewrite Hins. app_lengths query reference. rewrite Hms in Hall.
        apply Forall_app in Hall as [Hall Hlast].
        rewrite Forall_singleton in Hlast. unfold locates in Hlast.
        rewrite Htl in Hlast. destruct Hlast as (Horig & Hmut & _).
        split_and!; [lia|done| |].
        -- apply Forall_app. split.
           ++ rewrite <- (app_nil_r reference).
              eapply Forall_impl; [exact Hall|]. intros m. apply locates_app.
           ++ apply Forall_singleton. unfold locates. simpl. rewrite Htl.
              rewrite take_drop_snoc by done. rewrite symbols_as_strings_snoc.
              app_lengths query reference. split_and!; [done| |lia].
              by rewrite Hmut.
        -- intros c' Hc'. rewrite Hc in Hc'. injection Hc' as <-.
           eexists _, _. split; [done|]. simpl. rewrite Hty.
           split; [done|]. app_lengths query reference. lia.
    + rewrite bool_decide_eq_false_2 by done. rewrite byte_eqb_eq.
      destruct (decide (qb = rb)) as [->|Hne].
      * rewrite bool_decide_eq_true_2 by done. simpl.
        eexists. split; [done|]. unfold locate_inv. simpl.
        app_lengths query reference. split_and!; [lia|lia|done|done].
      * rewrite bool_decide_eq_false_2 by done. simpl.
        eexists. split; [done|]. unfold locate_inv. simpl.
        app_lengths query reference. split_and!; [lia|lia| |done].
        apply Forall_app. split; [done|].
        apply Forall_singleton. unfold locates. simpl. split; [done|].
        exists qb. rewrite Hqp. split_and!.
        -- by rewrite lookup_app_r, Nat.sub_diag by lia.
        -- done.
        -- exists rb. split_and!; [|done..].
           apply elem_of_app. right. by left.
Qed.

(** X23. The mutations name what differs, where it differs.  On an
    alignment that [isValidAlignment] accepts, every deletion
    [detectMutations] returns has the gap marker as [Mutated] and as
    [Original] the [Length] symbols that start at [Position] in the
    aligned reference without its gap markers; every insertion has the
    gap marker as [Original] and as [Mutated] the [Length] symbols that
    start at [Position] in the aligned query without its gap markers;
    and every SNP has the length 1, as [Mutated] the symbol at
    [Position] in the aligned query without its gap markers, and as
    [Original] a different symbol of the aligned reference. *)
Theorem mutations_locate_the_differences (alignedQuery alignedRef : gostring) :
  isValidAlignment alignedQuery alignedRef = Some true →
  ∃ mutations,
    detectMutations alignedQuery alignedRef = Some mutations ∧
    Forall (locates (stripGaps alignedQuery) (stripGaps alignedRef)) mutations.
Proof.
  intros Hvalid.
  unfold isValidAlignment in Hvalid. case_bool_decide as Hlen; [done|].
  destruct (isValidAlignment_loop_spec alignedQuery alignedRef
              (length alignedQuery) 0) as (b & Hb & Hiff); [lia|done|].
  rewrite Hvalid in Hb. injection Hb as <-.
  assert (∀ k, ¬ (alignedQuery !! k = Some gap ∧ alignedRef !! k = Some gap))
    as Hnot.
  { intros k. apply Hiff; [done|lia]. }
  unfold detectMutations.
  replace (length alignedQuery `min` length alignedRef)
    with (length alignedQuery) by lia.
  edestruct (for_loop_inv
    (λ k s, locate_inv (stripGaps (take k alignedQuery))
                       (stripGaps (take k alignedRef)) s)
    (detect_step alignedQuery alignedRef) 0 (length alignedQuery))
    as (s & -> & _ & _ & Hall & _).
  - rewrite !take_0. unfold locate_inv. simpl. split_and!; done.
  - intros k t Hk Hinv. simpl in Hk.
    destruct (lookup_lt_is_Some_2 alignedQuery k) as [qb Hqb]; [lia|].
    destruct (lookup_lt_is_Some_2 alignedRef k) as [rb Hrb]; [lia|].
    rewrite (take_S_r _ _ _ Hqb), (take_S_r _ _ _ Hrb), !stripGaps_snoc.
    eapply detect_step_locates; [done|done| |done].
    intros [-> ->]. by apply (Hnot k).
  - simpl in *. rewrite firstn_all in Hall. rewrite Hlen, firstn_all in Hall.
    eexists. split; [done|]. done.
Qed.

Lemma mutations_locate_the_differences_witness :
  isValidAlignment ["G"; "A"; "T"; "T"; "A"; "C"; "A"]%byte
    ["G"; "A"; "-"; "T"; "C"; "C"; "A"]%byte = Some true ∧
  detectMutations ["G"; "A"; "T"; "T"; "A"; "C"; "A"]%byte
    ["G"; "A"; "-"; "T"; "C"; "C"; "A"]%byte
  = Some [ {| Type_ := insertion; Position := 2; Length := 1;
              Original := ["-"]%byte; Mutated := ["T"]%byte |};
           {| Type_ := snp; Position := 4; Length := 1;
              Original := ["C"]%byte; Mutated := ["A"]%byte |} ] ∧
  Forall (locates GATTACA ["G"; "A"; "T"; "C"; "C"; "A"]%byte)
    [ {| Type_ := insertion; Position := 2; Length := 1;
         Original := ["-"]%byte; Mutated := ["T"]%byte |};
      {| Type_ := snp; Position := 4; Length := 1;
         Original := ["C"]%byte; Mutated := ["A"]%byte |} ].
Proof.
  assert (isValidAlignment ["G"; "A"; "T"; "T"; "A"; "C"; "A"]%byte
            ["G"; "A"; "-"; "T"; "C"; "C"; "A"]%byte = Some true) as Hvalid
    by (vm_compute; reflexivity).
  split; [exact Hvalid|].
  destruct (mutations_locate_the_differences _ _ Hvalid)
    as (mutations & Hm & Hall).
  assert (mutations
          = [ {| Type_ := insertion; Position := 2; Length := 1;
                 Original := ["-"]%byte; Mutated := ["T"]%byte |};
              {| Type_ := snp; Position := 4; Length := 1;
                 Original := ["C"]%byte; Mutated := ["A"]%byte |} ]) as Heq
    by (vm_compute in Hm; congruence).
  rewrite Heq in Hm, Hall. split; [exact Hm|exact Hall].
Defined.
